(** * Keccak / SHA-3 gadget of o1js: a shallow embedding of [keccak.ts]

    The TypeScript module builds the Keccak hash as an arithmetic circuit:
    field elements are combined with [add]/[mul], bitwise gadgets install
    constraints, [exists]/[existsOne] declare witnesses.  The embedding keeps
    both sides of that picture, as a run of the prover sees them: every
    [Field] carries its value, and a [Circuit] state records, in order,
    every witness declaration and every constraint that the run installs.
    JavaScript exceptions are results of the monad, with the circuit as it
    was when the exception was thrown.

    Arrays are lists.  Where the module writes to an array in place,
    nothing reads that array through another reference afterwards: [iota]
    writes lane (0,0) of the array [chi] has just built; [piRho], [chi],
    [getKeccakStateOfBytes], the padding and [squeeze] fill arrays they
    allocated themselves; [hash] reverses the message of its caller and
    uses the reversed array only.  Each write is modelled by the updated
    list. *)

From Stdlib Require Import ZArith String Ascii Bool Lia List.
Import ListNotations.

Open Scope Z_scope.

(** ** JavaScript arrays and numbers *)

Module JS.

(** The exceptions the module can raise.  [ConfigurationError] is the
    [Error] thrown by [assert] and by the explicit [throw new Error(..)];
    [RangeError] is what [Array(n)] raises for an invalid length;
    [TypeError] is what a use of [undefined] raises.  [Unmodelled] is
    not a JavaScript exception: it marks a run that leaves the fragment
    of JavaScript embedded here (a fractional byte count, an [undefined]
    stored in an array), which no call coming from [hash] does. *)
Inductive Exn : Type :=
| ConfigurationError (msg : string)
| RangeError (msg : string)
| TypeError (msg : string)
| Unmodelled (what : string).

(** [a.slice(start, end)] for integer arguments: negative indices count
    from the end, both are clamped to the array. *)
Definition clamp (len i : Z) : Z :=
  if i <? 0 then Z.max (len + i) 0 else Z.min i len.

Definition slice {A} (a : list A) (start stop : Z) : list A :=
  let len := Z.of_nat (length a) in
  let k := clamp len start in
  let final := clamp len stop in
  firstn (Z.to_nat (final - k)) (skipn (Z.to_nat k) a).

(** [a[i] = v] for an index up to the length of the array (at the length
    the array grows by one).  An index further out would leave holes; no
    indexed write of the module goes there. *)
Fixpoint set {A} (a : list A) (i : nat) (v : A) : list A :=
  match a, i with
  | [], O => [v]
  | [], S _ => []
  | _ :: t, O => v :: t
  | h :: t, S i' => h :: set t i' v
  end.

(** The largest length [Array(n)] accepts. *)
Definition MAX_ARRAY_LENGTH : Z := 2 ^ 32 - 1.

(** A JavaScript number that is an integer or [NaN].  The module only
    divides by zero on the way to [NaN] or to an invalid array length, so
    the infinities are folded into [NaN]. *)
Inductive number : Type :=
| Int (z : Z)
| NaN.

(** [Math.floor(a / b)]. *)
Definition floor_div (a b : Z) : number :=
  if b =? 0 then NaN else Int (a / b).

(** [a % b]: the remainder has the sign of the dividend. *)
Definition rem (a : Z) (b : number) : number :=
  match b with
  | Int b' => if b' =? 0 then NaN else Int (Z.rem a b')
  | NaN => NaN
  end.

Definition sub (a b : number) : number :=
  match a, b with
  | Int x, Int y => Int (x - y)
  | _, _ => NaN
  end.

Definition add (a b : number) : number :=
  match a, b with
  | Int x, Int y => Int (x + y)
  | _, _ => NaN
  end.

Definition mul (a b : number) : number :=
  match a, b with
  | Int x, Int y => Int (x * y)
  | _, _ => NaN
  end.

End JS.

(** ** Field elements, witnesses and constraints *)

Module Circuit.

(** Modelled from the spec: the modulus of the field-element abstraction
    is not in src (it lives in field.js); o1js computes in the base field
    of the Pallas curve. *)
Definition ORDER : Z :=
  28948022309329048855892746252171976963363056481941560715954676764349967630337.

(** A field element is a constant, a circuit variable (with the value the
    prover holds for it) or an arithmetic combination of field elements. *)
Inductive Field : Type :=
| Constant (c : Z)
| Var (id : nat) (value : Z)
| Add (a b : Field)
| Sub (a b : Field)
| Mul (a b : Field).

(** [Field.from(n)] *)
Definition from (n : Z) : Field := Constant (n mod ORDER).

(** [x.toBigInt()] *)
Fixpoint toBigInt (x : Field) : Z :=
  match x with
  | Constant c => c
  | Var _ v => v
  | Add a b => (toBigInt a + toBigInt b) mod ORDER
  | Sub a b => (toBigInt a - toBigInt b) mod ORDER
  | Mul a b => (toBigInt a * toBigInt b) mod ORDER
  end.

(** The circuit variables a field element is built from. *)
Fixpoint vars (x : Field) : list nat :=
  match x with
  | Constant _ => []
  | Var id _ => [id]
  | Add a b | Sub a b | Mul a b => vars a ++ vars b
  end.

(** Who declared a witness: [exists], [existsOne], or a bitwise gadget for
    its own output. *)
Inductive Origin : Type := ByExists | ByExistsOne | ByGadget.

(** What a run leaves in the constraint system. *)
Inductive Event : Type :=
| Witness (o : Origin) (id : nat)
| AssertEquals (a b : Field)
| RangeCheck8 (a : Field)
| XorGate (a b out : Field) (width : Z)
| AndGate (a b out : Field) (width : Z)
| RotGate (a : Field) (bits : Z) (out : Field).

(** The state of circuit construction: the next free variable and the
    events so far, newest first. *)
Record Circuit : Type := mkCircuit { next_var : nat; log : list Event }.

Definition empty : Circuit := mkCircuit 0 [].

Inductive Result (A : Type) : Type :=
| Ok (a : A)
| Throw (e : JS.Exn).
Arguments Ok {A} a.
Arguments Throw {A} e.

Definition M (A : Type) : Type := Circuit -> Result A * Circuit.

Definition ret {A} (a : A) : M A := fun c => (Ok a, c).

Definition bind {A B} (m : M A) (k : A -> M B) : M B :=
  fun c => match m c with
           | (Ok a, c') => k a c'
           | (Throw e, c') => (Throw e, c')
           end.

Definition throw {A} (e : JS.Exn) : M A := fun c => (Throw e, c).

Definition emit (e : Event) : M unit :=
  fun c => (Ok tt, mkCircuit (next_var c) (e :: log c)).

Definition fresh (o : Origin) (value : Z) : M Field :=
  fun c => (Ok (Var (next_var c) value),
            mkCircuit (S (next_var c)) (Witness o (next_var c) :: log c)).

End Circuit.

Export Circuit.

Declare Scope circuit_scope.
Delimit Scope circuit_scope with circuit.
Notation "x <- m ;; k" := (bind m (fun x => k))
  (at level 61, m at next level, right associativity) : circuit_scope.
Notation "m ;; k" := (bind m (fun _ => k))
  (at level 61, right associativity) : circuit_scope.
Open Scope circuit_scope.

(** Monadic loops: [a.reduce(f, init)], [a.map(f)] and [for] over a range. *)
Fixpoint foldM {A B} (f : B -> A -> M B) (l : list A) (b : B) : M B :=
  match l with
  | [] => ret b
  | a :: t => b' <- f b a ;; foldM f t b'
  end.

Fixpoint mapM {A B} (f : A -> M B) (l : list A) : M (list B) :=
  match l with
  | [] => ret []
  | a :: t => b <- f a ;; bs <- mapM f t ;; ret (b :: bs)
  end.

(** [a.map((x, i) => f(x, i))] *)
Fixpoint mapiM_from {A B} (i : nat) (f : A -> nat -> M B) (l : list A)
  : M (list B) :=
  match l with
  | [] => ret []
  | a :: t => b <- f a i ;; bs <- mapiM_from (S i) f t ;; ret (b :: bs)
  end.

Definition mapiM {A B} := @mapiM_from A B 0.

(** [a[i]] where the element is used right away: [undefined] is a
    [TypeError] at its first use. *)
Definition get {A} (a : list A) (i : nat) : M A :=
  match nth_error a i with
  | Some v => ret v
  | None => throw (JS.TypeError "undefined")
  end.

(** [Array(n).fill(v)] *)
Definition Array_fill {A} (n : JS.number) (v : A) : M (list A) :=
  match n with
  | JS.Int z =>
      if (0 <=? z) && (z <=? JS.MAX_ARRAY_LENGTH)
      then ret (repeat v (Z.to_nat z))
      else throw (JS.RangeError "Invalid array length")
  | JS.NaN => throw (JS.RangeError "Invalid array length")
  end.

(** Modelled from the spec: [assert] of errors.js is not in src; a failed
    assertion aborts circuit construction with a configuration error that
    carries the message. *)
Definition assert (stmt : bool) (msg : string) : M unit :=
  if stmt then ret tt else throw (JS.ConfigurationError msg).

(** Modelled from the spec: [existsOne] of gadgets/common.js is not in src;
    it declares one witness whose value the out-of-band callback computes. *)
Definition existsOne (compute : M Z) : M Field :=
  v <- compute ;; fresh ByExistsOne v.

(** Modelled from the spec: [exists] of gadgets/common.js is not in src; it
    declares [n] witnesses whose values the callback computes at once. *)
Definition exists_ (n : nat) (compute : list Z) : M (list Field) :=
  mapM (fresh ByExists) (firstn n compute).

(** [x.assertEquals(y)] *)
Definition assertEquals (x y : Field) : M unit := emit (AssertEquals x y).

(** ** The bitwise gadget library *)

Module Gadgets.

(** Modelled from the spec: gadgets/gadgets.js and gadgets/range-check.js
    are not in src.  A gadget works on field elements that stand for
    unsigned integers of a fixed width; it declares its output as advice
    and installs the constraints that tie the output to its operands. *)
Definition xor (a b : Field) (width : Z) : M Field :=
  out <- fresh ByGadget (Z.lxor (toBigInt a) (toBigInt b)) ;;
  emit (XorGate a b out width) ;;
  ret out.

(** Modelled from the spec: the AND gadget of gadgets/gadgets.js. *)
Definition and (a b : Field) (width : Z) : M Field :=
  out <- fresh ByGadget (Z.land (toBigInt a) (toBigInt b)) ;;
  emit (AndGate a b out width) ;;
  ret out.

(** Modelled from the spec: the NOT gadget of gadgets/gadgets.js.  The
    unchecked variant is the plain complement [2^width - 1 - a], derived
    without a constraint; the checked one is an XOR with all ones. *)
Definition not (a : Field) (width : Z) (checked : bool) : M Field :=
  let allOnes := from (2 ^ width - 1) in
  if checked then xor a allOnes width else ret (Sub allOnes a).

(** Modelled from the spec: the left-rotation gadget of gadgets/gadgets.js
    on 64-bit words. *)
Definition rotl64 (v bits : Z) : Z :=
  Z.lor (Z.shiftl v bits mod 2 ^ 64) (Z.shiftr v (64 - bits)).

Definition rotate (a : Field) (bits : Z) : M Field :=
  out <- fresh ByGadget (rotl64 (toBigInt a) bits) ;;
  emit (RotGate a bits out) ;;
  ret out.

(** Modelled from the spec: the 8-bit range check of
    gadgets/range-check.js. *)
Definition rangeCheck8 (a : Field) : M unit := emit (RangeCheck8 a).

End Gadgets.

(** ** keccak.ts *)

Module Keccak.

(** *** Constants *)

Definition KECCAK_DIM : nat := 5.
Definition KECCAK_ELL : Z := 6.
Definition KECCAK_WORD : Z := 2 ^ KECCAK_ELL.
Definition BYTES_PER_WORD : nat := Z.to_nat (KECCAK_WORD / 8).
Definition KECCAK_STATE_LENGTH : Z := Z.of_nat KECCAK_DIM ^ 2 * KECCAK_WORD.
Definition KECCAK_ROUNDS : Z := 12 + 2 * KECCAK_ELL.

Definition ROT_TABLE : list (list Z) :=
  [ [0; 36; 3; 41; 18];
    [1; 44; 10; 45; 2];
    [62; 6; 43; 15; 61];
    [28; 55; 25; 21; 56];
    [27; 20; 39; 8; 14] ].

Definition ROUND_CONSTANTS : list Z :=
  [ 0x0000000000000001; 0x0000000000008082; 0x800000000000808a;
    0x8000000080008000; 0x000000000000808b; 0x0000000080000001;
    0x8000000080008081; 0x8000000000008009; 0x000000000000008a;
    0x0000000000000088; 0x0000000080008009; 0x000000008000000a;
    0x000000008000808b; 0x800000000000008b; 0x8000000000008089;
    0x8000000000008003; 0x8000000000008002; 0x8000000000000080;
    0x000000000000800a; 0x800000008000000a; 0x8000000080008081;
    0x8000000000008080; 0x0000000080000001; 0x8000000080008008 ].

(** The state: [state[x][y]] is the lane at column [x], row [y]. *)
Definition State : Type := list (list Field).

(** [state[x][y]], read to be used. *)
Definition get2 (state : State) (x y : nat) : M Field :=
  row <- get state x ;; get row y.

(** [state[x][y] = v] *)
Definition set2 (state : State) (x y : nat) (v : Field) : State :=
  match nth_error state x with
  | Some row => JS.set state x (JS.set row y v)
  | None => state
  end.

(** [for (let i = 0; i < n; i++) body], threading the variables that the
    body updates. *)
Definition for_range {S} (n : nat) (body : nat -> S -> M S) (s : S) : M S :=
  foldM (fun s i => body i s) (seq 0 n) s.

(** *** State codec *)

(** The weighted sum that [checkBytesToWord] builds with [reduce]. *)
Fixpoint compose_from (i : nat) (acc : Field) (wordBytes : list Field)
  : Field :=
  match wordBytes with
  | [] => acc
  | x :: t =>
      let shift := from (2 ^ (8 * Z.of_nat i)) in
      compose_from (S i) (Add acc (Mul x shift)) t
  end.

Definition checkBytesToWord (word : Field) (wordBytes : list Field)
  : M unit :=
  let composition := compose_from 0 (from 0) wordBytes in
  assertEquals word composition.

Definition getKeccakStateZeros : State :=
  repeat (repeat (from 0) KECCAK_DIM) KECCAK_DIM.

Definition getKeccakStateOfBytes (bytestring : list Field) : M State :=
  assert (length bytestring =? 200)%nat "improper bytestring length" ;;
  let bytestringArray := bytestring in
  for_range KECCAK_DIM (fun y =>
    for_range KECCAK_DIM (fun x state =>
      let idx := (BYTES_PER_WORD * (KECCAK_DIM * y + x))%nat in
      let wordBytes :=
        JS.slice bytestringArray (Z.of_nat idx)
                 (Z.of_nat (idx + BYTES_PER_WORD)) in
      for_range BYTES_PER_WORD (fun z state =>
        let shift := from (2 ^ (8 * Z.of_nat z)) in
        lane <- get2 state x y ;;
        byte <- get wordBytes z ;;
        ret (set2 state x y (Add lane (Mul shift byte)))) state))
    getKeccakStateZeros.

Definition keccakStateToBytes (state : State) : M (list Field) :=
  let stateLengthInBytes := Z.to_nat (KECCAK_STATE_LENGTH / 8) in
  bytestring <-
    mapM (fun idx =>
            existsOne (
              let z := (idx mod BYTES_PER_WORD)%nat in
              let x := ((idx / BYTES_PER_WORD) mod KECCAK_DIM)%nat in
              let y := (idx / BYTES_PER_WORD / KECCAK_DIM)%nat in
              lane <- get2 state x y ;;
              let word := toBigInt lane in
              let byte := Z.land (Z.shiftr word (8 * Z.of_nat z)) 0xff in
              ret byte))
         (seq 0 stateLengthInBytes) ;;
  for_range KECCAK_DIM (fun y =>
    for_range KECCAK_DIM (fun x (_ : unit) =>
      let idx := (BYTES_PER_WORD * (KECCAK_DIM * y + x))%nat in
      let word_bytes :=
        JS.slice bytestring (Z.of_nat idx)
                 (Z.of_nat (idx + BYTES_PER_WORD)) in
      lane <- get2 state x y ;;
      checkBytesToWord lane word_bytes)) tt ;;
  ret bytestring.

Definition keccakStateXor (a b : State) : M State :=
  assert ((length a =? KECCAK_DIM)%nat
          && (length (nth 0%nat a []) =? KECCAK_DIM)%nat)
         "Invalid input1 dimensions" ;;
  assert ((length b =? KECCAK_DIM)%nat
          && (length (nth 0%nat b []) =? KECCAK_DIM)%nat)
         "Invalid input2 dimensions" ;;
  mapiM (fun row rowIndex =>
           mapiM (fun element columnIndex =>
                    other <- get2 b rowIndex columnIndex ;;
                    Gadgets.xor element other 64) row) a.

(** *** Padding *)

Definition bytesToPad (rate length : Z) : JS.number :=
  JS.sub (JS.Int (rate / 8)) (JS.rem length (JS.Int (rate / 8))).

(** [pad[i]] for a numeric index, read to be used. *)
Definition get_at {A} (a : list A) (i : JS.number) : M A :=
  match i with
  | JS.Int z => if z <? 0 then throw (JS.TypeError "undefined")
                else get a (Z.to_nat z)
  | JS.NaN => throw (JS.TypeError "undefined")
  end.

(** [pad[i] = v] for a numeric index that [get_at] has just read. *)
Definition set_at {A} (a : list A) (i : JS.number) (v : A) : list A :=
  match i with
  | JS.Int z => JS.set a (Z.to_nat z) v
  | JS.NaN => a
  end.

Definition padNist (message : list Field) (rate : Z) : M (list Field) :=
  let extraBytes := bytesToPad rate (Z.of_nat (length message)) in
  let lastField := 2 ^ 7 in
  let last := from lastField in
  pad <- Array_fill extraBytes (from 0) ;;
  let pad := JS.set pad 0 (from 6) in
  lastByte <- get_at pad (JS.sub extraBytes (JS.Int 1)) ;;
  let pad := set_at pad (JS.sub extraBytes (JS.Int 1)) (Add lastByte last) in
  ret (message ++ pad).

Definition pad101 (message : list Field) (rate : Z) : M (list Field) :=
  let extraBytes := bytesToPad rate (Z.of_nat (length message)) in
  let lastField := 2 ^ 7 in
  let last := from lastField in
  pad <- Array_fill extraBytes (from 0) ;;
  let pad := JS.set pad 0 (from 1) in
  lastByte <- get_at pad (JS.sub extraBytes (JS.Int 1)) ;;
  let pad := set_at pad (JS.sub extraBytes (JS.Int 1)) (Add lastByte last) in
  ret (message ++ pad).

(** *** Round transformation *)

(** [row.reduce(f)] without an initial value. *)
Definition reduce1 {A} (f : A -> A -> M A) (row : list A) : M A :=
  match row with
  | [] => throw (JS.TypeError "Reduce of empty array with no initial value")
  | first :: others => foldM f others first
  end.

Definition theta (state : State) : M State :=
  let stateA := state in
  stateC <- mapM (fun row =>
                    reduce1 (fun acc next => Gadgets.xor acc next KECCAK_WORD)
                            row) stateA ;;
  stateD <- mapM (fun x =>
                    next <- get stateC ((x + 1) mod KECCAK_DIM)%nat ;;
                    rotated <- Gadgets.rotate next 1 ;;
                    prev <- get stateC ((x + KECCAK_DIM - 1) mod KECCAK_DIM)%nat ;;
                    Gadgets.xor prev rotated KECCAK_WORD)
                 (seq 0 KECCAK_DIM) ;;
  stateE <- mapiM (fun row index =>
                     mapM (fun elem =>
                             d <- get stateD index ;;
                             Gadgets.xor elem d KECCAK_WORD) row) stateA ;;
  ret stateE.

Definition piRho (state : State) : M State :=
  let stateE := state in
  let stateB := getKeccakStateZeros in
  for_range KECCAK_DIM (fun x =>
    for_range KECCAK_DIM (fun y stateB =>
      lane <- get2 stateE x y ;;
      rotated <- Gadgets.rotate lane (nth y (nth x ROT_TABLE []) 0) ;;
      ret (set2 stateB y ((2 * x + 3 * y) mod KECCAK_DIM)%nat rotated)))
    stateB.

Definition chi (state : State) : M State :=
  let stateB := state in
  let stateF := getKeccakStateZeros in
  for_range KECCAK_DIM (fun x =>
    for_range KECCAK_DIM (fun y stateF =>
      row <- get stateB x ;;
      b1 <- get2 stateB ((x + 1) mod KECCAK_DIM)%nat y ;;
      negated <- Gadgets.not b1 KECCAK_WORD false ;;
      b2 <- get2 stateB ((x + 2) mod KECCAK_DIM)%nat y ;;
      conj <- Gadgets.and negated b2 KECCAK_WORD ;;
      b0 <- get row y ;;
      out <- Gadgets.xor b0 conj KECCAK_WORD ;;
      ret (set2 stateF x y out)))
    stateF.

(** [iota] writes lane (0,0) of the array it is given; that array is the
    one [chi] has just built, which nothing else refers to. *)
Definition iota (state : State) (rc : Field) : M State :=
  let stateG := state in
  lane <- get2 stateG 0 0 ;;
  out <- Gadgets.xor lane rc KECCAK_WORD ;;
  ret (set2 stateG 0 0 out).

Definition round (state : State) (rc : Field) : M State :=
  let stateA := state in
  stateE <- theta stateA ;;
  stateB <- piRho stateE ;;
  stateF <- chi stateB ;;
  stateD <- iota stateF rc ;;
  ret stateD.

Definition permutation (state : State) (rc : list Field) : M State :=
  foldM (fun currentState rcValue => round currentState rcValue) rc state.

(** *** Sponge *)

(** The loop of [absorb]: [i] is the loop counter, [step] is [rate / 8].
    With [step >= 1] the counter passes [paddedMessage.length] within
    that many iterations, which is the fuel [absorb] gives the loop. *)
Fixpoint absorb_loop (fuel : nat) (paddedMessage zeros : list Field)
         (step : Z) (rc : list Field) (i : Z) (state : State) : M State :=
  if i <? Z.of_nat (length paddedMessage) then
    match fuel with
    | O => throw (JS.Unmodelled "loop counter does not advance")
    | S fuel' =>
        let block := JS.slice paddedMessage i (i + step) in
        let paddedBlock := block ++ zeros in
        assert (Z.of_nat (length paddedBlock) * 8 =? KECCAK_STATE_LENGTH)
               "improper Keccak block length" ;;
        blockState <- getKeccakStateOfBytes paddedBlock ;;
        stateXor <- keccakStateXor state blockState ;;
        statePerm <- permutation stateXor rc ;;
        absorb_loop fuel' paddedMessage zeros step rc (i + step) statePerm
    end
  else ret state.

(** [capacity / 8] is an array length: [Array] rejects it unless it is a
    whole number.  [rate / 8] is the loop step; [absorb] is only called
    with [rate = KECCAK_STATE_LENGTH - capacity > 0], a multiple of 8 once
    [capacity] is one. *)
Definition absorb (paddedMessage : list Field) (capacity rate : Z)
           (rc : list Field) : M State :=
  let state := getKeccakStateZeros in
  zeros <- (if capacity mod 8 =? 0
            then Array_fill (JS.Int (capacity / 8)) (from 0)
            else throw (JS.RangeError "Invalid array length")) ;;
  if (rate mod 8 =? 0) && (0 <? rate) then
    absorb_loop (length paddedMessage) paddedMessage zeros (rate / 8) rc
                0 state
  else throw (JS.Unmodelled "rate / 8 is not a positive whole number").

(** The local function [copy] of [squeeze]. *)
Definition copy (bytestring outputArray : list Field) (start length : Z)
  : M (list Field) :=
  for_range (Z.to_nat length) (fun i outputArray =>
    match nth_error bytestring i with
    | Some byte =>
        ret (JS.set outputArray (Z.to_nat (start + Z.of_nat i)) byte)
    | None => throw (JS.Unmodelled "undefined stored in the output array")
    end) outputArray.

(** The number of iterations of [for (let i = 1; i < squeezes; i++)]. *)
Definition extra_squeezes (squeezes : JS.number) : nat :=
  match squeezes with
  | JS.Int s => Z.to_nat (s - 1)
  | JS.NaN => 0
  end.

Definition squeeze (state : State) (length rate : Z) (rc : list Field)
  : M (list Field) :=
  if negb (rate mod 8 =? 0)
  then throw (JS.Unmodelled "rate / 8 is not a whole number") else
  let newState := state in
  let bytesPerSqueeze := rate / 8 in
  let squeezes := JS.add (JS.floor_div length rate) (JS.Int 1) in
  let outputLength := JS.mul squeezes (JS.Int bytesPerSqueeze) in
  outputArray <- Array_fill outputLength (from 0) ;;
  bytestring <- keccakStateToBytes state ;;
  let outputBytes := JS.slice bytestring 0 bytesPerSqueeze in
  outputArray <- copy outputBytes outputArray 0 bytesPerSqueeze ;;
  loop <- foldM (fun '(newState, outputArray) i =>
                   newState <- permutation newState rc ;;
                   bytestringI <- keccakStateToBytes state ;;
                   let outputBytesI :=
                     JS.slice bytestringI 0 bytesPerSqueeze in
                   outputArray <-
                     copy outputBytesI outputArray
                          (bytesPerSqueeze * Z.of_nat i) bytesPerSqueeze ;;
                   ret (newState, outputArray))
                (seq 1 (extra_squeezes squeezes))
                (newState, outputArray) ;;
  let outputArray := snd loop in
  let hashed := JS.slice outputArray 0 (Z.quot length 8) in
  ret hashed.

Definition sponge (paddedMessage : list Field) (length capacity rate : Z)
  : M (list Field) :=
  match JS.rem (Z.of_nat (List.length paddedMessage) * 8) (JS.Int rate) with
  | JS.Int 0 =>
      rc <- exists_ 24 ROUND_CONSTANTS ;;
      state <- absorb paddedMessage capacity rate rc ;;
      hashed <- squeeze state length rate rc ;;
      ret hashed
  | _ => throw (JS.ConfigurationError "Invalid padded message length")
  end.

(** *** Hash facade *)

Definition checkBytes (inputs : list Field) : M unit :=
  mapM Gadgets.rangeCheck8 inputs ;; ret tt.

Inductive Endian : Type := Big | Little.

Definition hash (inpEndian outEndian : Endian) (byteChecks : bool)
           (message : list Field) (length capacity : Z)
           (nistVersion : bool) : M (list Field) :=
  assert (capacity >? 0) "capacity must be positive" ;;
  assert (capacity <? KECCAK_STATE_LENGTH)
         "capacity must be less than 1600" ;;
  assert (length >? 0) "length must be positive" ;;
  assert (Z.rem length 8 =? 0) "length must be a multiple of 8" ;;
  let messageFormatted :=
    match inpEndian with Big => message | Little => rev message end in
  (if byteChecks then checkBytes messageFormatted else ret tt) ;;
  let rate := KECCAK_STATE_LENGTH - capacity in
  padded <- (if nistVersion then padNist messageFormatted rate
             else pad101 messageFormatted rate) ;;
  hash <- sponge padded length capacity rate ;;
  checkBytes hash ;;
  let hashFormatted :=
    match outEndian with Big => hash | Little => rev hash end in
  ret hashFormatted.

Definition nistSha3 (len : Z) (message : list Field)
           (inpEndian outEndian : Endian) (byteChecks : bool)
  : M (list Field) :=
  match len with
  | 224 => hash inpEndian outEndian byteChecks message 224 448 true
  | 256 => hash inpEndian outEndian byteChecks message 256 512 true
  | 384 => hash inpEndian outEndian byteChecks message 384 768 true
  | 512 => hash inpEndian outEndian byteChecks message 512 1024 true
  | _ => throw (JS.ConfigurationError "Invalid length")
  end.

Definition ethereum (inpEndian outEndian : Endian) (byteChecks : bool)
           (message : list Field) : M (list Field) :=
  hash inpEndian outEndian byteChecks message 256 512 false.

Definition preNist (len : Z) (message : list Field)
           (inpEndian outEndian : Endian) (byteChecks : bool)
  : M (list Field) :=
  match len with
  | 224 => hash inpEndian outEndian byteChecks message 224 448 false
  | 256 => ethereum inpEndian outEndian byteChecks message
  | 384 => hash inpEndian outEndian byteChecks message 384 768 false
  | 512 => hash inpEndian outEndian byteChecks message 512 1024 false
  | _ => throw (JS.ConfigurationError "Invalid length")
  end.

End Keccak.

Import Keccak.

(** ** The permutation driver as the specification words it *)

(** One round: theta first, then the fused rho/pi step, then chi, then
    iota with the round constant. *)
Definition round_steps (state : State) (rc : Field) : M State :=
  bind (theta state) (fun stateE =>
  bind (piRho stateE) (fun stateB =>
  bind (chi stateB) (fun stateF =>
  iota stateF rc))).

(** Rounds [i], [i+1], ..., [i+n-1] in sequence, round [j] with the [j]-th
    round constant, each on the state the previous one returned. *)
Fixpoint rounds_from (i n : nat) (rc : list Field) (state : State)
  : M State :=
  match n with
  | O => ret state
  | S n' => bind (round_steps state (nth i rc (from 0)))
                 (rounds_from (S i) n' rc)
  end.

(** ** The sponge of a single squeeze *)

(** [sponge] when one squeeze delivers the whole output: the digest is the
    first [length / 8] bytes of the byte decomposition of the state that
    [absorb] returns. *)
Definition sponge_one_squeeze (paddedMessage : list Field)
           (length capacity rate : Z) : M (list Field) :=
  match JS.rem (Z.of_nat (List.length paddedMessage) * 8) (JS.Int rate) with
  | JS.Int 0 =>
      rc <- exists_ 24 ROUND_CONSTANTS ;;
      state <- absorb paddedMessage capacity rate rc ;;
      bytestring <- keccakStateToBytes state ;;
      ret (firstn (Z.to_nat (length / 8)) bytestring)
  | _ => throw (JS.ConfigurationError "Invalid padded message length")
  end.

(** ** Shapes and values of states *)

(** A state as every transformation produces it: five columns of five
    lanes. *)
Definition well_formed (state : State) : Prop :=
  length state = KECCAK_DIM /\
  Forall (fun row => length row = KECCAK_DIM) state.

(** The lane [state[x][y]] of a well-formed state. *)
Definition lane (state : State) (x y : nat) : Field :=
  nth y (nth x state []) (from 0).

(** The value that [keccakStateToBytes] computes for the byte at [idx]. *)
Definition byte_value (state : State) (idx : nat) : Z :=
  let z := (idx mod BYTES_PER_WORD)%nat in
  let x := ((idx / BYTES_PER_WORD) mod KECCAK_DIM)%nat in
  let y := (idx / BYTES_PER_WORD / KECCAK_DIM)%nat in
  Z.land (Z.shiftr (toBigInt (lane state x y)) (8 * Z.of_nat z)) 0xff.

(** The eight bytes of lane number [k] (lane [k] is lane (k mod 5, k / 5))
    in a byte string of the state. *)
Definition lane_bytes (bytes : list Field) (k : nat) : list Field :=
  firstn 8 (skipn (8 * k) bytes).

(** The assertion that [keccakStateToBytes] installs for lane number [k]:
    the lane equals the weighted sum of its eight bytes. *)
Definition recomposition (state : State) (bytes : list Field) (k : nat)
  : Event :=
  AssertEquals (lane state (k mod 5) (k / 5))
               (compose_from 0 (from 0) (lane_bytes bytes k)).

(** The 200 witnesses that [keccakStateToBytes] declares when [n] is the
    next free variable. *)
Definition declared_bytes (state : State) (n : nat) : list Field :=
  map (fun idx => Var (idx + n) (byte_value state idx)) (seq 0 200).

(** The lane that [getKeccakStateOfBytes] composes from eight bytes. *)
Definition lane_of_bytes (b0 b1 b2 b3 b4 b5 b6 b7 : Field) : Field :=
  Add (Add (Add (Add (Add (Add (Add (Add
    (Constant 0)
    (Mul (Constant 1) b0))
    (Mul (Constant 256) b1))
    (Mul (Constant 65536) b2))
    (Mul (Constant 16777216) b3))
    (Mul (Constant 4294967296) b4))
    (Mul (Constant 1099511627776) b5))
    (Mul (Constant 281474976710656) b6))
    (Mul (Constant 72057594037927936) b7).

(** A field element that holds a byte value. *)
Definition is_byte (x : Field) : Prop := 0 <= toBigInt x <= 255.

(** ** Digests as hexadecimal strings *)

Definition hex_digit (n : Z) : ascii :=
  match n with
  | 0 => "0" | 1 => "1" | 2 => "2" | 3 => "3" | 4 => "4" | 5 => "5"
  | 6 => "6" | 7 => "7" | 8 => "8" | 9 => "9" | 10 => "a" | 11 => "b"
  | 12 => "c" | 13 => "d" | 14 => "e" | _ => "f"
  end%char.

(** Two lowercase hexadecimal digits per byte, first byte first. *)
Fixpoint to_hex (bytes : list Z) : string :=
  match bytes with
  | [] => EmptyString
  | b :: t => String (hex_digit (b / 16)) (String (hex_digit (b mod 16)) (to_hex t))
  end.

(** The digest, in hexadecimal, of a hash run on a fresh circuit. *)
Definition digest_hex (run : M (list Field)) : option string :=
  match fst (run empty) with
  | Ok digest => Some (to_hex (map toBigInt digest))
  | Throw _ => None
  end.

(** The values of the bytes a run on a fresh circuit returns. *)
Definition digest_values (run : M (list Field)) : option (list Z) :=
  match fst (run empty) with
  | Ok digest => Some (map toBigInt digest)
  | Throw _ => None
  end.

(** ** Squeeze as the specification words it *)

(** The first chunk is the first [rate / 8] bytes of the state; every
    further chunk applies the permutation once more and takes the first
    [rate / 8] bytes of the state the permutation returned; the chunks are
    concatenated and cut to [length / 8] bytes. *)
Definition squeeze_as_specified (state : State) (length rate : Z)
           (rc : list Field) : M (list Field) :=
  if negb (rate mod 8 =? 0)
  then throw (JS.Unmodelled "rate / 8 is not a whole number") else
  let bytesPerSqueeze := rate / 8 in
  let squeezes := JS.add (JS.floor_div length rate) (JS.Int 1) in
  bytestring <- keccakStateToBytes state ;;
  let firstChunk := JS.slice bytestring 0 bytesPerSqueeze in
  loop <- foldM (fun '(newState, output) (_ : nat) =>
                   newState <- permutation newState rc ;;
                   bytestringI <- keccakStateToBytes newState ;;
                   ret (newState,
                        output ++ JS.slice bytestringI 0 bytesPerSqueeze))
                (seq 1 (extra_squeezes squeezes))
                (state, firstChunk) ;;
  ret (JS.slice (snd loop) 0 (Z.quot length 8)).

(** ** Witnesses and the constraints that mention them *)

Definition mentions (id : nat) (x : Field) : bool :=
  existsb (Nat.eqb id) (vars x).

(** The event is an equality assertion or a range check on an expression
    that contains variable [id]. *)
Definition asserts_or_range_checks (id : nat) (e : Event) : bool :=
  match e with
  | AssertEquals a b => mentions id a || mentions id b
  | RangeCheck8 a => mentions id a
  | _ => false
  end.

(** The event is a bitwise gate that takes variable [id] as an operand. *)
Definition gate_operand (id : nat) (e : Event) : bool :=
  match e with
  | XorGate a b _ _ | AndGate a b _ _ => mentions id a || mentions id b
  | RotGate a _ _ => mentions id a
  | _ => false
  end.

(** The variables that a circuit declared with the given primitive, oldest
    first. *)
Definition declared_by (o : Origin) (c : Circuit) : list nat :=
  rev (flat_map (fun e => match e with
                          | Witness ByExists id =>
                              match o with ByExists => [id] | _ => [] end
                          | Witness ByExistsOne id =>
                              match o with ByExistsOne => [id] | _ => [] end
                          | Witness ByGadget id =>
                              match o with ByGadget => [id] | _ => [] end
                          | _ => []
                          end) (log c)).

(** Every one of the variables is mentioned by an equality assertion or a
    range check of the circuit. *)
Definition all_asserted (c : Circuit) (ids : list nat) : bool :=
  forallb (fun id => existsb (asserts_or_range_checks id) (log c)) ids.

(** None of the variables is mentioned by an equality assertion or a range
    check of the circuit. *)
Definition none_asserted (c : Circuit) (ids : list nat) : bool :=
  forallb (fun id => negb (existsb (asserts_or_range_checks id) (log c))) ids.

(** Every one of the variables is an operand of a gate of the circuit. *)
Definition all_gate_operands (c : Circuit) (ids : list nat) : bool :=
  forallb (fun id => existsb (gate_operand id) (log c)) ids.

(** Modelled from the spec: what each constraint demands of the values the
    prover supplied.  An assertion demands equal values, a range check a
    value below 256, a gate that its output is the operation applied to
    operands of the gate's width. *)
Definition fits (width : Z) (v : Z) : bool := (0 <=? v) && (v <? 2 ^ width).

Definition holds (e : Event) : bool :=
  match e with
  | Witness _ _ => true
  | AssertEquals a b => toBigInt a =? toBigInt b
  | RangeCheck8 a => fits 8 (toBigInt a)
  | XorGate a b out width =>
      fits width (toBigInt a) && fits width (toBigInt b)
      && (toBigInt out =? Z.lxor (toBigInt a) (toBigInt b))
  | AndGate a b out width =>
      fits width (toBigInt a) && fits width (toBigInt b)
      && (toBigInt out =? Z.land (toBigInt a) (toBigInt b))
  | RotGate a bits out =>
      fits 64 (toBigInt a)
      && (toBigInt out =? Gadgets.rotl64 (toBigInt a) bits)
  end.

(** Every constraint of the circuit holds for the prover's values. *)
Definition satisfied (c : Circuit) : bool := forallb holds (log c).

(** [sponge] with a prover who answers the [exists] of the round constants
    with values of its own choice; with [ROUND_CONSTANTS] it is [sponge]. *)
Definition sponge_with_advice (advice : list Z) (paddedMessage : list Field)
           (length capacity rate : Z) : M (list Field) :=
  match JS.rem (Z.of_nat (List.length paddedMessage) * 8) (JS.Int rate) with
  | JS.Int 0 =>
      rc <- exists_ 24 advice ;;
      state <- absorb paddedMessage capacity rate rc ;;
      hashed <- squeeze state length rate rc ;;
      ret hashed
  | _ => throw (JS.ConfigurationError "Invalid padded message length")
  end.

(** The padded empty message of [ethereum]: 0x01, 134 zero bytes, 0x80. *)
Definition padded_empty_message : list Field :=
  from 1 :: repeat (from 0) 134 ++ [Add (from 0) (from (2 ^ 7))].

(** ** Lanes as 64-bit words *)

(** A value that fits a lane. *)
Definition word (v : Z) : Prop := 0 <= v < 2 ^ 64.

(** Every lane of the state holds a 64-bit value. *)
Definition words (state : State) : Prop :=
  Forall (Forall (fun l => word (toBigInt l))) state.

(** The parity of column [x]: the XOR of its five lanes, in the order
    [reduce] takes them. *)
Definition column_parity (state : State) (x : nat) : Z :=
  Z.lxor (Z.lxor (Z.lxor (Z.lxor
    (toBigInt (lane state x 0)) (toBigInt (lane state x 1)))
    (toBigInt (lane state x 2))) (toBigInt (lane state x 3)))
    (toBigInt (lane state x 4)).

(** [D[x] = C[x-1] xor ROT(C[x+1], 1)], indices modulo 5. *)
Definition theta_effect (state : State) (x : nat) : Z :=
  Z.lxor (column_parity state ((x + 4) mod 5))
         (Gadgets.rotl64 (column_parity state ((x + 1) mod 5)) 1).

(** The value of a sequence of bytes read with the first byte as the least
    significant one. *)
Fixpoint little_endian (bytes : list Z) : Z :=
  match bytes with
  | [] => 0
  | b :: t => b + 256 * little_endian t
  end.

(** [l'] is [l] with further events in front, each of which holds for the
    values the witnesses carry. *)
Inductive honest_extension (l : list Event) : list Event -> Prop :=
| extension_done : honest_extension l l
| extension_step (e : Event) (l' : list Event) :
    holds e = true -> honest_extension l l' -> honest_extension l (e :: l').

(** The padding of [p] bytes that starts with [first], in the words of the
    comments of [padNist] and [pad101]: "0x06 0x00 ... 0x00 0x80 or 0x86"
    and "0x01 0x00 ... 0x00 0x80 or 0x81". *)
Definition padding_bytes (first : Z) (p : nat) : list Z :=
  match p with
  | O => []
  | 1%nat => [first + 0x80]
  | S (S n) => first :: repeat 0 n ++ [0x80]
  end.

(** A run whose digest, when there is one, is reversed. *)
Definition reversed (run : Result (list Field) * Circuit)
  : Result (list Field) * Circuit :=
  match run with
  | (Ok digest, c) => (Ok (rev digest), c)
  | (Throw e, c) => (Throw e, c)
  end.

(** The walk of the rho step in the comment above [piRho]: it starts at
    (1, 0) and goes from (x, y) to (y, 2x + 3y mod 5); step [t] rotates
    by (t + 1)(t + 2) / 2 mod 64. *)
Fixpoint rho_position (t : nat) : nat * nat :=
  match t with
  | O => (1, 0)%nat
  | S t' =>
      let '(x, y) := rho_position t' in (y, (2 * x + 3 * y) mod 5)%nat
  end.

(** Two states whose lanes hold the same values. *)
Definition same_values (s s' : State) : Prop :=
  forall x y, (x < 5)%nat -> (y < 5)%nat ->
    toBigInt (lane s x y) = toBigInt (lane s' x y).

(** The field elements that the circuit range-checks to 8 bits, the latest
    check first. *)
Definition range_checked (l : list Event) : list Field :=
  flat_map (fun e => match e with RangeCheck8 a => [a] | _ => [] end) l.

(** ** Witnesses and the constraints that follow them *)

(** The event is a constraint that mentions variable [id]: an equality
    assertion or a range check on an expression that contains it, or a
    gate that takes it as an operand. *)
Definition constrains (id : nat) (e : Event) : bool :=
  asserts_or_range_checks id e || gate_operand id e.

(** The event declares no witness with [exists] or [existsOne]. *)
Definition quiet (e : Event) : bool :=
  match e with
  | Witness ByExists _ | Witness ByExistsOne _ => false
  | _ => true
  end.

(** [l'] is [l] with further events in front, none of which declares a
    witness with [exists] or [existsOne]. *)
Inductive quiet_extension (l : list Event) : list Event -> Prop :=
| quiet_done : quiet_extension l l
| quiet_step (e : Event) (l' : list Event) :
    quiet e = true -> quiet_extension l l' -> quiet_extension l (e :: l').

(** The log [l], read from its latest event back, after the events
    [newer]: when the declaration of a witness is reached, a later
    event is a gate with the witness as an operand (for [exists]) or an
    equality assertion or range check that mentions it (for
    [existsOne]). *)
Fixpoint constrained_when_declared (newer l : list Event) : bool :=
  match l with
  | [] => true
  | e :: t =>
      match e with
      | Witness ByExists id => existsb (gate_operand id) newer
      | Witness ByExistsOne id => existsb (asserts_or_range_checks id) newer
      | _ => true
      end
      && constrained_when_declared (e :: newer) t
  end.

(** The variables of [fresh] witnesses declared in a row from [n] on. *)
Fixpoint fresh_vars (n : nat) (values : list Z) : list Field :=
  match values with
  | [] => []
  | v :: t => Var n v :: fresh_vars (S n) t
  end.

(** * Properties *)

(** ** Generic facts about the circuit monad and JavaScript arrays *)

Section MonadFacts.

Context {A B : Type}.

Lemma bind_ok (m : M A) (k : A -> M B) c a c' :
  m c = (Ok a, c') -> bind m k c = k a c'.
Proof. intros H. unfold bind. now rewrite H. Qed.

Lemma bind_throw (m : M A) (k : A -> M B) c e c' :
  m c = (Throw e, c') -> bind m k c = (Throw e, c').
Proof. intros H. unfold bind. now rewrite H. Qed.

Lemma bind_ret_r (m : M A) c : bind m ret c = m c.
Proof. unfold bind, ret. destruct (m c) as [[a|e] c']; reflexivity. Qed.

Lemma mapM_length (f : A -> M B) l : forall c bs c',
  mapM f l c = (Ok bs, c') -> length bs = length l.
Proof.
  induction l as [|a t IH]; simpl; intros c bs c' H.
  - inversion H. reflexivity.
  - unfold bind in H. destruct (f a c) as [[b|e] c1]; [|discriminate].
    destruct (mapM f t c1) as [[bs'|e] c2] eqn:E; [|discriminate].
    inversion H; subst. simpl. f_equal. eauto.
Qed.

End MonadFacts.

Lemma set_length {A} (a : list A) : forall i v,
  (i < length a)%nat -> length (JS.set a i v) = length a.
Proof.
  induction a as [|h t IH]; simpl; intros i v Hi; [lia|].
  destruct i; simpl; [reflexivity|]. f_equal. apply IH. lia.
Qed.

Lemma set_nth_error_same {A} (a : list A) : forall i v,
  (i < length a)%nat -> nth_error (JS.set a i v) i = Some v.
Proof.
  induction a as [|h t IH]; simpl; intros i v Hi; [lia|].
  destruct i; simpl; [reflexivity|]. apply IH. lia.
Qed.

Lemma set_nth_error_other {A} (a : list A) : forall i j v,
  i <> j -> (i < length a)%nat ->
  nth_error (JS.set a i v) j = nth_error a j.
Proof.
  induction a as [|h t IH]; simpl; intros i j v Hij Hi; [lia|].
  destruct i, j; simpl; try reflexivity; try congruence.
  apply IH; lia.
Qed.

Lemma bind_ext {A B} (m : M A) (k k' : A -> M B) (c : Circuit) :
  (forall a c', k a c' = k' a c') -> bind m k c = bind m k' c.
Proof.
  intros H. unfold bind. destruct (m c) as [[a|e] c']; [apply H|reflexivity].
Qed.

(** A loop whose body cannot fail does not fail. *)
Lemma foldM_ok {A S} (f : S -> A -> M S) (l : list A) :
  (forall a s c, In a l -> exists s' c', f s a c = (Ok s', c')) ->
  forall s c, exists s' c', foldM f l s c = (Ok s', c').
Proof.
  induction l as [|a t IH]; intros Hf s c; cbn [foldM].
  - now exists s, c.
  - destruct (Hf a s c (or_introl eq_refl)) as [s1 [c1 H1]].
    rewrite (bind_ok _ _ _ _ _ H1).
    apply IH. intros a' s' c' Hin. apply Hf. now right.
Qed.

Lemma get_ok {A} (a : list A) (i : nat) (d : A) (c : Circuit) :
  (i < length a)%nat -> get a i c = (Ok (nth i a d), c).
Proof.
  intros Hi. unfold get.
  rewrite (nth_error_nth' a d Hi). reflexivity.
Qed.

Lemma slice_prefix {A} (a : list A) (stop : Z) :
  0 <= stop -> JS.slice a 0 stop = firstn (Z.to_nat stop) a.
Proof.
  intros Hstop. unfold JS.slice, JS.clamp.
  destruct (Z.ltb_spec stop 0); [lia|]. cbn [Z.ltb Z.compare].
  rewrite (Z.min_l 0) by lia. rewrite Z.sub_0_r. cbn [Z.to_nat skipn].
  destruct (Z.min_spec stop (Z.of_nat (length a))) as [[Hlt ->]|[Hge ->]].
  - reflexivity.
  - rewrite Nat2Z.id. rewrite firstn_all.
    symmetry. apply firstn_all2. lia.
Qed.

Lemma Array_fill_ok {A} (n : Z) (v : A) (c : Circuit) :
  0 <= n <= JS.MAX_ARRAY_LENGTH ->
  Array_fill (JS.Int n) v c = (Ok (repeat v (Z.to_nat n)), c).
Proof.
  intros Hn. unfold Array_fill.
  replace ((0 <=? n) && (n <=? JS.MAX_ARRAY_LENGTH)) with true;
    [reflexivity|].
  symmetry. apply andb_true_iff. split; apply Z.leb_le; lia.
Qed.

Lemma Array_fill_invalid {A} (n : JS.number) (v : A) (c : Circuit) :
  n = JS.NaN \/ (exists p, n = JS.Int p /\ p < 0) ->
  Array_fill n v c = (Throw (JS.RangeError "Invalid array length"), c).
Proof.
  intros [->|[p [-> Hp]]]; unfold Array_fill, throw; [reflexivity|].
  destruct (Z.leb_spec 0 p); [lia|reflexivity].
Qed.

(** ** Padding *)

Section Padding.

Variable rate : Z.
Hypothesis rate_byte : 8 <= rate.

Let k := rate / 8.

Lemma rate_bytes_pos : 1 <= k.
Proof. subst k. apply Z.div_le_lower_bound; lia. Qed.

Lemma bytesToPad_value (len : Z) :
  0 <= len ->
  bytesToPad rate len = JS.Int (k - len mod k) /\ 1 <= k - len mod k <= k.
Proof.
  intros Hlen. pose proof rate_bytes_pos as Hk.
  assert (Hm : 0 <= len mod k < k) by (apply Z.mod_pos_bound; lia).
  split; [|lia].
  unfold bytesToPad, JS.rem, JS.sub. fold k.
  destruct (Z.eqb_spec k 0); [lia|].
  now rewrite Z.rem_mod_nonneg by lia.
Qed.

Lemma bytesToPad_aligned (len : Z) :
  0 <= len -> (8 | rate) -> ((len + (k - len mod k)) * 8) mod rate = 0.
Proof.
  intros Hlen [q Hq]. pose proof rate_bytes_pos as Hk.
  assert (Hr : rate = k * 8).
  { subst k. rewrite Hq. now rewrite Z.div_mul by lia. }
  rewrite Hr.
  replace ((len + (k - len mod k)) * 8) with ((len / k + 1) * (k * 8)).
  - apply Z_mod_mult.
  - pose proof (Z.div_mod len k ltac:(lia)). nia.
Qed.

(** What the body shared by [padNist] and [pad101] returns: the message,
    then [first], zeros, and [0x80] added to the last padding byte. *)
Lemma pad_body_ok (first : Z) (message : list Field) (c : Circuit) :
  k <= JS.MAX_ARRAY_LENGTH ->
  let extraBytes := bytesToPad rate (Z.of_nat (length message)) in
  exists pad,
    (pad0 <- Array_fill extraBytes (from 0) ;;
     let pad1 := JS.set pad0 0 (from first) in
     lastByte <- get_at pad1 (JS.sub extraBytes (JS.Int 1)) ;;
     let pad2 :=
       set_at pad1 (JS.sub extraBytes (JS.Int 1)) (Add lastByte (from (2 ^ 7)))
     in ret (message ++ pad2)) c = (Ok (message ++ pad), c) /\
    extraBytes = JS.Int (Z.of_nat (length pad)).
Proof.
  intros Hmax extraBytes.
  destruct (bytesToPad_value (Z.of_nat (length message)) ltac:(lia))
    as [Hp Hrange].
  subst extraBytes. rewrite Hp.
  set (p := k - Z.of_nat (length message) mod k) in *.
  unfold Array_fill.
  replace ((0 <=? p) && (p <=? JS.MAX_ARRAY_LENGTH)) with true
    by (symmetry; apply andb_true_iff; split; apply Z.leb_le; lia).
  unfold bind at 1. unfold ret at 1.
  set (pad1 := JS.set (repeat (from 0) (Z.to_nat p)) 0 (from first)).
  assert (Hlen : length pad1 = Z.to_nat p).
  { subst pad1. rewrite set_length; rewrite repeat_length; lia. }
  unfold JS.sub, get_at, set_at.
  destruct (Z.ltb_spec (p - 1) 0); [lia|].
  unfold get.
  destruct (nth_error pad1 (Z.to_nat (p - 1))) as [lastByte|] eqn:E.
  - unfold bind, ret. eexists. split; [reflexivity|].
    rewrite set_length by lia. rewrite Hlen. f_equal. lia.
  - apply nth_error_None in E. lia.
Qed.

Lemma padNist_ok (message : list Field) (c : Circuit) :
  k <= JS.MAX_ARRAY_LENGTH ->
  exists pad,
    padNist message rate c = (Ok (message ++ pad), c) /\
    bytesToPad rate (Z.of_nat (length message))
    = JS.Int (Z.of_nat (length pad)).
Proof. intros H. exact (pad_body_ok 6 message c H). Qed.

Lemma pad101_ok (message : list Field) (c : Circuit) :
  k <= JS.MAX_ARRAY_LENGTH ->
  exists pad,
    pad101 message rate c = (Ok (message ++ pad), c) /\
    bytesToPad rate (Z.of_nat (length message))
    = JS.Int (Z.of_nat (length pad)).
Proof. intros H. exact (pad_body_ok 1 message c H). Qed.

End Padding.

(** Below one byte of rate the allocation of the padding array fails. *)
Lemma bytesToPad_small (rate len : Z) :
  rate < 8 -> 0 <= len ->
  bytesToPad rate len = JS.NaN \/
  exists p, bytesToPad rate len = JS.Int p /\ p < 0.
Proof.
  intros Hr Hlen. unfold bytesToPad, JS.rem, JS.sub.
  destruct (Z.eqb_spec (rate / 8) 0) as [E|E]; [now left|right].
  assert (rate / 8 < 0).
  { assert (rate / 8 < 1) by (apply Z.div_lt_upper_bound; lia). lia. }
  eexists. split; [reflexivity|].
  pose proof (Z.rem_nonneg len (rate / 8) ltac:(lia) Hlen). lia.
Qed.

(** C5, as amended: for a rate that is a positive multiple of 8 (and whose
    byte count is a valid array length), [bytesToPad] asks for at least one
    padding byte, and [padNist] and [pad101] both return the message followed
    by that many bytes, so the padded bit length is a multiple of the rate. *)
Theorem padding_aligns_to_rate (message : list Field) (rate : Z)
        (c : Circuit) :
  0 < rate -> (8 | rate) -> rate / 8 <= JS.MAX_ARRAY_LENGTH ->
  exists padLength : Z,
    bytesToPad rate (Z.of_nat (length message)) = JS.Int padLength /\
    1 <= padLength /\
    ((Z.of_nat (length message) + padLength) * 8) mod rate = 0 /\
    (exists padded,
        padNist message rate c = (Ok padded, c) /\
        Z.of_nat (length padded) = Z.of_nat (length message) + padLength /\
        (Z.of_nat (length padded) * 8) mod rate = 0) /\
    (exists padded,
        pad101 message rate c = (Ok padded, c) /\
        Z.of_nat (length padded) = Z.of_nat (length message) + padLength /\
        (Z.of_nat (length padded) * 8) mod rate = 0).
Proof.
  intros Hpos Hdiv Hmax.
  assert (H8 : 8 <= rate) by (destruct Hdiv as [q ->]; lia).
  destruct (bytesToPad_value rate H8 (Z.of_nat (length message)) ltac:(lia))
    as [Hp Hrange].
  pose proof (bytesToPad_aligned rate H8 (Z.of_nat (length message))
                                 ltac:(lia) Hdiv) as Hal.
  eexists. split; [exact Hp|]. split; [lia|]. split; [exact Hal|].
  split.
  - destruct (padNist_ok rate H8 message c Hmax) as [pad [Hrun Hlen]].
    rewrite Hp in Hlen. injection Hlen as Hlen.
    exists (message ++ pad). split; [exact Hrun|].
    rewrite length_app, Nat2Z.inj_add, <- Hlen. split; [reflexivity|exact Hal].
  - destruct (pad101_ok rate H8 message c Hmax) as [pad [Hrun Hlen]].
    rewrite Hp in Hlen. injection Hlen as Hlen.
    exists (message ++ pad). split; [exact Hrun|].
    rewrite length_app, Nat2Z.inj_add, <- Hlen. split; [reflexivity|exact Hal].
Qed.

Lemma padding_aligns_to_rate_witness :
  exists padLength : Z,
    bytesToPad 1088 0 = JS.Int padLength /\
    1 <= padLength /\
    ((0 + padLength) * 8) mod 1088 = 0 /\
    (exists padded,
        padNist [] 1088 empty = (Ok padded, empty) /\
        Z.of_nat (length padded) = 0 + padLength /\
        (Z.of_nat (length padded) * 8) mod 1088 = 0) /\
    (exists padded,
        pad101 [] 1088 empty = (Ok padded, empty) /\
        Z.of_nat (length padded) = 0 + padLength /\
        (Z.of_nat (length padded) * 8) mod 1088 = 0).
Proof.
  apply (padding_aligns_to_rate [] 1088 empty).
  - lia.
  - exists 136. reflexivity.
  - vm_compute. discriminate.
Defined.

(** C5, as stated, fails at rate 12 with the empty message: one padding
    byte is computed and appended, and 8 bits are not a multiple of 12. *)
Lemma padding_misaligned_at_rate_12 :
  bytesToPad 12 0 = JS.Int 1 /\
  ((0 + 1) * 8) mod 12 <> 0 /\
  exists padded,
    padNist [] 12 empty = (Ok padded, empty) /\
    (Z.of_nat (length padded) * 8) mod 12 <> 0.
Proof.
  split; [reflexivity|]. split; [discriminate|].
  eexists. split; [reflexivity|]. discriminate.
Qed.

(** C6, as amended: neither padding scheme validates the rate.  Below 8
    the padding array cannot be allocated and both raise a [RangeError];
    from 8 on both succeed, whether or not the rate is a multiple of 8. *)
Theorem padding_fails_only_below_one_byte (message : list Field) (rate : Z)
        (c : Circuit) :
  (rate < 8 ->
   padNist message rate c = (Throw (JS.RangeError "Invalid array length"), c)
   /\
   pad101 message rate c = (Throw (JS.RangeError "Invalid array length"), c))
  /\
  (8 <= rate -> rate / 8 <= JS.MAX_ARRAY_LENGTH ->
   exists pad1 pad2,
     padNist message rate c = (Ok (message ++ pad1), c) /\
     pad101 message rate c = (Ok (message ++ pad2), c)).
Proof.
  split.
  - intros Hr.
    pose proof (bytesToPad_small rate (Z.of_nat (length message)) Hr
                                 ltac:(lia)) as Hbad.
    split; unfold padNist, pad101;
      (erewrite bind_throw; [reflexivity|]);
      now apply Array_fill_invalid.
  - intros H8 Hmax.
    destruct (padNist_ok rate H8 message c Hmax) as [pad1 [H1 _]].
    destruct (pad101_ok rate H8 message c Hmax) as [pad2 [H2 _]].
    now exists pad1, pad2.
Qed.

Lemma padding_fails_only_below_one_byte_witness :
  (padNist [] 4 empty = (Throw (JS.RangeError "Invalid array length"), empty)
   /\
   pad101 [] 4 empty = (Throw (JS.RangeError "Invalid array length"), empty))
  /\
  (exists pad1 pad2,
     padNist [] 12 empty = (Ok ([] ++ pad1), empty) /\
     pad101 [] 12 empty = (Ok ([] ++ pad2), empty)).
Proof.
  split.
  - apply (proj1 (padding_fails_only_below_one_byte [] 4 empty)). lia.
  - apply (proj2 (padding_fails_only_below_one_byte [] 12 empty)).
    + lia.
    + vm_compute. discriminate.
Defined.

(** C6, as stated, fails at rate 12, which is not a multiple of 8: both
    schemes return a padded message instead of failing. *)
Lemma padding_accepts_rate_12 :
  12 mod 8 <> 0 /\
  padNist [] 12 empty = (Ok [Add (from 6) (from 128)], empty) /\
  pad101 [] 12 empty = (Ok [Add (from 1) (from 128)], empty).
Proof. split; [discriminate|]. split; reflexivity. Qed.

(** A capacity that is not a multiple of 8 gives a rate that is not one
    either.  The padding accepts it; [sponge] rejects it, by its check of
    the padded length or, when that passes, in [absorb], which cannot
    allocate [capacity / 8] zero bytes. *)
Lemma sponge_rejects_misaligned_capacity (paddedMessage : list Field)
      (length capacity rate : Z) (c : Circuit) :
  capacity mod 8 <> 0 ->
  exists e c', sponge paddedMessage length capacity rate c = (Throw e, c').
Proof.
  intros Hcap. unfold sponge.
  destruct (JS.rem _ _) as [[|p|p]|];
    [|eexists; eexists; reflexivity ..].
  unfold bind at 1.
  destruct (exists_ 24 ROUND_CONSTANTS c) as [[rc|e] c1];
    [|eexists; eexists; reflexivity].
  unfold bind at 1. unfold absorb.
  destruct (Z.eqb_spec (capacity mod 8) 0) as [E|_]; [contradiction|].
  unfold bind at 1, throw at 1.
  eexists; eexists; reflexivity.
Qed.

(** X20: [hash] fails for every capacity that is not a multiple of 8,
    whatever the other arguments. *)
Lemma hash_rejects_misaligned_capacity
      (inpEndian outEndian : Endian) (byteChecks : bool)
      (message : list Field) (length capacity : Z) (nistVersion : bool)
      (c : Circuit) :
  capacity mod 8 <> 0 ->
  exists e c',
    hash inpEndian outEndian byteChecks message length capacity nistVersion c
    = (Throw e, c').
Proof.
  intros Hcap. unfold hash.
  set (rate := KECCAK_STATE_LENGTH - capacity).
  set (messageFormatted :=
         match inpEndian with Big => message | Little => rev message end).
  do 4 (unfold bind at 1;
        match goal with
        | |- context [assert ?b ?msg c] =>
            destruct b; unfold assert at 1; cbv iota;
            [unfold ret at 1|eexists; eexists; reflexivity]
        end).
  unfold bind at 1.
  destruct ((if byteChecks then checkBytes messageFormatted else ret tt) c)
    as [[[]|e] c1]; [|eexists; eexists; reflexivity].
  unfold bind at 1.
  destruct ((if nistVersion then padNist messageFormatted rate
             else pad101 messageFormatted rate) c1)
    as [[padded|e] c2]; [|eexists; eexists; reflexivity].
  destruct (sponge_rejects_misaligned_capacity padded length capacity rate
                                               c2 Hcap) as (e & c3 & H).
  rewrite (bind_throw _ _ _ _ _ H). now exists e, c3.
Qed.

(** ** Hash facade *)

(** C7: an invalid capacity (zero, negative, 1600 or more) or an invalid
    output length (zero, negative, not a multiple of 8) makes [hash] raise a
    configuration error, and the circuit is then exactly as it was before
    the call: nothing was declared or constrained. *)
Theorem hash_rejects_invalid_configuration
        (inpEndian outEndian : Endian) (byteChecks : bool)
        (message : list Field) (length capacity : Z) (nistVersion : bool)
        (c : Circuit) :
  capacity <= 0 \/ 1600 <= capacity \/ length <= 0 \/ ~ (8 | length) ->
  exists msg,
    hash inpEndian outEndian byteChecks message length capacity nistVersion c
    = (Throw (JS.ConfigurationError msg), c).
Proof.
  intros Hbad. unfold hash.
  change KECCAK_STATE_LENGTH with 1600.
  unfold assert at 1.
  destruct (Z.gtb_spec capacity 0) as [Hc0|Hc0];
    [|eexists; reflexivity].
  unfold bind at 1, ret at 1. unfold assert at 1.
  destruct (Z.ltb_spec capacity 1600) as [Hc1|Hc1];
    [|eexists; reflexivity].
  unfold bind at 1, ret at 1. unfold assert at 1.
  destruct (Z.gtb_spec length 0) as [Hl0|Hl0];
    [|eexists; reflexivity].
  unfold bind at 1, ret at 1. unfold assert at 1.
  destruct (Z.eqb_spec (Z.rem length 8) 0) as [Hl8|Hl8];
    [|eexists; reflexivity].
  exfalso. destruct Hbad as [H|[H|[H|H]]]; try lia.
  apply H. apply Z.rem_divide; [lia|exact Hl8].
Qed.

Lemma hash_rejects_invalid_configuration_witness :
  exists msg,
    hash Big Big false [] 256 1600 false empty
    = (Throw (JS.ConfigurationError msg), empty).
Proof.
  apply (hash_rejects_invalid_configuration Big Big false [] 256 1600 false
                                            empty).
  right. left. lia.
Defined.

(** C8: [preNist] with length 256 is [ethereum] on the same message and
    flags. *)
Theorem preNist_256_is_ethereum
        (message : list Field) (inpEndian outEndian : Endian)
        (byteChecks : bool) (c : Circuit) :
  preNist 256 message inpEndian outEndian byteChecks c
  = ethereum inpEndian outEndian byteChecks message c.
Proof. reflexivity. Qed.

(** ** State codec *)

(** A well-formed state is a matrix of 25 lanes. *)
Lemma well_formed_inv (state : State) :
  well_formed state ->
  exists a0 a1 a2 a3 a4 b0 b1 b2 b3 b4 c0 c1 c2 c3 c4
         d0 d1 d2 d3 d4 e0 e1 e2 e3 e4,
    state = [ [a0; a1; a2; a3; a4]; [b0; b1; b2; b3; b4];
              [c0; c1; c2; c3; c4]; [d0; d1; d2; d3; d4];
              [e0; e1; e2; e3; e4] ].
Proof.
  intros [Hlen Hrows].
  do 5 (destruct state as [|? state]; [discriminate Hlen|]).
  destruct state; [|discriminate Hlen].
  repeat match goal with
         | H : Forall _ (_ :: _) |- _ =>
             apply Forall_cons_iff in H; destruct H as [? H]
         end.
  repeat match goal with
         | H : length ?l = KECCAK_DIM |- _ =>
             do 5 (destruct l as [|? l]; [discriminate H|]);
             destruct l; [clear H|discriminate H]
         end.
  repeat eexists.
Qed.

Lemma get2_ok (state : State) (x y : nat) (c : Circuit) :
  well_formed state -> (x < KECCAK_DIM)%nat -> (y < KECCAK_DIM)%nat ->
  get2 state x y c = (Ok (lane state x y), c).
Proof.
  intros [Hlen Hrows] Hx Hy. unfold get2, lane.
  rewrite (bind_ok _ _ _ _ _ (get_ok state x [] c ltac:(lia))).
  apply get_ok.
  rewrite Forall_forall in Hrows. rewrite (Hrows (nth x state [])); [lia|].
  apply nth_In. lia.
Qed.

Lemma mapM_existsOne (compute : nat -> M Z) (value : nat -> Z)
      (l : list nat) :
  (forall i c, In i l -> compute i c = (Ok (value i), c)) ->
  forall c, exists bytes c',
      mapM (fun i => existsOne (compute i)) l c = (Ok bytes, c') /\
      map toBigInt bytes = map value l.
Proof.
  induction l as [|i t IH]; intros Hc c; cbn [mapM].
  - now exists [], c.
  - unfold existsOne at 1.
    unfold bind at 1. unfold bind at 1.
    rewrite (Hc i c (or_introl eq_refl)).
    unfold fresh at 1.
    destruct (IH (fun j c' Hj => Hc j c' (or_intror Hj))
                 (mkCircuit (S (next_var c))
                            (Witness ByExistsOne (next_var c) :: log c)))
      as [bytes [c' [Hrun Hval]]].
    rewrite (bind_ok _ _ _ _ _ Hrun). unfold ret.
    eexists. eexists. split; [reflexivity|].
    cbn [map toBigInt]. now rewrite Hval.
Qed.

(** On a well-formed state [keccakStateToBytes] returns 200 bytes, the
    byte at [idx] holding bits [8z .. 8z+7] of its lane. *)
Lemma keccakStateToBytes_values (state : State) (c : Circuit) :
  well_formed state ->
  exists bytes c',
    keccakStateToBytes state c = (Ok bytes, c') /\
    map toBigInt bytes = map (byte_value state) (seq 0 200).
Proof.
  intros Hwf. unfold keccakStateToBytes.
  change (Z.to_nat (KECCAK_STATE_LENGTH / 8)) with 200%nat.
  match goal with
  | |- context [mapM (fun idx => existsOne (@?compute idx)) _] =>
      destruct (mapM_existsOne compute (byte_value state) (seq 0 200))
        with (c := c) as [bytes [c1 [Hrun Hval]]]
  end.
  { intros idx c0 Hin. apply in_seq in Hin.
    erewrite bind_ok.
    2:{ apply get2_ok; [exact Hwf| |].
        - apply Nat.mod_upper_bound. discriminate.
        - apply Nat.Div0.div_lt_upper_bound.
          apply Nat.Div0.div_lt_upper_bound.
          change (KECCAK_DIM * (BYTES_PER_WORD * 1))%nat with 40%nat.
          change (BYTES_PER_WORD * (KECCAK_DIM * KECCAK_DIM))%nat
            with 200%nat. lia. }
    reflexivity. }
  rewrite (bind_ok _ _ _ _ _ Hrun).
  match goal with
  | |- context [for_range ?n ?body tt] =>
      destruct (foldM_ok (fun s i => body i s) (seq 0 n)) with (s := tt) (c := c1)
        as [u [c2 Hloop]]
  end.
  { intros y s c0 Hy. apply in_seq in Hy.
    apply foldM_ok. intros x s' c0' Hx. apply in_seq in Hx.
    erewrite bind_ok by (apply get2_ok; [exact Hwf|lia|lia]).
    eexists. eexists. reflexivity. }
  unfold for_range at 1.
  rewrite (bind_ok _ _ _ _ _ Hloop).
  exists bytes. eexists. split; [reflexivity|exact Hval].
Qed.

Lemma lane_of_bytes_value (b0 b1 b2 b3 b4 b5 b6 b7 : Field) :
  is_byte b0 -> is_byte b1 -> is_byte b2 -> is_byte b3 ->
  is_byte b4 -> is_byte b5 -> is_byte b6 -> is_byte b7 ->
  toBigInt (lane_of_bytes b0 b1 b2 b3 b4 b5 b6 b7)
  = toBigInt b0 + 256 * toBigInt b1 + 65536 * toBigInt b2
    + 16777216 * toBigInt b3 + 4294967296 * toBigInt b4
    + 1099511627776 * toBigInt b5 + 281474976710656 * toBigInt b6
    + 72057594037927936 * toBigInt b7.
Proof.
  unfold is_byte. intros H0 H1 H2 H3 H4 H5 H6 H7.
  unfold lane_of_bytes. cbn [toBigInt]. unfold ORDER.
  repeat match goal with
         | |- context [?x mod ?p] => rewrite (Z.mod_small x p) by lia
         end.
  lia.
Qed.

Lemma lane_of_bytes_byte (b0 b1 b2 b3 b4 b5 b6 b7 : Field) (z : nat) :
  is_byte b0 -> is_byte b1 -> is_byte b2 -> is_byte b3 ->
  is_byte b4 -> is_byte b5 -> is_byte b6 -> is_byte b7 ->
  (z < 8)%nat ->
  Z.land (Z.shiftr (toBigInt (lane_of_bytes b0 b1 b2 b3 b4 b5 b6 b7))
                   (8 * Z.of_nat z)) 0xff
  = toBigInt (nth z [b0; b1; b2; b3; b4; b5; b6; b7] (from 0)).
Proof.
  intros H0 H1 H2 H3 H4 H5 H6 H7 Hz.
  rewrite lane_of_bytes_value by assumption.
  unfold is_byte in *.
  change 0xff with (Z.ones 8). rewrite Z.land_ones by lia.
  rewrite Z.shiftr_div_pow2 by lia.
  do 8 (destruct z as [|z];
         [cbn [nth];
          match goal with
          | |- context [2 ^ (8 * Z.of_nat ?n)] =>
              let k := eval vm_compute in (2 ^ (8 * Z.of_nat n)) in
              change (2 ^ (8 * Z.of_nat n)) with k
          end;
          change (2 ^ 8) with 256;
          Z.div_mod_to_equations; lia|]).
  lia.
Qed.

Ltac lane_byte :=
  match goal with
  | |- Z.land
         (Z.shiftr
            (toBigInt
               (Add (Add (Add (Add (Add (Add (Add (Add
                 _ (Mul _ ?b0)) (Mul _ ?b1)) (Mul _ ?b2)) (Mul _ ?b3))
                 (Mul _ ?b4)) (Mul _ ?b5)) (Mul _ ?b6)) (Mul _ ?b7)))
            (8 * Z.of_nat ?z)) _ = _ =>
      exact (lane_of_bytes_byte b0 b1 b2 b3 b4 b5 b6 b7 z
               ltac:(assumption) ltac:(assumption) ltac:(assumption)
               ltac:(assumption) ltac:(assumption) ltac:(assumption)
               ltac:(assumption) ltac:(assumption) ltac:(lia))
  end.

(** C3: 200 bytes, converted to a state and back to bytes, come back with
    the values they had. *)
Theorem state_codec_roundtrip (b : list Field) (c : Circuit) :
  length b = 200%nat -> Forall is_byte b ->
  exists state bytes c',
    getKeccakStateOfBytes b c = (Ok state, c) /\
    keccakStateToBytes state c = (Ok bytes, c') /\
    map toBigInt bytes = map toBigInt b.
Proof.
  intros Hlen Hb.
  do 200 (destruct b as [|? b]; [discriminate Hlen|]).
  destruct b; [|discriminate Hlen]. clear Hlen.
  repeat match goal with
         | H : Forall _ (_ :: _) |- _ =>
             apply Forall_cons_iff in H; destruct H as [? H]
         end.
  match goal with
  | |- exists state bytes c', getKeccakStateOfBytes ?l c = _ /\ _ =>
      let r := eval vm_compute in (getKeccakStateOfBytes l c) in
      match r with
      | (Ok ?st, _) => exists st
      end
  end.
  match goal with
  | |- exists bytes c', _ /\ keccakStateToBytes ?st c = _ /\ _ =>
      destruct (keccakStateToBytes_values st c) as [bytes [c' [Hrun Hval]]];
        [split; [reflexivity|repeat constructor]|]
  end.
  exists bytes, c'. split; [vm_compute; reflexivity|].
  split; [exact Hrun|]. rewrite Hval. clear Hrun Hval.
  unfold byte_value.
  change BYTES_PER_WORD with 8%nat. change KECCAK_DIM with 5%nat.
  cbv [map seq lane nth Nat.modulo Nat.div Nat.divmod fst snd Nat.sub].
  repeat match goal with
         | |- _ :: _ = _ :: _ =>
             apply (f_equal2 (@cons Z)); [lane_byte|]
         end.
  reflexivity.
Qed.

Lemma state_codec_roundtrip_witness :
  exists state bytes c',
    getKeccakStateOfBytes (map from (repeat 171 200)) empty
    = (Ok state, empty) /\
    keccakStateToBytes state empty = (Ok bytes, c') /\
    map toBigInt bytes = map toBigInt (map from (repeat 171 200)).
Proof.
  apply (state_codec_roundtrip (map from (repeat 171 200)) empty).
  - reflexivity.
  - repeat (apply Forall_cons; [split; vm_compute; discriminate|]).
    apply Forall_nil.
Defined.

(** ** Permutation driver *)

Lemma round_is_round_steps (state : State) (rc : Field) (c : Circuit) :
  round state rc c = round_steps state rc c.
Proof.
  unfold round, round_steps, bind.
  destruct (theta state c) as [[stateE|e] c1]; [|reflexivity].
  destruct (piRho stateE c1) as [[stateB|e] c2]; [|reflexivity].
  destruct (chi stateB c2) as [[stateF|e] c3]; [|reflexivity].
  destruct (iota stateF rc c3) as [[stateD|e] c4]; reflexivity.
Qed.

Lemma permutation_from (rest : list Field) :
  forall (done : list Field) (state : State) (c : Circuit),
    permutation state rest c
    = rounds_from (length done) (length rest) (done ++ rest) state c.
Proof.
  induction rest as [|rc0 rest IH]; intros done state c; [reflexivity|].
  simpl. unfold permutation in *. simpl.
  rewrite nth_middle. unfold bind.
  rewrite round_is_round_steps.
  destruct (round_steps state rc0 c) as [[state'|e] c']; [|reflexivity].
  specialize (IH (done ++ [rc0]) state' c').
  rewrite length_app, Nat.add_1_r, <- app_assoc in IH. exact IH.
Qed.

(** C4: with the 24 round constants, the permutation driver is 24 rounds in
    sequence, round [i] with the [i]-th constant on the state round [i-1]
    returned, and one round is theta, rho/pi, chi, iota in that order. *)
Theorem permutation_is_24_rounds
        (state : State) (rc : list Field) (c : Circuit) :
  length rc = 24%nat ->
  Z.of_nat (length rc) = KECCAK_ROUNDS /\
  length ROUND_CONSTANTS = length rc /\
  permutation state rc c = rounds_from 0 24 rc state c.
Proof.
  intros Hlen. split; [rewrite Hlen; reflexivity|].
  split; [rewrite Hlen; reflexivity|].
  rewrite <- Hlen. exact (permutation_from rc [] state c).
Qed.

Lemma permutation_is_24_rounds_witness :
  Z.of_nat (length (map from ROUND_CONSTANTS)) = KECCAK_ROUNDS /\
  length ROUND_CONSTANTS = length (map from ROUND_CONSTANTS) /\
  permutation getKeccakStateZeros (map from ROUND_CONSTANTS) empty
  = rounds_from 0 24 (map from ROUND_CONSTANTS) getKeccakStateZeros empty.
Proof.
  apply (permutation_is_24_rounds getKeccakStateZeros
                                  (map from ROUND_CONSTANTS) empty).
  reflexivity.
Defined.

(** ** Well-formed states through the permutation *)

(** Each step of the round, run on a state of 25 unknown lanes. *)
Ltac run_on_lanes Hwf :=
  match type of Hwf with
  | well_formed ?state =>
      destruct (well_formed_inv state Hwf)
        as (a0 & a1 & a2 & a3 & a4 & b0 & b1 & b2 & b3 & b4 &
            c0 & c1 & c2 & c3 & c4 & d0 & d1 & d2 & d3 & d4 &
            e0 & e1 & e2 & e3 & e4 & ->);
      cbv [theta piRho chi iota Gadgets.xor Gadgets.and Gadgets.not
           Gadgets.rotate bind ret fresh emit throw mapM foldM mapiM
           mapiM_from get get2 set2 JS.set nth_error nth for_range seq
           reduce1 getKeccakStateZeros repeat KECCAK_DIM ROT_TABLE
           Nat.modulo Nat.div Nat.divmod Nat.add Nat.mul Nat.sub fst snd
           next_var log];
      eexists; eexists; split; [reflexivity|];
      split; [reflexivity|repeat constructor]
  end.

Lemma theta_ok (state : State) (c : Circuit) :
  well_formed state ->
  exists state' c', theta state c = (Ok state', c') /\ well_formed state'.
Proof. intros Hwf. run_on_lanes Hwf. Qed.

Lemma piRho_ok (state : State) (c : Circuit) :
  well_formed state ->
  exists state' c', piRho state c = (Ok state', c') /\ well_formed state'.
Proof. intros Hwf. run_on_lanes Hwf. Qed.

Lemma chi_ok (state : State) (c : Circuit) :
  well_formed state ->
  exists state' c', chi state c = (Ok state', c') /\ well_formed state'.
Proof. intros Hwf. run_on_lanes Hwf. Qed.

Lemma iota_ok (state : State) (rc : Field) (c : Circuit) :
  well_formed state ->
  exists state' c', iota state rc c = (Ok state', c') /\ well_formed state'.
Proof. intros Hwf. run_on_lanes Hwf. Qed.

Lemma round_ok (state : State) (rc : Field) (c : Circuit) :
  well_formed state ->
  exists state' c', round state rc c = (Ok state', c') /\ well_formed state'.
Proof.
  intros Hwf. unfold round.
  destruct (theta_ok state c Hwf) as (stateE & c1 & HE & HwfE).
  rewrite (bind_ok _ _ _ _ _ HE).
  destruct (piRho_ok stateE c1 HwfE) as (stateB & c2 & HB & HwfB).
  rewrite (bind_ok _ _ _ _ _ HB).
  destruct (chi_ok stateB c2 HwfB) as (stateF & c3 & HF & HwfF).
  rewrite (bind_ok _ _ _ _ _ HF).
  destruct (iota_ok stateF rc c3 HwfF) as (stateD & c4 & HD & HwfD).
  rewrite (bind_ok _ _ _ _ _ HD).
  now exists stateD, c4.
Qed.

(** The permutation of a well-formed state succeeds, whatever the round
    constants, and returns a well-formed state. *)
Lemma permutation_ok (rc : list Field) :
  forall (state : State) (c : Circuit),
    well_formed state ->
    exists state' c',
      permutation state rc c = (Ok state', c') /\ well_formed state'.
Proof.
  unfold permutation.
  induction rc as [|rc0 rc IH]; intros state c Hwf; cbn [foldM].
  - now exists state, c.
  - destruct (round_ok state rc0 c Hwf) as (state1 & c1 & H1 & Hwf1).
    rewrite (bind_ok _ _ _ _ _ H1). now apply IH.
Qed.

(** ** Squeeze *)

Lemma keccakStateToBytes_length (state : State) (c : Circuit) bytes c' :
  keccakStateToBytes state c = (Ok bytes, c') -> length bytes = 200%nat.
Proof.
  unfold keccakStateToBytes. intros H. unfold bind at 1 in H.
  match type of H with
  | context [mapM ?f ?l c] =>
      destruct (mapM f l c) as [[bs|e] c1] eqn:E; [|discriminate]
  end.
  apply mapM_length in E.
  unfold bind in H.
  match type of H with
  | context [for_range ?n ?f ?s c1] =>
      destruct (for_range n f s c1) as [[u|e] c2]; [|discriminate]
  end.
  inversion H; subst. exact E.
Qed.

(** [copy] of all of [bytestring] into [outputArray] from index [start]
    overwrites that stretch and nothing else. *)
Lemma copy_loop (bytestring output0 : list Field) (start : nat)
      (c : Circuit) :
  (start + length bytestring <= length output0)%nat ->
  forall (n i : nat) (outputArray : list Field),
    (i + n)%nat = length bytestring ->
    length outputArray = length output0 ->
    (forall j, nth_error outputArray j
               = if (start <=? j)%nat && (j <? start + i)%nat
                 then nth_error bytestring (j - start)
                 else nth_error output0 j) ->
    exists output,
      foldM (fun outputArray i =>
               match nth_error bytestring i with
               | Some byte =>
                   ret (JS.set outputArray
                               (Z.to_nat (Z.of_nat start + Z.of_nat i)) byte)
               | None =>
                   throw (JS.Unmodelled "undefined stored in the output array")
               end) (seq i n) outputArray c
      = (Ok output, c) /\
      length output = length output0 /\
      forall j, nth_error output j
                = if (start <=? j)%nat && (j <? start + length bytestring)%nat
                  then nth_error bytestring (j - start)
                  else nth_error output0 j.
Proof.
  intros Hfit.
  induction n as [|n IH]; intros i outputArray Hin Hlen Hpre;
    cbn [seq foldM].
  - exists outputArray. split; [reflexivity|]. split; [exact Hlen|].
    replace (length bytestring) with i by lia. exact Hpre.
  - destruct (nth_error bytestring i) as [byte|] eqn:E.
    2:{ apply nth_error_None in E. lia. }
    unfold bind at 1. unfold ret at 1. cbv beta iota.
    rewrite <- Nat2Z.inj_add, Nat2Z.id.
    apply IH.
    + lia.
    + rewrite set_length; lia.
    + intros j. destruct (Nat.eq_dec (start + i) j) as [<-|Hne].
      * rewrite set_nth_error_same by lia.
        replace ((start <=? start + i)%nat) with true
          by (symmetry; apply Nat.leb_le; lia).
        replace ((start + i <? start + S i)%nat) with true
          by (symmetry; apply Nat.ltb_lt; lia).
        cbn [andb]. replace (start + i - start)%nat with i by lia.
        now symmetry.
      * rewrite set_nth_error_other by lia. rewrite Hpre.
        replace ((j <? start + S i)%nat) with ((j <? start + i)%nat);
          [reflexivity|].
        destruct (Nat.ltb_spec j (start + i)), (Nat.ltb_spec j (start + S i));
          try reflexivity; lia.
Qed.

Lemma copy_at (bytestring outputArray : list Field) (start n : Z)
      (c : Circuit) :
  n = Z.of_nat (length bytestring) ->
  0 <= start ->
  (Z.to_nat start + length bytestring <= length outputArray)%nat ->
  copy bytestring outputArray start n c
  = (Ok (firstn (Z.to_nat start) outputArray ++ bytestring
         ++ skipn (Z.to_nat start + length bytestring) outputArray), c).
Proof.
  intros -> Hstart Hfit.
  assert (Hs : start = Z.of_nat (Z.to_nat start)) by lia.
  revert Hfit Hs. generalize (Z.to_nat start) as s.
  intros s Hfit ->.
  unfold copy, for_range. rewrite !Nat2Z.id.
  destruct (copy_loop bytestring outputArray s c Hfit
                      (length bytestring) 0%nat outputArray)
    as (output & Hrun & Hlen & Hnth).
  - reflexivity.
  - reflexivity.
  - intros j. rewrite Nat.add_0_r.
    destruct (Nat.leb_spec s j), (Nat.ltb_spec j s);
      cbn [andb]; try reflexivity; lia.
  - rewrite Hrun. f_equal. f_equal. apply nth_error_ext. intros j.
    rewrite Hnth.
    destruct (Nat.leb_spec s j) as [Hsj|Hsj]; cbn [andb].
    + rewrite nth_error_app2 by (rewrite firstn_length_le; lia).
      rewrite firstn_length_le by lia.
      destruct (Nat.ltb_spec j (s + length bytestring)) as [Hj|Hj].
      * now rewrite nth_error_app1 by lia.
      * rewrite nth_error_app2 by lia. rewrite nth_error_skipn.
        f_equal. lia.
    + rewrite nth_error_app1 by (rewrite firstn_length_le; lia).
      now rewrite nth_error_firstn, (proj2 (Nat.ltb_lt j s)) by lia.
Qed.

Lemma copy_all (bytestring outputArray : list Field) (n : Z)
      (c : Circuit) :
  n = Z.of_nat (length bytestring) ->
  length outputArray = length bytestring ->
  copy bytestring outputArray 0 n c = (Ok bytestring, c).
Proof.
  intros Hn Hlen. rewrite (copy_at _ _ _ _ _ Hn) by (simpl; lia).
  cbn [Z.to_nat firstn app Nat.add].
  rewrite skipn_all2 by lia. now rewrite app_nil_r.
Qed.

(** With an output shorter than the rate there is a single squeeze: the
    digest is a prefix of the byte decomposition of the state, and the
    permutation is not applied. *)
Lemma squeeze_single (state : State) (length rate : Z) (rc : list Field)
      (c : Circuit) :
  (8 | rate) -> 0 <= length < rate -> rate <= 1600 ->
  squeeze state length rate rc c
  = (bytestring <- keccakStateToBytes state ;;
     ret (firstn (Z.to_nat (length / 8)) bytestring)) c.
Proof.
  intros [q Hq] Hlen Hrate. unfold squeeze.
  assert (Hmod : rate mod 8 = 0) by (rewrite Hq; apply Z_mod_mult).
  rewrite Hmod. change (negb (0 =? 0)) with false. cbv iota.
  assert (Hdiv : rate / 8 = q) by (rewrite Hq; apply Z.div_mul; lia).
  rewrite Hdiv.
  replace (JS.add (JS.floor_div length rate) (JS.Int 1)) with (JS.Int 1).
  2:{ unfold JS.floor_div. destruct (Z.eqb_spec rate 0); [lia|].
      rewrite Z.div_small by lia. reflexivity. }
  change (JS.mul (JS.Int 1) (JS.Int q)) with (JS.Int (1 * q)).
  rewrite Z.mul_1_l.
  change (extra_squeezes (JS.Int 1)) with 0%nat.
  change (seq 1 0) with (@nil nat).
  erewrite bind_ok
    by (apply Array_fill_ok; unfold JS.MAX_ARRAY_LENGTH; lia).
  destruct (keccakStateToBytes state c) as [[bytestring|e] c1] eqn:E.
  2:{ now rewrite !(bind_throw _ _ _ _ _ E). }
  rewrite !(bind_ok _ _ _ _ _ E).
  apply keccakStateToBytes_length in E.
  rewrite slice_prefix by lia.
  assert (Hfl : List.length (firstn (Z.to_nat q) bytestring) = Z.to_nat q).
  { rewrite firstn_length_le; lia. }
  erewrite bind_ok.
  2:{ apply copy_all; [|rewrite repeat_length]; lia. }
  cbn [foldM]. unfold bind, ret. cbn [snd].
  rewrite slice_prefix by (apply Z.quot_pos; lia).
  rewrite Z.quot_div_nonneg by lia.
  rewrite firstn_firstn. rewrite Nat.min_l; [reflexivity|].
  apply Z2Nat.inj_le; try lia.
  - apply Z.div_pos; lia.
  - apply Z.div_le_upper_bound; lia.
Qed.

Lemma sponge_single (paddedMessage : list Field) (length capacity rate : Z)
      (c : Circuit) :
  (8 | rate) -> 0 <= length < rate -> rate <= 1600 ->
  sponge paddedMessage length capacity rate c
  = sponge_one_squeeze paddedMessage length capacity rate c.
Proof.
  intros Hdiv Hlen Hrate. unfold sponge, sponge_one_squeeze.
  destruct (JS.rem _ _) as [[| |]|]; try reflexivity.
  apply bind_ext. intros rc c1. apply bind_ext. intros state c2.
  rewrite bind_ret_r. now apply squeeze_single.
Qed.


(** ** The hash returns a digest *)

Lemma slice_length {A} (a : list A) (start stop : Z) :
  0 <= start <= stop -> stop <= Z.of_nat (length a) ->
  length (JS.slice a start stop) = Z.to_nat (stop - start).
Proof.
  intros Hs He. unfold JS.slice, JS.clamp.
  destruct (Z.ltb_spec start 0); [lia|].
  destruct (Z.ltb_spec stop 0); [lia|].
  rewrite !Z.min_l by lia.
  rewrite firstn_length_le; [reflexivity|].
  rewrite length_skipn. lia.
Qed.

Lemma getKeccakStateOfBytes_ok (bytestring : list Field) (c : Circuit) :
  length bytestring = 200%nat ->
  exists state,
    getKeccakStateOfBytes bytestring c = (Ok state, c) /\ well_formed state.
Proof.
  intros Hlen.
  do 200 (destruct bytestring as [|? bytestring]; [discriminate Hlen|]).
  destruct bytestring; [|discriminate Hlen]. clear Hlen.
  match goal with
  | |- exists state, getKeccakStateOfBytes ?l c = _ /\ _ =>
      let r := eval vm_compute in (getKeccakStateOfBytes l c) in
      match r with
      | (Ok ?st, _) => exists st
      end
  end.
  split; [vm_compute; reflexivity|].
  split; [reflexivity|repeat constructor].
Qed.

Lemma keccakStateXor_ok (a b : State) (c : Circuit) :
  well_formed a -> well_formed b ->
  exists state c',
    keccakStateXor a b c = (Ok state, c') /\ well_formed state.
Proof.
  intros Ha Hb.
  destruct (well_formed_inv a Ha)
    as (a0 & a1 & a2 & a3 & a4 & b0 & b1 & b2 & b3 & b4 &
        c0 & c1 & c2 & c3 & c4 & d0 & d1 & d2 & d3 & d4 &
        e0 & e1 & e2 & e3 & e4 & ->).
  destruct (well_formed_inv b Hb)
    as (p0 & p1 & p2 & p3 & p4 & q0 & q1 & q2 & q3 & q4 &
        r0 & r1 & r2 & r3 & r4 & s0 & s1 & s2 & s3 & s4 &
        t0 & t1 & t2 & t3 & t4 & ->).
  cbv [keccakStateXor assert Gadgets.xor bind ret fresh emit throw
       mapiM mapiM_from get get2 nth_error nth length Nat.eqb andb
       KECCAK_DIM next_var log].
  eexists; eexists; split; [reflexivity|].
  split; [reflexivity|repeat constructor].
Qed.

Lemma getKeccakStateZeros_well_formed : well_formed getKeccakStateZeros.
Proof. split; [reflexivity|repeat constructor]. Qed.

(** The loop of [absorb] over a padded message of whole blocks: every
    block fills the state, the fuel suffices. *)
Lemma absorb_loop_ok (paddedMessage zeros rc : list Field) (step : Z) :
  1 <= step ->
  (Z.to_nat step + length zeros = 200)%nat ->
  forall (blocks fuel : nat) (i : Z) (state : State) (c : Circuit),
    well_formed state ->
    0 <= i ->
    Z.of_nat (length paddedMessage) = i + Z.of_nat blocks * step ->
    (blocks <= fuel)%nat ->
    exists state' c',
      absorb_loop fuel paddedMessage zeros step rc i state c
      = (Ok state', c') /\ well_formed state'.
Proof.
  intros Hstep Hzeros.
  induction blocks as [|blocks IH]; intros fuel i state c Hwf Hi Hlen Hfuel.
  - exists state, c. split; [|exact Hwf].
    destruct fuel; cbn [absorb_loop];
      (destruct (Z.ltb_spec i (Z.of_nat (length paddedMessage))); [lia|]);
      reflexivity.
  - destruct fuel as [|fuel]; [lia|]. cbn [absorb_loop].
    destruct (Z.ltb_spec i (Z.of_nat (length paddedMessage))); [|nia].
    assert (Hblock : length (JS.slice paddedMessage i (i + step) ++ zeros)
                     = 200%nat).
    { rewrite length_app, slice_length by nia.
      replace (i + step - i) with step by lia. exact Hzeros. }
    rewrite Hblock. change (Z.of_nat 200 * 8 =? KECCAK_STATE_LENGTH) with true.
    unfold assert at 1. unfold bind at 1. unfold ret at 1.
    destruct (getKeccakStateOfBytes_ok _ c Hblock) as (blockState & Hb & Hwfb).
    rewrite (bind_ok _ _ _ _ _ Hb).
    destruct (keccakStateXor_ok state blockState c Hwf Hwfb)
      as (stateXor & c1 & Hx & Hwfx).
    rewrite (bind_ok _ _ _ _ _ Hx).
    destruct (permutation_ok rc stateXor c1 Hwfx)
      as (statePerm & c2 & Hp & Hwfp).
    rewrite (bind_ok _ _ _ _ _ Hp).
    apply IH; [exact Hwfp|lia|lia|lia].
Qed.

Lemma absorb_ok (paddedMessage rc : list Field) (capacity rate : Z)
      (c : Circuit) :
  0 < capacity -> (8 | capacity) -> rate = KECCAK_STATE_LENGTH - capacity ->
  0 < rate ->
  (Z.of_nat (length paddedMessage) * 8) mod rate = 0 ->
  exists state c',
    absorb paddedMessage capacity rate rc c = (Ok state, c') /\
    well_formed state.
Proof.
  intros Hcap [q Hq] Hrate Hpos Hmod. unfold absorb.
  change KECCAK_STATE_LENGTH with 1600 in Hrate.
  assert (Hcm : capacity mod 8 = 0) by (rewrite Hq; apply Z_mod_mult).
  assert (Hcd : capacity / 8 = q) by (rewrite Hq; apply Z.div_mul; lia).
  assert (Hr : rate = (200 - q) * 8) by lia.
  assert (Hrm : rate mod 8 = 0) by (rewrite Hr; apply Z_mod_mult).
  assert (Hrd : rate / 8 = 200 - q) by (rewrite Hr; apply Z.div_mul; lia).
  rewrite Hcm, Hrm, Hcd, Hrd. change (0 =? 0) with true. cbv iota.
  erewrite bind_ok
    by (apply Array_fill_ok; unfold JS.MAX_ARRAY_LENGTH; lia).
  destruct (Z.ltb_spec 0 rate); [|lia]. cbn [andb].
  apply Z.mod_divide in Hmod; [|lia]. destruct Hmod as [m Hm].
  assert (Hlen : Z.of_nat (length paddedMessage) = m * (200 - q)) by lia.
  assert (Hm0 : 0 <= m) by nia.
  apply absorb_loop_ok with (blocks := Z.to_nat m).
  - lia.
  - rewrite repeat_length. lia.
  - exact getKeccakStateZeros_well_formed.
  - lia.
  - lia.
  - apply Nat2Z.inj_le. rewrite Z2Nat.id, Hlen by lia.
    assert (1 <= 200 - q) by lia. nia.
Qed.

Lemma exists_ok (n : nat) (compute : list Z) (c : Circuit) :
  exists rc c', exists_ n compute c = (Ok rc, c').
Proof.
  unfold exists_. generalize (firstn n compute) as l. intros l. revert c.
  induction l as [|v l IH]; intros c; cbn [mapM].
  - now exists [], c.
  - unfold bind at 1, fresh at 1.
    destruct (IH (mkCircuit (S (next_var c))
                            (Witness ByExists (next_var c) :: log c)))
      as (rc & c' & H).
    rewrite (bind_ok _ _ _ _ _ H). eexists. eexists. reflexivity.
Qed.

Lemma checkBytes_ok (inputs : list Field) (c : Circuit) :
  exists c', checkBytes inputs c = (Ok tt, c').
Proof.
  unfold checkBytes.
  assert (H : exists units c',
             mapM Gadgets.rangeCheck8 inputs c = (Ok units, c')).
  { revert c. induction inputs as [|x inputs IH]; intros c; cbn [mapM].
    - now exists [], c.
    - unfold bind at 1, Gadgets.rangeCheck8 at 1, emit at 1.
      destruct (IH (mkCircuit (next_var c) (RangeCheck8 x :: log c)))
        as (units & c' & H).
      rewrite (bind_ok _ _ _ _ _ H). eexists. eexists. reflexivity. }
  destruct H as (units & c' & H).
  rewrite (bind_ok _ _ _ _ _ H). now exists c'.
Qed.

(** For a capacity that is a multiple of 8 and an output shorter than the
    rate, which covers the public variants, [hash] returns a digest of
    [length / 8] bytes on every message. *)
Lemma hash_returns_digest
      (inpEndian outEndian : Endian) (byteChecks : bool)
      (message : list Field) (length capacity : Z) (nistVersion : bool)
      (c : Circuit) :
  0 < capacity < 1600 -> (8 | capacity) ->
  0 < length < 1600 - capacity -> (8 | length) ->
  exists digest c',
    hash inpEndian outEndian byteChecks message length capacity nistVersion c
    = (Ok digest, c') /\
    Z.of_nat (List.length digest) = length / 8.
Proof.
  intros Hcap Hcap8 Hlen Hlen8. unfold hash.
  change KECCAK_STATE_LENGTH with 1600.
  set (rate := 1600 - capacity).
  set (messageFormatted :=
         match inpEndian with Big => message | Little => rev message end).
  assert (Hrate8 : (8 | rate)).
  { destruct Hcap8 as [q ->]. exists (200 - q). subst rate. lia. }
  replace (capacity >? 0) with true by (symmetry; apply Z.gtb_lt; lia).
  replace (capacity <? 1600) with true by (symmetry; apply Z.ltb_lt; lia).
  replace (length >? 0) with true by (symmetry; apply Z.gtb_lt; lia).
  replace (Z.rem length 8 =? 0) with true.
  2:{ symmetry. apply Z.eqb_eq. apply Z.rem_divide; [lia|exact Hlen8]. }
  unfold assert. do 4 (unfold bind at 1; unfold ret at 1).
  assert (Hchecks : exists c1,
             (if byteChecks then checkBytes messageFormatted else ret tt) c
             = (Ok tt, c1)).
  { destruct byteChecks; [apply checkBytes_ok|now exists c]. }
  destruct Hchecks as (c1 & Hchecks). rewrite (bind_ok _ _ _ _ _ Hchecks).
  assert (Hpad : exists pad,
             (if nistVersion then padNist messageFormatted rate
              else pad101 messageFormatted rate) c1
             = (Ok (messageFormatted ++ pad), c1) /\
             bytesToPad rate (Z.of_nat (List.length messageFormatted))
             = JS.Int (Z.of_nat (List.length pad))).
  { assert (H8 : 8 <= rate) by (destruct Hrate8 as [q Hq]; lia).
    assert (Hmax : rate / 8 <= JS.MAX_ARRAY_LENGTH).
    { unfold JS.MAX_ARRAY_LENGTH.
      apply Z.div_le_upper_bound; [lia|]. subst rate. lia. }
    destruct nistVersion;
      [apply padNist_ok|apply pad101_ok]; assumption. }
  destruct Hpad as (pad & Hpad & Hextra).
  rewrite (bind_ok _ _ _ _ _ Hpad).
  assert (Haligned : (Z.of_nat (List.length (messageFormatted ++ pad)) * 8)
                     mod rate = 0).
  { assert (H8 : 8 <= rate) by (destruct Hrate8 as [q Hq]; lia).
    destruct (bytesToPad_value rate H8
                (Z.of_nat (List.length messageFormatted)) ltac:(lia))
      as [Hp _].
    rewrite Hp in Hextra. injection Hextra as Hextra.
    rewrite length_app, Nat2Z.inj_add, <- Hextra.
    apply bytesToPad_aligned; [exact H8|lia|exact Hrate8]. }
  assert (Hsponge : exists bytes c4,
             sponge (messageFormatted ++ pad) length capacity rate c1
             = (Ok (firstn (Z.to_nat (length / 8)) bytes), c4) /\
             List.length bytes = 200%nat).
  { rewrite sponge_single by (try assumption; subst rate; lia).
    unfold sponge_one_squeeze, JS.rem.
    destruct (Z.eqb_spec rate 0); [subst rate; lia|].
    rewrite Z.rem_mod_nonneg, Haligned by (subst rate; lia).
    destruct (exists_ok 24 ROUND_CONSTANTS c1) as (rc & c2 & Hrc).
    rewrite (bind_ok _ _ _ _ _ Hrc).
    destruct (absorb_ok (messageFormatted ++ pad) rc capacity rate c2)
      as (state & c3 & Habs & Hwf);
      [lia|exact Hcap8|reflexivity|subst rate; lia|exact Haligned|].
    rewrite (bind_ok _ _ _ _ _ Habs).
    destruct (keccakStateToBytes_values state c3 Hwf)
      as (bytes & c4 & Hbytes & _).
    rewrite (bind_ok _ _ _ _ _ Hbytes).
    exists bytes, c4. split; [reflexivity|].
    exact (keccakStateToBytes_length _ _ _ _ Hbytes). }
  destruct Hsponge as (bytes & c4 & Hsponge & Hb200).
  rewrite (bind_ok _ _ _ _ _ Hsponge).
  destruct (checkBytes_ok (firstn (Z.to_nat (length / 8)) bytes) c4)
    as (c5 & Hcheck).
  rewrite (bind_ok _ _ _ _ _ Hcheck).
  eexists. eexists. split; [reflexivity|].
  assert (Hl : 0 <= length / 8 <= 200).
  { split; [apply Z.div_pos; lia|].
    apply Z.div_le_upper_bound; subst rate; lia. }
  destruct outEndian; rewrite ?length_rev, firstn_length_le; lia.
Qed.

(** X27: the public variants return [len / 8] bytes on every message. *)
Lemma public_variants_return_digest
      (len : Z) (message : list Field) (inpEndian outEndian : Endian)
      (byteChecks : bool) (c : Circuit) :
  In len [224; 256; 384; 512] ->
  (exists digest c',
      nistSha3 len message inpEndian outEndian byteChecks c = (Ok digest, c')
      /\ Z.of_nat (length digest) = len / 8) /\
  (exists digest c',
      preNist len message inpEndian outEndian byteChecks c = (Ok digest, c')
      /\ Z.of_nat (length digest) = len / 8) /\
  (exists digest c',
      ethereum inpEndian outEndian byteChecks message c = (Ok digest, c')
      /\ Z.of_nat (length digest) = 32).
Proof.
  intros Hin.
  assert (H224 : (8 | 224)) by (exists 28; reflexivity).
  assert (H256 : (8 | 256)) by (exists 32; reflexivity).
  assert (H384 : (8 | 384)) by (exists 48; reflexivity).
  assert (H448 : (8 | 448)) by (exists 56; reflexivity).
  assert (H512 : (8 | 512)) by (exists 64; reflexivity).
  assert (H768 : (8 | 768)) by (exists 96; reflexivity).
  assert (H1024 : (8 | 1024)) by (exists 128; reflexivity).
  split; [|split].
  - simpl in Hin. destruct Hin as [<-|[<-|[<-|[<-|[]]]]];
      apply hash_returns_digest; (assumption || lia).
  - simpl in Hin. destruct Hin as [<-|[<-|[<-|[<-|[]]]]];
      apply hash_returns_digest; (assumption || lia).
  - apply (hash_returns_digest inpEndian outEndian byteChecks message
                               256 512 false c); (assumption || lia).
Qed.

(** ** Squeezing more than one chunk *)

(** X21: what [squeeze] returns when the output needs two chunks: the
    second chunk is taken from [state], the state before the permutation,
    so it repeats the first. *)
Lemma squeeze_two_chunks (state : State) (length rate : Z)
      (rc : list Field) (c : Circuit) :
  well_formed state ->
  (8 | rate) -> 0 < rate <= 1600 -> rate <= length < 2 * rate ->
  let chunk :=
    firstn (Z.to_nat (rate / 8)) (map (byte_value state) (seq 0 200)) in
  exists digest c',
    squeeze state length rate rc c = (Ok digest, c') /\
    map toBigInt digest = firstn (Z.to_nat (length / 8)) (chunk ++ chunk).
Proof.
  intros Hwf [q Hq] Hrate Hlen chunk. unfold squeeze.
  assert (Hmod : rate mod 8 = 0) by (rewrite Hq; apply Z_mod_mult).
  rewrite Hmod. change (negb (0 =? 0)) with false. cbv iota.
  assert (Hdiv : rate / 8 = q) by (rewrite Hq; apply Z.div_mul; lia).
  subst chunk. rewrite Hdiv.
  replace (JS.add (JS.floor_div length rate) (JS.Int 1)) with (JS.Int 2).
  2:{ unfold JS.floor_div. destruct (Z.eqb_spec rate 0); [lia|].
      replace (length / rate) with 1; [reflexivity|].
      apply Z.div_unique with (r := length - rate); lia. }
  change (JS.mul (JS.Int 2) (JS.Int q)) with (JS.Int (2 * q)).
  change (extra_squeezes (JS.Int 2)) with 1%nat.
  change (seq 1 1) with [1%nat].
  erewrite bind_ok
    by (apply Array_fill_ok; unfold JS.MAX_ARRAY_LENGTH; lia).
  destruct (keccakStateToBytes_values state c Hwf)
    as (bytes1 & c1 & Hrun1 & Hval1).
  rewrite (bind_ok _ _ _ _ _ Hrun1).
  pose proof (keccakStateToBytes_length _ _ _ _ Hrun1) as Hlen1.
  rewrite slice_prefix by lia.
  set (n := Z.to_nat q).
  assert (HlenA : List.length (firstn n bytes1) = n)
    by (apply firstn_length_le; lia).
  erewrite bind_ok.
  2:{ apply copy_at; [lia|lia|rewrite HlenA, repeat_length; lia]. }
  replace (firstn (Z.to_nat 0) (repeat (from 0) (Z.to_nat (2 * q)))
           ++ firstn n bytes1
           ++ skipn (Z.to_nat 0 + List.length (firstn n bytes1))
                    (repeat (from 0) (Z.to_nat (2 * q))))
    with (firstn n bytes1 ++ repeat (from 0) n).
  2:{ change (Z.to_nat 0) with 0%nat. cbn [firstn app Nat.add].
      rewrite HlenA. f_equal.
      replace (Z.to_nat (2 * q)) with (n + n)%nat by lia.
      rewrite repeat_app, skipn_app, repeat_length, Nat.sub_diag.
      rewrite skipn_all2 by (rewrite repeat_length; lia).
      reflexivity. }
  cbn [foldM]. unfold bind at 1. unfold bind at 1.
  destruct (permutation_ok rc state c1 Hwf) as (state' & c2 & Hperm & _).
  rewrite (bind_ok _ _ _ _ _ Hperm).
  destruct (keccakStateToBytes_values state c2 Hwf)
    as (bytes2 & c3 & Hrun2 & Hval2).
  rewrite (bind_ok _ _ _ _ _ Hrun2).
  pose proof (keccakStateToBytes_length _ _ _ _ Hrun2) as Hlen2.
  rewrite slice_prefix by lia. fold n.
  assert (HlenB : List.length (firstn n bytes2) = n)
    by (apply firstn_length_le; lia).
  erewrite bind_ok.
  2:{ apply copy_at; [lia|lia|].
      rewrite length_app, HlenA, HlenB, repeat_length. lia. }
  replace (Z.to_nat (q * Z.of_nat 1)) with n by lia.
  rewrite firstn_app, HlenA, Nat.sub_diag, firstn_all2 by lia.
  cbn [firstn]. rewrite app_nil_r.
  rewrite skipn_all2 by (rewrite length_app, HlenA, HlenB, repeat_length; lia).
  rewrite app_nil_r.
  unfold ret. cbn [snd].
  eexists. eexists. split; [reflexivity|].
  rewrite slice_prefix by (apply Z.quot_pos; lia).
  rewrite Z.quot_div_nonneg by lia.
  rewrite <- firstn_map. f_equal.
  rewrite map_app, <- !firstn_map, Hval1, Hval2.
  reflexivity.
Qed.

(** C2 at a state and a length that need two chunks (rate 1088, 1096 bits
    of output, the all-zero state): [squeeze] takes the byte of the second
    chunk from the state it was given, not from the permuted state, so the
    last byte repeats byte 0 of the first chunk (0x00); taken from the
    permuted state, as the specification words it, it is 0xe7. *)
Theorem squeeze_second_chunk_repeats_first :
  let rc := map from ROUND_CONSTANTS in
  digest_values (squeeze getKeccakStateZeros 1096 1088 rc)
  = Some (repeat 0 137) /\
  digest_values (squeeze_as_specified getKeccakStateZeros 1096 1088 rc)
  = Some (repeat 0 136 ++ [0xe7]).
Proof. split; vm_compute; reflexivity. Qed.

(** ** Test vectors *)

(** C9, as amended: [ethereum] on the empty message, with big-endian input
    and output, returns the 32 bytes
    c5d2460186f7233c927e7db2dcc703c0e500b653ca82273b7bfad8045d85a470. *)
Theorem ethereum_empty_message_digest :
  exists digest,
    fst (ethereum Big Big false [] empty) = Ok digest /\
    length digest = 32%nat /\
    to_hex (map toBigInt digest)
    = "c5d2460186f7233c927e7db2dcc703c0e500b653ca82273b7bfad8045d85a470"%string.
Proof.
  eexists. split; [vm_compute; reflexivity|].
  split; vm_compute; reflexivity.
Qed.

(** C9, as stated, names 63 hexadecimal digits; the digest is not that
    string. *)
Lemma keccak256_of_empty_is_not_63_hex_digits :
  digest_hex (ethereum Big Big false [])
  <> Some "c5d2460186f7233c927e7db2dcc703c0e500b653ca82273b7bfad8045d85a47"%string.
Proof. vm_compute. discriminate. Qed.

(** ** Witnesses *)

Lemma sponge_with_honest_advice (paddedMessage : list Field)
      (length capacity rate : Z) :
  sponge_with_advice ROUND_CONSTANTS paddedMessage length capacity rate
  = sponge paddedMessage length capacity rate.
Proof. reflexivity. Qed.

Lemma padded_empty_message_is_pad101 :
  pad101 [] 1088 empty = (Ok padded_empty_message, empty).
Proof. vm_compute. reflexivity. Qed.


(** The whole effect of [keccakStateToBytes] on a well-formed state: 200
    declarations, then the 25 recomposition assertions. *)
Lemma keccakStateToBytes_run (state : State) (c : Circuit) :
  well_formed state ->
  let bytes := declared_bytes state (next_var c) in
  keccakStateToBytes state c
  = (Ok bytes,
     mkCircuit (200 + next_var c)
               (rev (map (recomposition state bytes) (seq 0 25))
                ++ rev (map (fun idx => Witness ByExistsOne (idx + next_var c))
                            (seq 0 200))
                ++ log c)).
Proof.
  intros Hwf.
  destruct (well_formed_inv state Hwf)
    as (a0 & a1 & a2 & a3 & a4 & b0 & b1 & b2 & b3 & b4 &
        c0 & c1 & c2 & c3 & c4 & d0 & d1 & d2 & d3 & d4 &
        e0 & e1 & e2 & e3 & e4 & ->).
  unfold keccakStateToBytes, declared_bytes, recomposition, byte_value.
  change (Z.to_nat (KECCAK_STATE_LENGTH / 8)) with 200%nat.
  change BYTES_PER_WORD with 8%nat. change KECCAK_DIM with 5%nat.
  cbv -[toBigInt Z.land Z.shiftr Z.mul Z.pow from].
  reflexivity.
Qed.

Lemma vars_compose_from_acc (v : nat) (wordBytes : list Field) :
  forall (i : nat) (acc : Field),
    In v (vars acc) -> In v (vars (compose_from i acc wordBytes)).
Proof.
  induction wordBytes as [|x t IH]; intros i acc Hacc; cbn [compose_from].
  - exact Hacc.
  - apply IH. cbn [vars]. apply in_or_app. now left.
Qed.

Lemma vars_compose_from (v : nat) (x : Field) (wordBytes : list Field) :
  In x wordBytes -> In v (vars x) ->
  forall (i : nat) (acc : Field),
    In v (vars (compose_from i acc wordBytes)).
Proof.
  induction wordBytes as [|y t IH]; intros Hx Hv i acc; [contradiction|].
  cbn [compose_from]. destruct Hx as [->|Hx].
  - apply vars_compose_from_acc. cbn [vars].
    apply in_or_app. right. apply in_or_app. now left.
  - now apply IH.
Qed.

Lemma lane_bytes_declared (state : State) (n k : nat) :
  (k < 25)%nat ->
  lane_bytes (declared_bytes state n) k
  = map (fun idx => Var (idx + n) (byte_value state idx)) (seq (8 * k) 8).
Proof.
  intros Hk. unfold lane_bytes, declared_bytes.
  rewrite skipn_map, firstn_map, skipn_seq. f_equal.
  replace (200 - 8 * k)%nat with (8 + (192 - 8 * k))%nat by lia.
  rewrite seq_app, firstn_app, length_seq, Nat.sub_diag.
  rewrite firstn_all2 by (rewrite length_seq; lia).
  cbn [firstn]. now rewrite app_nil_r.
Qed.

(** X10: every byte that [keccakStateToBytes] declares enters the
    recomposition of its lane, which is asserted equal to the lane after
    all bytes are declared. *)
Lemma keccakStateToBytes_constrains_bytes (state : State) (c : Circuit) :
  well_formed state ->
  exists bytes asserts declarations n',
    keccakStateToBytes state c
    = (Ok bytes, mkCircuit n' (asserts ++ declarations ++ log c)) /\
    declarations
    = rev (map (fun idx => Witness ByExistsOne (idx + next_var c))
               (seq 0 200)) /\
    forall idx,
      (idx < 200)%nat ->
      exists word composition,
        In (AssertEquals word composition) asserts /\
        In (idx + next_var c)%nat (vars composition).
Proof.
  intros Hwf. eexists. eexists. eexists. eexists.
  split; [exact (keccakStateToBytes_run state c Hwf)|].
  split; [reflexivity|]. intros idx Hidx.
  exists (lane state ((idx / 8) mod 5)%nat (idx / 8 / 5)%nat).
  eexists. split.
  - apply -> in_rev. apply in_map_iff. exists (idx / 8)%nat.
    split; [reflexivity|]. apply in_seq.
    split; [lia|]. cbn [Nat.add].
    apply Nat.Div0.div_lt_upper_bound. lia.
  - assert (Hk : (idx / 8 < 25)%nat)
      by (apply Nat.Div0.div_lt_upper_bound; lia).
    rewrite (lane_bytes_declared state (next_var c) (idx / 8) Hk).
    apply vars_compose_from
      with (x := Var (idx + next_var c)%nat (byte_value state idx)).
    + apply in_map_iff. exists idx. split; [reflexivity|].
      apply in_seq. pose proof (Nat.div_mod_eq idx 8).
      pose proof (Nat.mod_upper_bound idx 8 ltac:(discriminate)). lia.
    + now left.
Qed.

(** The one constraint that [iota] installs: an XOR gate on lane (0,0)
    and the round constant.  It is the only use the permutation makes of a
    round constant. *)
Lemma iota_constraint (state : State) (rc : Field) (c : Circuit) :
  well_formed state ->
  exists out state',
    iota state rc c
    = (Ok state',
       mkCircuit (S (next_var c))
                 (XorGate (lane state 0 0) rc out KECCAK_WORD
                  :: Witness ByGadget (next_var c) :: log c)) /\
    lane state' 0 0 = out.
Proof.
  intros Hwf.
  destruct (well_formed_inv state Hwf)
    as (a0 & a1 & a2 & a3 & a4 & b0 & b1 & b2 & b3 & b4 &
        c0 & c1 & c2 & c3 & c4 & d0 & d1 & d2 & d3 & d4 &
        e0 & e1 & e2 & e3 & e4 & ->).
  cbv [iota Gadgets.xor bind ret fresh emit get get2 set2 JS.set
       nth_error nth lane next_var log].
  eexists. eexists. split; reflexivity.
Qed.

(** X30: nothing ties a round-constant witness to its constant.  On the
    run of [ethereum] on the empty message the 24 variables that [sponge]
    declares with [exists] are variables 0 to 23; no equality assertion and
    no range check of the run mentions any of them, they only enter gates
    as operands, whereas the 200 bytes declared with [existsOne] are each
    mentioned by an equality assertion.  When the prover answers [exists]
    with 24 zeros, every constraint of the sponge still holds and the
    digest is a different one. *)
Theorem round_constant_witnesses_are_not_pinned :
  let c := snd (ethereum Big Big false [] empty) in
  let forged :=
    sponge_with_advice (repeat 0 24) padded_empty_message 256 512 1088 in
  declared_by ByExists c = seq 0 24 /\
  none_asserted c (declared_by ByExists c) = true /\
  all_gate_operands c (declared_by ByExists c) = true /\
  length (declared_by ByExistsOne c) = 200%nat /\
  all_asserted c (declared_by ByExistsOne c) = true /\
  satisfied c = true /\
  satisfied (snd (forged empty)) = true /\
  digest_hex forged
  = Some "29509847f7f4292f480391e54c8f8a8564bacf2799f6dd6ce65a1a29d436a613"%string /\
  digest_hex forged <> digest_hex (ethereum Big Big false []).
Proof.
  cbv zeta.
  repeat match goal with
         | |- _ /\ _ => split
         end;
    match goal with
    | |- _ = _ => vm_compute; reflexivity
    | |- _ <> _ => vm_compute; discriminate
    end.
Qed.

(** * Further properties of the code *)

Ltac conjuncts :=
  repeat match goal with
         | |- _ /\ _ => split
         end.

(** ** 64-bit words *)

Lemma word_bits (v : Z) :
  word v <-> 0 <= v /\ forall i, 64 <= i -> Z.testbit v i = false.
Proof.
  unfold word. split.
  - intros [H0 H1]. split; [exact H0|]. intros i Hi.
    destruct (Z.eq_dec v 0) as [->|Hv]; [apply Z.bits_0|].
    apply Z.bits_above_log2; [exact H0|].
    assert (Z.log2 v < 64) by (apply Z.log2_lt_pow2; lia). lia.
  - intros [H0 Hbits]. split; [exact H0|].
    replace v with (v mod 2 ^ 64); [apply Z.mod_pos_bound; lia|].
    apply Z.bits_inj'. intros i Hi.
    destruct (Z.lt_ge_cases i 64) as [Hlt|Hge].
    + apply Z.mod_pow2_bits_low. lia.
    + rewrite Z.mod_pow2_bits_high by lia. symmetry. now apply Hbits.
Qed.

Lemma word_lxor (a b : Z) : word a -> word b -> word (Z.lxor a b).
Proof.
  rewrite !word_bits. intros [Ha Hab] [Hb Hbb]. split.
  - apply Z.lxor_nonneg. tauto.
  - intros i Hi. rewrite Z.lxor_spec, Hab, Hbb by exact Hi. reflexivity.
Qed.

Lemma word_land (a b : Z) : word b -> word (Z.land a b).
Proof.
  rewrite !word_bits. intros [Hb Hbb]. split.
  - apply Z.land_nonneg. now right.
  - intros i Hi. rewrite Z.land_spec, Hbb by exact Hi. apply andb_false_r.
Qed.

Lemma word_lor (a b : Z) : word a -> word b -> word (Z.lor a b).
Proof.
  rewrite !word_bits. intros [Ha Hab] [Hb Hbb]. split.
  - apply Z.lor_nonneg. tauto.
  - intros i Hi. rewrite Z.lor_spec, Hab, Hbb by exact Hi. reflexivity.
Qed.

Lemma word_rotl64 (v bits : Z) :
  word v -> 0 <= bits <= 64 -> word (Gadgets.rotl64 v bits).
Proof.
  intros Hv Hbits. unfold Gadgets.rotl64. apply word_lor.
  - unfold word. apply Z.mod_pos_bound. lia.
  - unfold word in *. rewrite Z.shiftr_div_pow2 by lia. split.
    + apply Z.div_pos; [lia|]. apply Z.pow_pos_nonneg; lia.
    + apply Z.le_lt_trans with v; [|lia].
      apply Z.div_le_upper_bound; [apply Z.pow_pos_nonneg; lia|].
      assert (0 < 2 ^ (64 - bits)) by (apply Z.pow_pos_nonneg; lia).
      nia.
Qed.

(** On a 64-bit operand the complement that the unchecked NOT computes by
    subtraction from all ones agrees with the bitwise complement on the
    64 bits of a word. *)
Lemma word_complement (a b : Z) :
  word a -> word b ->
  word ((2 ^ 64 - 1 - a) mod ORDER) /\
  Z.land ((2 ^ 64 - 1 - a) mod ORDER) b = Z.land (Z.lnot a) b.
Proof.
  intros Ha Hb. unfold word in Ha.
  assert (Hsmall : (2 ^ 64 - 1 - a) mod ORDER = 2 ^ 64 - 1 - a).
  { apply Z.mod_small. unfold ORDER. lia. }
  rewrite Hsmall. split; [unfold word; lia|].
  apply word_bits in Hb. destruct Hb as [Hb0 Hbb].
  apply Z.bits_inj'. intros i Hi. rewrite !Z.land_spec.
  destruct (Z.lt_ge_cases i 64) as [Hlt|Hge].
  - f_equal.
    replace (2 ^ 64 - 1 - a) with (Z.lnot a + 1 * 2 ^ 64)
      by (unfold Z.lnot; lia).
    rewrite <- (Z.mod_pow2_bits_low (Z.lnot a + 1 * 2 ^ 64) 64 i) by lia.
    rewrite Z.mod_add by lia. apply Z.mod_pow2_bits_low. lia.
  - rewrite Hbb by lia. now rewrite !andb_false_r.
Qed.

Lemma word_fits (v : Z) : word v -> fits 64 v = true.
Proof.
  unfold word, fits. intros [H0 H1]. apply andb_true_iff.
  split; [apply Z.leb_le|apply Z.ltb_lt]; assumption.
Qed.

Lemma word_not (a : Field) :
  word (toBigInt a) -> word (toBigInt (Sub (from (2 ^ KECCAK_WORD - 1)) a)).
Proof.
  intros Ha. cbn [toBigInt from].
  change ((2 ^ KECCAK_WORD - 1) mod ORDER) with (2 ^ 64 - 1).
  apply (word_complement (toBigInt a) 0 Ha). unfold word. lia.
Qed.

(** ** Constraints that hold *)

Lemma holds_xor (a b : Field) (n : nat) :
  word (toBigInt a) -> word (toBigInt b) ->
  holds (XorGate a b (Var n (Z.lxor (toBigInt a) (toBigInt b))) 64) = true.
Proof.
  intros Ha Hb. cbn [holds toBigInt].
  rewrite (word_fits _ Ha), (word_fits _ Hb), Z.eqb_refl. reflexivity.
Qed.

Lemma holds_and (a b : Field) (n : nat) :
  word (toBigInt a) -> word (toBigInt b) ->
  holds (AndGate a b (Var n (Z.land (toBigInt a) (toBigInt b))) 64) = true.
Proof.
  intros Ha Hb. cbn [holds toBigInt].
  rewrite (word_fits _ Ha), (word_fits _ Hb), Z.eqb_refl. reflexivity.
Qed.

Lemma holds_rotate (a : Field) (bits : Z) (n : nat) :
  word (toBigInt a) ->
  holds (RotGate a bits (Var n (Gadgets.rotl64 (toBigInt a) bits))) = true.
Proof.
  intros Ha. cbn [holds toBigInt].
  rewrite (word_fits _ Ha), Z.eqb_refl. reflexivity.
Qed.

Lemma extension_trans (l l' l'' : list Event) :
  honest_extension l l' -> honest_extension l' l'' -> honest_extension l l''.
Proof.
  intros H1 H2. induction H2 as [|e m He Hm IH]; [exact H1|].
  apply extension_step; assumption.
Qed.

Lemma extension_incl (l l' : list Event) :
  honest_extension l l' -> incl l l'.
Proof.
  intros H. induction H as [|e m He Hm IH]; [apply incl_refl|].
  now apply incl_tl.
Qed.

Lemma extension_app (added l : list Event) :
  forallb holds added = true -> honest_extension l (added ++ l).
Proof.
  induction added as [|e added IH]; cbn [forallb app]; intros H.
  - apply extension_done.
  - apply andb_true_iff in H. destruct H as [He H].
    apply extension_step; [exact He|now apply IH].
Qed.

Lemma extension_satisfied (c c' : Circuit) :
  honest_extension (log c) (log c') ->
  satisfied c = true -> satisfied c' = true.
Proof.
  unfold satisfied. generalize (log c) (log c'). intros l l' H Hl.
  induction H as [|e m He Hm IH]; [exact Hl|].
  cbn [forallb]. now rewrite He, IH.
Qed.

(** ** The steps of a round, lane by lane *)

(** The lanes of a well-formed state, named. *)
Ltac name_lanes Hwf :=
  match type of Hwf with
  | well_formed ?state =>
      destruct (well_formed_inv state Hwf)
        as (a0 & a1 & a2 & a3 & a4 & b0 & b1 & b2 & b3 & b4 &
            c0 & c1 & c2 & c3 & c4 & d0 & d1 & d2 & d3 & d4 &
            e0 & e1 & e2 & e3 & e4 & ->)
  end.

(** Run a step on named lanes, leaving the values of the lanes alone. *)
Ltac run_step :=
  cbv [theta piRho chi iota keccakStateXor assert Gadgets.xor Gadgets.and
       Gadgets.not Gadgets.rotate bind ret fresh emit throw mapM foldM
       mapiM mapiM_from get get2 set2 JS.set nth_error nth for_range seq
       reduce1 getKeccakStateZeros repeat KECCAK_DIM ROT_TABLE length
       Nat.eqb andb Nat.modulo Nat.div Nat.divmod Nat.add Nat.mul Nat.sub
       fst snd next_var log].

Ltac split_words H :=
  unfold words in H;
  repeat match goal with
         | H : Forall _ (_ :: _) |- _ =>
             apply Forall_cons_iff in H; destruct H as [? H]
         end.

Ltac solve_word :=
  lazymatch goal with
  | |- word (toBigInt (Var _ ?v)) => change (word v); solve_word
  | |- word (toBigInt (Sub _ _)) => apply word_not; solve_word
  | |- word (Z.lxor _ _) => apply word_lxor; solve_word
  | |- word (Z.land _ _) => apply word_land; solve_word
  | |- word (Gadgets.rotl64 _ _) => apply word_rotl64; [solve_word|lia]
  | |- word (toBigInt _) => assumption
  end.

Ltac solve_holds :=
  lazymatch goal with
  | |- holds (Witness _ _) = true => reflexivity
  | |- holds (XorGate _ _ _ _) = true => apply holds_xor; solve_word
  | |- holds (AndGate _ _ _ _) = true => apply holds_and; solve_word
  | |- holds (RotGate _ _ _) = true => apply holds_rotate; solve_word
  end.

Ltac extends_honestly :=
  cbn [log];
  repeat (apply extension_step; [solve_holds|]);
  apply extension_done.

Ltac each_lane x y :=
  destruct x as [|[|[|[|[|?]]]]]; [ | | | | |exfalso; lia];
  (destruct y as [|[|[|[|[|?]]]]]; [ | | | | |exfalso; lia]).

Ltac keeps_log :=
  cbn [log]; repeat apply incl_tl; apply incl_refl.

Lemma theta_step (state : State) (c : Circuit) :
  well_formed state ->
  exists state' c',
    theta state c = (Ok state', c') /\
    well_formed state' /\
    (words state -> words state') /\
    incl (log c) (log c') /\
    (words state -> honest_extension (log c) (log c')) /\
    forall x y, (x < 5)%nat -> (y < 5)%nat ->
      toBigInt (lane state' x y)
      = Z.lxor (toBigInt (lane state x y)) (theta_effect state x).
Proof.
  intros Hwf. name_lanes Hwf. run_step.
  eexists. eexists. split; [reflexivity|].
  split; [split; [reflexivity|repeat constructor]|].
  split.
  { intros Hw. split_words Hw. unfold words.
    repeat (apply Forall_cons || apply Forall_nil); solve_word. }
  split; [keeps_log|].
  split; [intros Hw; split_words Hw; extends_honestly|].
  intros x y Hx Hy. each_lane x y;
    cbv [lane nth theta_effect column_parity Nat.modulo Nat.divmod Nat.add
         Nat.sub fst snd];
    cbn [toBigInt]; reflexivity.
Qed.

Lemma piRho_step (state : State) (c : Circuit) :
  well_formed state ->
  exists state' c',
    piRho state c = (Ok state', c') /\
    well_formed state' /\
    (words state -> words state') /\
    incl (log c) (log c') /\
    (words state -> honest_extension (log c) (log c')) /\
    (forall x y, (x < 5)%nat -> (y < 5)%nat ->
       toBigInt (lane state' y ((2 * x + 3 * y) mod 5))
       = Gadgets.rotl64 (toBigInt (lane state x y))
                        (nth y (nth x ROT_TABLE []) 0)) /\
    (forall x' y', (x' < 5)%nat -> (y' < 5)%nat ->
       exists x y, (x < 5)%nat /\ (y < 5)%nat /\
                   x' = y /\ y' = ((2 * x + 3 * y) mod 5)%nat).
Proof.
  intros Hwf. name_lanes Hwf. run_step.
  eexists. eexists. split; [reflexivity|].
  split; [split; [reflexivity|repeat constructor]|].
  split.
  { intros Hw. split_words Hw. unfold words.
    repeat (apply Forall_cons || apply Forall_nil); solve_word. }
  split; [keeps_log|].
  split; [intros Hw; split_words Hw; extends_honestly|].
  split.
  - intros x y Hx Hy. each_lane x y;
      cbv [lane nth ROT_TABLE Nat.modulo Nat.divmod Nat.add Nat.mul Nat.sub
           fst snd];
      cbn [toBigInt]; reflexivity.
  - intros x' y' Hx Hy.
    exists ((3 * y' + x') mod 5)%nat, x'.
    each_lane x' y'; cbv; repeat split; lia.
Qed.

Lemma chi_step (state : State) (c : Circuit) :
  well_formed state ->
  exists state' c',
    chi state c = (Ok state', c') /\
    well_formed state' /\
    (words state -> words state') /\
    incl (log c) (log c') /\
    (words state -> honest_extension (log c) (log c')) /\
    (words state ->
     forall x y, (x < 5)%nat -> (y < 5)%nat ->
       toBigInt (lane state' x y)
       = Z.lxor (toBigInt (lane state x y))
                (Z.land (Z.lnot (toBigInt (lane state ((x + 1) mod 5) y)))
                        (toBigInt (lane state ((x + 2) mod 5) y)))).
Proof.
  intros Hwf. name_lanes Hwf. run_step.
  eexists. eexists. split; [reflexivity|].
  split; [split; [reflexivity|repeat constructor]|].
  split.
  { intros Hw. split_words Hw. unfold words.
    repeat (apply Forall_cons || apply Forall_nil); solve_word. }
  split; [keeps_log|].
  split; [intros Hw; split_words Hw; extends_honestly|].
  intros Hw x y Hx Hy. split_words Hw.
  each_lane x y;
    cbv [lane nth Nat.modulo Nat.divmod Nat.add Nat.sub fst snd];
    cbn [toBigInt from];
    change ((2 ^ KECCAK_WORD - 1) mod ORDER) with (2 ^ 64 - 1);
    f_equal; apply word_complement; assumption.
Qed.

Lemma iota_step (state : State) (rc : Field) (c : Circuit) :
  well_formed state ->
  exists state' out,
    iota state rc c
    = (Ok state',
       mkCircuit (S (next_var c))
                 (XorGate (lane state 0 0) rc out KECCAK_WORD
                  :: Witness ByGadget (next_var c) :: log c)) /\
    well_formed state' /\
    (words state -> word (toBigInt rc) -> words state') /\
    (words state -> word (toBigInt rc) -> holds (XorGate (lane state 0 0) rc out KECCAK_WORD) = true) /\
    toBigInt (lane state' 0 0)
    = Z.lxor (toBigInt (lane state 0 0)) (toBigInt rc) /\
    forall x y, (x < 5)%nat -> (y < 5)%nat -> (x, y) <> (0, 0)%nat ->
      lane state' x y = lane state x y.
Proof.
  intros Hwf. name_lanes Hwf. run_step.
  eexists. eexists. split; [reflexivity|].
  split; [split; [reflexivity|repeat constructor]|].
  split.
  { intros Hw Hrc. split_words Hw. unfold words.
    repeat (apply Forall_cons || apply Forall_nil); solve_word. }
  split; [intros Hw Hrc; split_words Hw; cbv [lane nth]; solve_holds|].
  split; [reflexivity|].
  intros x y Hx Hy Hxy. each_lane x y; try reflexivity.
  now contradiction Hxy.
Qed.

Lemma keccakStateXor_step (a b : State) (c : Circuit) :
  well_formed a -> well_formed b ->
  exists state' c',
    keccakStateXor a b c = (Ok state', c') /\
    well_formed state' /\
    (words a -> words b -> words state') /\
    incl (log c) (log c') /\
    (words a -> words b -> honest_extension (log c) (log c')) /\
    forall x y, (x < 5)%nat -> (y < 5)%nat ->
      toBigInt (lane state' x y)
      = Z.lxor (toBigInt (lane a x y)) (toBigInt (lane b x y)).
Proof.
  intros Ha Hb.
  destruct (well_formed_inv a Ha)
    as (a0 & a1 & a2 & a3 & a4 & b0 & b1 & b2 & b3 & b4 &
        c0 & c1 & c2 & c3 & c4 & d0 & d1 & d2 & d3 & d4 &
        e0 & e1 & e2 & e3 & e4 & ->).
  destruct (well_formed_inv b Hb)
    as (p0 & p1 & p2 & p3 & p4 & q0 & q1 & q2 & q3 & q4 &
        r0 & r1 & r2 & r3 & r4 & s0 & s1 & s2 & s3 & s4 &
        t0 & t1 & t2 & t3 & t4 & ->).
  run_step.
  eexists. eexists. split; [reflexivity|].
  split; [split; [reflexivity|repeat constructor]|].
  split.
  { intros Hwa Hwb. split_words Hwa. split_words Hwb. unfold words.
    repeat (apply Forall_cons || apply Forall_nil); solve_word. }
  split; [keeps_log|].
  split; [intros Hwa Hwb; split_words Hwa; split_words Hwb;
          extends_honestly|].
  intros x y Hx Hy. each_lane x y;
    cbv [lane nth]; cbn [toBigInt]; reflexivity.
Qed.

(** X1: [theta] on a state of 5 x 5 lanes of 64 bits returns the state
    [E[x,y] = A[x,y] xor D[x]] with [D[x] = C[x-1] xor ROT(C[x+1], 1)] and
    [C[x]] the XOR of column [x]; the lanes have 64 bits and the gates
    added hold. *)
Theorem theta_lanes (state : State) (c : Circuit) :
  well_formed state -> words state ->
  exists state' c',
    theta state c = (Ok state', c') /\
    well_formed state' /\ words state' /\
    honest_extension (log c) (log c') /\
    forall x y, (x < 5)%nat -> (y < 5)%nat ->
      toBigInt (lane state' x y)
      = Z.lxor (toBigInt (lane state x y)) (theta_effect state x).
Proof.
  intros Hwf Hw.
  destruct (theta_step state c Hwf)
    as (state' & c' & Hrun & Hwf' & Hw' & _ & Hh & Hlanes).
  exists state', c'. conjuncts; auto.
Qed.

Lemma theta_lanes_witness :
  exists state' c',
    theta getKeccakStateZeros empty = (Ok state', c') /\
    well_formed state' /\ words state' /\
    honest_extension (log empty) (log c') /\
    forall x y, (x < 5)%nat -> (y < 5)%nat ->
      toBigInt (lane state' x y)
      = Z.lxor (toBigInt (lane getKeccakStateZeros x y))
               (theta_effect getKeccakStateZeros x).
Proof.
  apply (theta_lanes getKeccakStateZeros empty).
  - split; [reflexivity|repeat constructor].
  - repeat (apply Forall_cons || apply Forall_nil);
      (vm_compute; split; [discriminate|reflexivity]).
Defined.

(** X2: [piRho] on a state of 5 x 5 lanes of 64 bits writes to lane
    [(y, 2x + 3y mod 5)] the lane [(x, y)] rotated left by
    [ROT_TABLE[x][y]], and every lane of the result is written this way;
    the lanes have 64 bits and the gates added hold. *)
Theorem piRho_lanes (state : State) (c : Circuit) :
  well_formed state -> words state ->
  exists state' c',
    piRho state c = (Ok state', c') /\
    well_formed state' /\ words state' /\
    honest_extension (log c) (log c') /\
    (forall x y, (x < 5)%nat -> (y < 5)%nat ->
       toBigInt (lane state' y ((2 * x + 3 * y) mod 5))
       = Gadgets.rotl64 (toBigInt (lane state x y))
                        (nth y (nth x ROT_TABLE []) 0)) /\
    (forall x' y', (x' < 5)%nat -> (y' < 5)%nat ->
       exists x y, (x < 5)%nat /\ (y < 5)%nat /\
                   x' = y /\ y' = ((2 * x + 3 * y) mod 5)%nat).
Proof.
  intros Hwf Hw.
  destruct (piRho_step state c Hwf)
    as (state' & c' & Hrun & Hwf' & Hw' & _ & Hh & Hlanes & Hall).
  exists state', c'. conjuncts; auto.
Qed.

Lemma piRho_lanes_witness :
  exists state' c',
    piRho getKeccakStateZeros empty = (Ok state', c') /\
    well_formed state' /\ words state' /\
    honest_extension (log empty) (log c') /\
    (forall x y, (x < 5)%nat -> (y < 5)%nat ->
       toBigInt (lane state' y ((2 * x + 3 * y) mod 5))
       = Gadgets.rotl64 (toBigInt (lane getKeccakStateZeros x y))
                        (nth y (nth x ROT_TABLE []) 0)) /\
    (forall x' y', (x' < 5)%nat -> (y' < 5)%nat ->
       exists x y, (x < 5)%nat /\ (y < 5)%nat /\
                   x' = y /\ y' = ((2 * x + 3 * y) mod 5)%nat).
Proof.
  apply (piRho_lanes getKeccakStateZeros empty).
  - split; [reflexivity|repeat constructor].
  - repeat (apply Forall_cons || apply Forall_nil);
      (vm_compute; split; [discriminate|reflexivity]).
Defined.

(** X3: [chi] on a state of 5 x 5 lanes of 64 bits returns
    [F[x,y] = B[x,y] xor ((not B[x+1,y]) and B[x+2,y])]: on 64-bit lanes
    the unchecked NOT, a subtraction from all ones in the field, agrees
    with the bitwise complement under the AND.  The lanes have 64 bits and
    the gates added hold. *)
Theorem chi_lanes (state : State) (c : Circuit) :
  well_formed state -> words state ->
  exists state' c',
    chi state c = (Ok state', c') /\
    well_formed state' /\ words state' /\
    honest_extension (log c) (log c') /\
    forall x y, (x < 5)%nat -> (y < 5)%nat ->
      toBigInt (lane state' x y)
      = Z.lxor (toBigInt (lane state x y))
               (Z.land (Z.lnot (toBigInt (lane state ((x + 1) mod 5) y)))
                       (toBigInt (lane state ((x + 2) mod 5) y))).
Proof.
  intros Hwf Hw.
  destruct (chi_step state c Hwf)
    as (state' & c' & Hrun & Hwf' & Hw' & _ & Hh & Hlanes).
  exists state', c'. conjuncts; auto.
Qed.

Lemma chi_lanes_witness :
  exists state' c',
    chi getKeccakStateZeros empty = (Ok state', c') /\
    well_formed state' /\ words state' /\
    honest_extension (log empty) (log c') /\
    forall x y, (x < 5)%nat -> (y < 5)%nat ->
      toBigInt (lane state' x y)
      = Z.lxor (toBigInt (lane getKeccakStateZeros x y))
               (Z.land
                  (Z.lnot (toBigInt (lane getKeccakStateZeros
                                          ((x + 1) mod 5) y)))
                  (toBigInt (lane getKeccakStateZeros ((x + 2) mod 5) y))).
Proof.
  apply (chi_lanes getKeccakStateZeros empty).
  - split; [reflexivity|repeat constructor].
  - repeat (apply Forall_cons || apply Forall_nil);
      (vm_compute; split; [discriminate|reflexivity]).
Defined.

(** X4: [iota] XORs the round constant into lane (0,0) with one gate and
    leaves the other 24 lanes as they are; with 64-bit lanes and a 64-bit
    round constant the lanes have 64 bits and the gate holds. *)
Theorem iota_lanes (state : State) (rc : Field) (c : Circuit) :
  well_formed state -> words state -> word (toBigInt rc) ->
  exists state' out,
    iota state rc c
    = (Ok state',
       mkCircuit (S (next_var c))
                 (XorGate (lane state 0 0) rc out KECCAK_WORD
                  :: Witness ByGadget (next_var c) :: log c)) /\
    well_formed state' /\ words state' /\
    holds (XorGate (lane state 0 0) rc out KECCAK_WORD) = true /\
    toBigInt (lane state' 0 0)
    = Z.lxor (toBigInt (lane state 0 0)) (toBigInt rc) /\
    forall x y, (x < 5)%nat -> (y < 5)%nat -> (x, y) <> (0, 0)%nat ->
      lane state' x y = lane state x y.
Proof.
  intros Hwf Hw Hrc.
  destruct (iota_step state rc c Hwf)
    as (state' & out & Hrun & Hwf' & Hw' & Hh & H00 & Hrest).
  exists state', out. conjuncts; auto.
Qed.

Lemma iota_lanes_witness :
  exists state' out,
    iota getKeccakStateZeros (from 0x8000000080008008) empty
    = (Ok state',
       mkCircuit (S (next_var empty))
                 (XorGate (lane getKeccakStateZeros 0 0)
                          (from 0x8000000080008008) out KECCAK_WORD
                  :: Witness ByGadget (next_var empty) :: log empty)) /\
    well_formed state' /\ words state' /\
    holds (XorGate (lane getKeccakStateZeros 0 0)
                   (from 0x8000000080008008) out KECCAK_WORD) = true /\
    toBigInt (lane state' 0 0)
    = Z.lxor (toBigInt (lane getKeccakStateZeros 0 0))
             (toBigInt (from 0x8000000080008008)) /\
    forall x y, (x < 5)%nat -> (y < 5)%nat -> (x, y) <> (0, 0)%nat ->
      lane state' x y = lane getKeccakStateZeros x y.
Proof.
  apply (iota_lanes getKeccakStateZeros (from 0x8000000080008008) empty).
  - split; [reflexivity|repeat constructor].
  - repeat (apply Forall_cons || apply Forall_nil);
      (vm_compute; split; [discriminate|reflexivity]).
  - vm_compute. split; [discriminate|reflexivity].
Defined.

(** ** The permutation keeps the shape and the width of the state *)

Lemma round_keeps (state : State) (rc : Field) (c : Circuit) :
  well_formed state ->
  exists state' c',
    round state rc c = (Ok state', c') /\
    well_formed state' /\
    incl (log c) (log c') /\
    (words state -> word (toBigInt rc) ->
     words state' /\ honest_extension (log c) (log c')).
Proof.
  intros Hwf. unfold round.
  destruct (theta_step state c Hwf)
    as (stateE & c1 & HE & HwfE & HwE & HlE & HhE & _).
  rewrite (bind_ok _ _ _ _ _ HE).
  destruct (piRho_step stateE c1 HwfE)
    as (stateB & c2 & HB & HwfB & HwB & HlB & HhB & _).
  rewrite (bind_ok _ _ _ _ _ HB).
  destruct (chi_step stateB c2 HwfB)
    as (stateF & c3 & HF & HwfF & HwF & HlF & HhF & _).
  rewrite (bind_ok _ _ _ _ _ HF).
  destruct (iota_step stateF rc c3 HwfF)
    as (stateD & out & HD & HwfD & HwD & HhD & _).
  rewrite (bind_ok _ _ _ _ _ HD).
  eexists. eexists. split; [reflexivity|].
  split; [exact HwfD|]. split.
  - cbn [log]. do 2 apply incl_tl.
    eapply incl_tran; [exact HlE|]. eapply incl_tran; [exact HlB|exact HlF].
  - intros Hw Hrc. split; [auto|]. cbn [log].
    apply extension_step; [auto|]. apply extension_step; [reflexivity|].
    eapply extension_trans; [apply HhE; exact Hw|].
    eapply extension_trans; [apply HhB; auto|]. apply HhF; auto.
Qed.

Lemma permutation_keeps (rc : list Field) :
  forall (state : State) (c : Circuit),
    well_formed state ->
    exists state' c',
      permutation state rc c = (Ok state', c') /\
      well_formed state' /\
      incl (log c) (log c') /\
      (words state -> Forall (fun r => word (toBigInt r)) rc ->
       words state' /\ honest_extension (log c) (log c')).
Proof.
  unfold permutation.
  induction rc as [|rc0 rc IH]; intros state c Hwf; cbn [foldM].
  - exists state, c. split; [reflexivity|].
    split; [exact Hwf|]. split; [apply incl_refl|].
    intros Hw _. split; [exact Hw|apply extension_done].
  - destruct (round_keeps state rc0 c Hwf)
      as (state1 & c1 & H1 & Hwf1 & Hl1 & Hh1).
    rewrite (bind_ok _ _ _ _ _ H1).
    destruct (IH state1 c1 Hwf1) as (state' & c' & H' & Hwf' & Hl' & Hh').
    exists state', c'. split; [exact H'|].
    split; [exact Hwf'|]. split; [eapply incl_tran; eassumption|].
    intros Hw Hrc. apply Forall_cons_iff in Hrc. destruct Hrc as [Hrc0 Hrc].
    destruct (Hh1 Hw Hrc0) as [Hw1 He1].
    destruct (Hh' Hw1 Hrc) as [Hw' He'].
    split; [exact Hw'|]. eapply extension_trans; eassumption.
Qed.

(** X5: the permutation of a state of 5 x 5 lanes of 64 bits with 64-bit
    round constants, however many, returns a state of 5 x 5 lanes of 64
    bits, and every gate it adds to the circuit holds. *)
Theorem permutation_keeps_words
        (state : State) (rc : list Field) (c : Circuit) :
  well_formed state -> words state ->
  Forall (fun r => word (toBigInt r)) rc ->
  exists state' c',
    permutation state rc c = (Ok state', c') /\
    well_formed state' /\ words state' /\
    honest_extension (log c) (log c').
Proof.
  intros Hwf Hw Hrc.
  destruct (permutation_keeps rc state c Hwf)
    as (state' & c' & Hrun & Hwf' & _ & Hh).
  destruct (Hh Hw Hrc) as [Hw' He]. exists state', c'. conjuncts; auto.
Qed.

Lemma permutation_keeps_words_witness :
  exists state' c',
    permutation getKeccakStateZeros (map from ROUND_CONSTANTS) empty
    = (Ok state', c') /\
    well_formed state' /\ words state' /\
    honest_extension (log empty) (log c').
Proof.
  apply (permutation_keeps_words getKeccakStateZeros
                                 (map from ROUND_CONSTANTS) empty).
  - split; [reflexivity|repeat constructor].
  - repeat (apply Forall_cons || apply Forall_nil);
      (vm_compute; split; [discriminate|reflexivity]).
  - repeat (apply Forall_cons || apply Forall_nil);
      (vm_compute; split; [discriminate|reflexivity]).
Defined.

(** ** The rotation offsets *)

Ltac find_step n :=
  first [ exists n; split; [lia|vm_compute; reflexivity]
        | lazymatch n with S ?m => find_step m end ].

(** X6: [ROT_TABLE] holds the rotation offsets of the rho step as the
    comment above [piRho] generates them: lane (0, 0) is not rotated, and
    the walk from (1, 0) along (x, y) -> (y, 2x + 3y mod 5) meets each of
    the other 24 lanes within 24 steps, the lane met at step [t] being
    rotated by (t + 1)(t + 2) / 2 mod 64. *)
Theorem ROT_TABLE_follows_rho :
  nth 0 (nth 0 ROT_TABLE []) 0 = 0 /\
  (forall t, (t < 24)%nat ->
     nth (snd (rho_position t)) (nth (fst (rho_position t)) ROT_TABLE []) 0
     = Z.of_nat ((t + 1) * (t + 2) / 2) mod 64) /\
  (forall x y, (x < 5)%nat -> (y < 5)%nat -> (x, y) <> (0, 0)%nat ->
     exists t, (t < 24)%nat /\ rho_position t = (x, y)).
Proof.
  split; [reflexivity|]. split.
  - intros t Ht.
    do 24 (destruct t as [|t]; [vm_compute; reflexivity|]).
    lia.
  - intros x y Hx Hy Hxy. each_lane x y;
      try (now contradiction Hxy); find_step 23%nat.
Qed.

(** ** The state codec, lane by lane *)

Lemma byte_of_word (w : Z) (z : Z) :
  0 <= z -> Z.land (Z.shiftr w (8 * z)) 0xff = (w / 2 ^ (8 * z)) mod 256.
Proof.
  intros Hz. change 0xff with (Z.ones 8).
  rewrite Z.land_ones by lia. rewrite Z.shiftr_div_pow2 by lia. reflexivity.
Qed.

Lemma byte_of_word_is_byte (w z : Z) :
  0 <= z -> 0 <= Z.land (Z.shiftr w (8 * z)) 0xff <= 255.
Proof.
  intros Hz. rewrite byte_of_word by exact Hz.
  pose proof (Z.mod_pos_bound (w / 2 ^ (8 * z)) 256 ltac:(lia)). lia.
Qed.

(** The eight bytes of a word, least significant first, recompose it. *)
Lemma little_endian_bytes_of_word (w : Z) :
  word w ->
  little_endian
    (map (fun z => Z.land (Z.shiftr w (8 * Z.of_nat z)) 0xff) (seq 0 8))
  = w.
Proof.
  unfold word. intros Hw. cbn [map seq little_endian].
  rewrite !byte_of_word by lia.
  change (8 * Z.of_nat 0) with 0. change (8 * Z.of_nat 1) with 8.
  change (8 * Z.of_nat 2) with 16. change (8 * Z.of_nat 3) with 24.
  change (8 * Z.of_nat 4) with 32. change (8 * Z.of_nat 5) with 40.
  change (8 * Z.of_nat 6) with 48. change (8 * Z.of_nat 7) with 56.
  change (2 ^ 0) with 1. change (2 ^ 8) with 256.
  change (2 ^ 16) with 65536. change (2 ^ 24) with 16777216.
  change (2 ^ 32) with 4294967296. change (2 ^ 40) with 1099511627776.
  change (2 ^ 48) with 281474976710656.
  change (2 ^ 56) with 72057594037927936.
  change (2 ^ 64) with 18446744073709551616 in Hw.
  Z.div_mod_to_equations. lia.
Qed.

Lemma compose_from_value (bytes : list Field) :
  length bytes = 8%nat -> Forall is_byte bytes ->
  toBigInt (compose_from 0 (from 0) bytes)
  = little_endian (map toBigInt bytes).
Proof.
  intros Hlen Hb.
  do 8 (destruct bytes as [|? bytes]; [discriminate Hlen|]).
  destruct bytes; [|discriminate Hlen].
  repeat match goal with
         | H : Forall _ (_ :: _) |- _ =>
             apply Forall_cons_iff in H; destruct H as [? H]
         end.
  unfold is_byte in *.
  cbn [compose_from map little_endian toBigInt from].
  repeat match goal with
         | |- context [(2 ^ (8 * Z.of_nat ?i)) mod ORDER] =>
             let k := eval vm_compute in ((2 ^ (8 * Z.of_nat i)) mod ORDER) in
             change ((2 ^ (8 * Z.of_nat i)) mod ORDER) with k
         end.
  change (0 mod ORDER) with 0. unfold ORDER.
  repeat match goal with
         | |- context [?x mod ?p] => rewrite (Z.mod_small x p) by lia
         end.
  lia.
Qed.

Lemma byte_value_at (state : State) (k z : nat) :
  (z < 8)%nat ->
  byte_value state (8 * k + z)
  = Z.land (Z.shiftr (toBigInt (lane state (k mod 5) (k / 5)))
                     (8 * Z.of_nat z)) 0xff.
Proof.
  intros Hz. unfold byte_value.
  change BYTES_PER_WORD with 8%nat. change KECCAK_DIM with 5%nat.
  replace ((8 * k + z) mod 8)%nat with z.
  2:{ rewrite Nat.add_comm, Nat.mul_comm, Nat.Div0.mod_add.
      symmetry. now apply Nat.mod_small. }
  replace ((8 * k + z) / 8)%nat with k.
  2:{ rewrite Nat.add_comm, Nat.mul_comm, Nat.div_add by discriminate.
      rewrite Nat.div_small by exact Hz. reflexivity. }
  reflexivity.
Qed.

Lemma lane_bytes_values (state : State) (n k : nat) :
  (k < 25)%nat ->
  map toBigInt (lane_bytes (declared_bytes state n) k)
  = map (fun z => Z.land (Z.shiftr (toBigInt (lane state (k mod 5) (k / 5)))
                                   (8 * Z.of_nat z)) 0xff) (seq 0 8).
Proof.
  intros Hk. rewrite lane_bytes_declared by exact Hk.
  rewrite map_map. cbn [toBigInt seq map].
  rewrite <- (byte_value_at state k 0), <- (byte_value_at state k 1),
    <- (byte_value_at state k 2), <- (byte_value_at state k 3),
    <- (byte_value_at state k 4), <- (byte_value_at state k 5),
    <- (byte_value_at state k 6), <- (byte_value_at state k 7) by lia.
  rewrite !Nat.add_succ_r, Nat.add_0_r. reflexivity.
Qed.

Lemma declared_bytes_are_bytes (state : State) (n : nat) :
  Forall is_byte (declared_bytes state n).
Proof.
  unfold declared_bytes. apply Forall_forall. intros x Hx.
  apply in_map_iff in Hx. destruct Hx as (idx & <- & _).
  unfold is_byte, byte_value. cbn [toBigInt].
  apply byte_of_word_is_byte. lia.
Qed.

Lemma lane_bytes_are_bytes (bytes : list Field) (k : nat) :
  Forall is_byte bytes -> Forall is_byte (lane_bytes bytes k).
Proof.
  intros H. unfold lane_bytes.
  rewrite <- (firstn_skipn (8 * k) bytes) in H.
  apply Forall_app in H. destruct H as [_ H].
  rewrite <- (firstn_skipn 8 (skipn (8 * k) bytes)) in H.
  apply Forall_app in H. exact (proj1 H).
Qed.

Lemma lane_bytes_length (bytes : list Field) (k : nat) :
  length bytes = 200%nat -> (k < 25)%nat ->
  length (lane_bytes bytes k) = 8%nat.
Proof.
  intros Hlen Hk. unfold lane_bytes.
  rewrite firstn_length_le; [reflexivity|]. rewrite length_skipn. lia.
Qed.

(** The honest run of [keccakStateToBytes] on a state of 64-bit lanes. *)
Lemma keccakStateToBytes_honest (state : State) (c : Circuit) :
  well_formed state -> words state ->
  exists bytes added c',
    keccakStateToBytes state c = (Ok bytes, c') /\
    log c' = added ++ log c /\
    length bytes = 200%nat /\
    Forall is_byte bytes /\
    forallb holds added = true /\
    forall k, (k < 25)%nat ->
      little_endian (map toBigInt (lane_bytes bytes k))
      = toBigInt (lane state (k mod 5) (k / 5)).
Proof.
  intros Hwf Hw.
  pose proof (keccakStateToBytes_run state c Hwf) as Hrun. cbv zeta in Hrun.
  assert (Hlane : forall k, (k < 25)%nat ->
                    word (toBigInt (lane state (k mod 5) (k / 5)))).
  { intros k Hk. name_lanes Hwf. split_words Hw.
    do 25 (destruct k as [|k]; [cbv [lane nth Nat.modulo Nat.div Nat.divmod
                                     fst snd Nat.sub]; assumption|]).
    lia. }
  assert (Hle : forall k, (k < 25)%nat ->
            little_endian
              (map toBigInt (lane_bytes (declared_bytes state (next_var c)) k))
            = toBigInt (lane state (k mod 5) (k / 5))).
  { intros k Hk. rewrite lane_bytes_values by exact Hk.
    apply little_endian_bytes_of_word. now apply Hlane. }
  eexists. eexists. eexists. split; [exact Hrun|].
  split; [cbn [log]; rewrite app_assoc; reflexivity|].
  split; [unfold declared_bytes; now rewrite length_map, length_seq|].
  split; [apply declared_bytes_are_bytes|].
  split; [|exact Hle].
  rewrite forallb_app. apply andb_true_iff. split.
  - apply forallb_forall. intros e He. apply in_rev in He.
    apply in_map_iff in He. destruct He as (k & <- & Hk).
    apply in_seq in Hk. unfold recomposition, holds.
    apply Z.eqb_eq. rewrite compose_from_value.
    + symmetry. apply Hle. lia.
    + apply lane_bytes_length; [|lia].
      unfold declared_bytes. now rewrite length_map, length_seq.
    + apply lane_bytes_are_bytes, declared_bytes_are_bytes.
  - apply forallb_forall. intros e He. apply in_rev in He.
    apply in_map_iff in He. destruct He as (idx & <- & _). reflexivity.
Qed.

Lemma lane_of_bytes_little_endian (b0 b1 b2 b3 b4 b5 b6 b7 : Field) :
  is_byte b0 -> is_byte b1 -> is_byte b2 -> is_byte b3 ->
  is_byte b4 -> is_byte b5 -> is_byte b6 -> is_byte b7 ->
  toBigInt (lane_of_bytes b0 b1 b2 b3 b4 b5 b6 b7)
  = little_endian (map toBigInt [b0; b1; b2; b3; b4; b5; b6; b7]) /\
  word (toBigInt (lane_of_bytes b0 b1 b2 b3 b4 b5 b6 b7)).
Proof.
  intros H0 H1 H2 H3 H4 H5 H6 H7.
  rewrite lane_of_bytes_value by assumption.
  unfold is_byte, word in *. cbn [map little_endian].
  change (2 ^ 64) with 18446744073709551616. lia.
Qed.

Ltac composed_lane :=
  match goal with
  | |- context [toBigInt
         (Add (Add (Add (Add (Add (Add (Add (Add
            _ (Mul _ ?b0)) (Mul _ ?b1)) (Mul _ ?b2)) (Mul _ ?b3))
            (Mul _ ?b4)) (Mul _ ?b5)) (Mul _ ?b6)) (Mul _ ?b7))] =>
      pose proof (lane_of_bytes_little_endian b0 b1 b2 b3 b4 b5 b6 b7
               ltac:(assumption) ltac:(assumption) ltac:(assumption)
               ltac:(assumption) ltac:(assumption) ltac:(assumption)
               ltac:(assumption) ltac:(assumption)) as [Hvalue Hword]
  end.

(** The lanes that [getKeccakStateOfBytes] builds from 200 bytes. *)
Lemma getKeccakStateOfBytes_lanes (b : list Field) (c : Circuit) :
  length b = 200%nat -> Forall is_byte b ->
  exists state,
    getKeccakStateOfBytes b c = (Ok state, c) /\
    well_formed state /\ words state /\
    forall x y, (x < 5)%nat -> (y < 5)%nat ->
      toBigInt (lane state x y)
      = little_endian (map toBigInt (lane_bytes b (5 * y + x))).
Proof.
  intros Hlen Hb.
  do 200 (destruct b as [|? b]; [discriminate Hlen|]).
  destruct b; [|discriminate Hlen]. clear Hlen.
  repeat match goal with
         | H : Forall _ (_ :: _) |- _ =>
             apply Forall_cons_iff in H; destruct H as [? H]
         end.
  match goal with
  | |- exists state, getKeccakStateOfBytes ?l c = _ /\ _ =>
      let r := eval vm_compute in (getKeccakStateOfBytes l c) in
      match r with
      | (Ok ?st, _) => exists st
      end
  end.
  split; [vm_compute; reflexivity|].
  split; [split; [reflexivity|repeat constructor]|].
  split.
  - unfold words. repeat (apply Forall_cons || apply Forall_nil);
      composed_lane; exact Hword.
  - intros x y Hx Hy. each_lane x y;
      cbv [lane nth lane_bytes skipn firstn Nat.mul Nat.add];
      composed_lane; exact Hvalue.
Qed.

(** X7: a byte string that does not have 200 entries is rejected by
    [getKeccakStateOfBytes] with the error "improper bytestring length",
    before anything is added to the circuit. *)
Theorem getKeccakStateOfBytes_rejects_wrong_length
        (bytestring : list Field) (c : Circuit) :
  length bytestring <> 200%nat ->
  getKeccakStateOfBytes bytestring c
  = (Throw (JS.ConfigurationError "improper bytestring length"), c).
Proof.
  intros H. unfold getKeccakStateOfBytes.
  destruct (Nat.eqb_spec (length bytestring) 200) as [E|_]; [contradiction|].
  reflexivity.
Qed.

Lemma getKeccakStateOfBytes_rejects_wrong_length_witness :
  getKeccakStateOfBytes [from 1; from 2] empty
  = (Throw (JS.ConfigurationError "improper bytestring length"), empty).
Proof.
  apply (getKeccakStateOfBytes_rejects_wrong_length [from 1; from 2] empty).
  simpl. lia.
Defined.

(** X8: [getKeccakStateOfBytes] lays 200 bytes out in lanes of eight: lane
    [(x, y)] is built from bytes [8 * (5 * y + x)] onwards, the first of
    them being the least significant.  The state has 5 x 5 lanes of 64
    bits and the circuit is left as it was. *)
Theorem getKeccakStateOfBytes_is_little_endian
        (bytestring : list Field) (c : Circuit) :
  length bytestring = 200%nat -> Forall is_byte bytestring ->
  exists state,
    getKeccakStateOfBytes bytestring c = (Ok state, c) /\
    well_formed state /\ words state /\
    forall x y, (x < 5)%nat -> (y < 5)%nat ->
      toBigInt (lane state x y)
      = little_endian (map toBigInt (lane_bytes bytestring (5 * y + x))).
Proof. exact (getKeccakStateOfBytes_lanes bytestring c). Qed.

Lemma getKeccakStateOfBytes_is_little_endian_witness :
  exists state,
    getKeccakStateOfBytes (map from (repeat 171 200)) empty
    = (Ok state, empty) /\
    well_formed state /\ words state /\
    forall x y, (x < 5)%nat -> (y < 5)%nat ->
      toBigInt (lane state x y)
      = little_endian
          (map toBigInt (lane_bytes (map from (repeat 171 200)) (5 * y + x))).
Proof.
  apply (getKeccakStateOfBytes_is_little_endian
           (map from (repeat 171 200)) empty).
  - reflexivity.
  - repeat (apply Forall_cons; [split; vm_compute; discriminate|]).
    apply Forall_nil.
Defined.

(** X9: on a state of 5 x 5 lanes of 64 bits, [keccakStateToBytes] returns
    200 witnesses with byte values; the eight bytes of lane [(x, y)] start
    at index [8 * (5 * y + x)] and, read with the first as the least
    significant, give the lane; every constraint the call adds holds for
    these values. *)
Theorem keccakStateToBytes_decomposes_lanes (state : State) (c : Circuit) :
  well_formed state -> words state ->
  exists bytes c',
    keccakStateToBytes state c = (Ok bytes, c') /\
    length bytes = 200%nat /\
    Forall is_byte bytes /\
    honest_extension (log c) (log c') /\
    forall x y, (x < 5)%nat -> (y < 5)%nat ->
      little_endian (map toBigInt (lane_bytes bytes (5 * y + x)))
      = toBigInt (lane state x y).
Proof.
  intros Hwf Hw.
  destruct (keccakStateToBytes_honest state c Hwf Hw)
    as (bytes & added & c' & Hrun & Hlog & Hlen & Hb & Hholds & Hle).
  exists bytes, c'. split; [exact Hrun|]. split; [exact Hlen|].
  split; [exact Hb|]. split; [rewrite Hlog; now apply extension_app|].
  intros x y Hx Hy. rewrite Hle by lia.
  rewrite Nat.add_comm, Nat.mul_comm, Nat.Div0.mod_add, Nat.div_add
    by discriminate.
  now rewrite Nat.mod_small, Nat.div_small by assumption.
Qed.

Lemma keccakStateToBytes_decomposes_lanes_witness :
  exists bytes c',
    keccakStateToBytes getKeccakStateZeros empty = (Ok bytes, c') /\
    length bytes = 200%nat /\
    Forall is_byte bytes /\
    honest_extension (log empty) (log c') /\
    forall x y, (x < 5)%nat -> (y < 5)%nat ->
      little_endian (map toBigInt (lane_bytes bytes (5 * y + x)))
      = toBigInt (lane getKeccakStateZeros x y).
Proof.
  apply (keccakStateToBytes_decomposes_lanes getKeccakStateZeros empty).
  - split; [reflexivity|repeat constructor].
  - repeat (apply Forall_cons || apply Forall_nil);
      (vm_compute; split; [discriminate|reflexivity]).
Defined.

Lemma keccakStateToBytes_constrains_bytes_witness :
  exists bytes asserts declarations n',
    keccakStateToBytes getKeccakStateZeros empty
    = (Ok bytes, mkCircuit n' (asserts ++ declarations ++ log empty)) /\
    declarations
    = rev (map (fun idx => Witness ByExistsOne (idx + next_var empty))
               (seq 0 200)) /\
    forall idx,
      (idx < 200)%nat ->
      exists word composition,
        In (AssertEquals word composition) asserts /\
        In (idx + next_var empty)%nat (vars composition).
Proof.
  apply (keccakStateToBytes_constrains_bytes getKeccakStateZeros empty).
  split; [reflexivity|repeat constructor].
Defined.

(** X11: a state of 5 x 5 lanes of 64 bits, converted to bytes and back,
    comes back with the values its lanes had; the second conversion adds
    nothing to the circuit. *)
Theorem state_bytes_state_roundtrip (state : State) (c : Circuit) :
  well_formed state -> words state ->
  exists bytes c' state',
    keccakStateToBytes state c = (Ok bytes, c') /\
    getKeccakStateOfBytes bytes c' = (Ok state', c') /\
    well_formed state' /\
    forall x y, (x < 5)%nat -> (y < 5)%nat ->
      toBigInt (lane state' x y) = toBigInt (lane state x y).
Proof.
  intros Hwf Hw.
  destruct (keccakStateToBytes_honest state c Hwf Hw)
    as (bytes & added & c' & Hrun & _ & Hlen & Hb & _ & Hle).
  destruct (getKeccakStateOfBytes_lanes bytes c' Hlen Hb)
    as (state' & Hback & Hwf' & _ & Hlanes).
  exists bytes, c', state'. split; [exact Hrun|]. split; [exact Hback|].
  split; [exact Hwf'|].
  intros x y Hx Hy. rewrite Hlanes, Hle by lia.
  rewrite Nat.add_comm, Nat.mul_comm, Nat.Div0.mod_add, Nat.div_add
    by discriminate.
  now rewrite Nat.mod_small, Nat.div_small by assumption.
Qed.

Lemma state_bytes_state_roundtrip_witness :
  exists bytes c' state',
    keccakStateToBytes getKeccakStateZeros empty = (Ok bytes, c') /\
    getKeccakStateOfBytes bytes c' = (Ok state', c') /\
    well_formed state' /\
    forall x y, (x < 5)%nat -> (y < 5)%nat ->
      toBigInt (lane state' x y) = toBigInt (lane getKeccakStateZeros x y).
Proof.
  apply (state_bytes_state_roundtrip getKeccakStateZeros empty).
  - split; [reflexivity|repeat constructor].
  - repeat (apply Forall_cons || apply Forall_nil);
      (vm_compute; split; [discriminate|reflexivity]).
Defined.

(** X12: on eight bytes [checkBytesToWord] declares nothing and adds one
    equality assertion, between the word and a sum whose value is the
    little-endian reading of the bytes. *)
Theorem checkBytesToWord_asserts_little_endian
        (word : Field) (wordBytes : list Field) (c : Circuit) :
  length wordBytes = 8%nat -> Forall is_byte wordBytes ->
  exists composition,
    checkBytesToWord word wordBytes c
    = (Ok tt, mkCircuit (next_var c)
                        (AssertEquals word composition :: log c)) /\
    toBigInt composition = little_endian (map toBigInt wordBytes).
Proof.
  intros Hlen Hb. eexists. split; [reflexivity|].
  now apply compose_from_value.
Qed.

Lemma checkBytesToWord_asserts_little_endian_witness :
  exists composition,
    checkBytesToWord (from 578437695752307201)
                     (map from [1; 2; 3; 4; 5; 6; 7; 8]) empty
    = (Ok tt, mkCircuit (next_var empty)
                        (AssertEquals (from 578437695752307201) composition
                         :: log empty)) /\
    toBigInt composition
    = little_endian (map toBigInt (map from [1; 2; 3; 4; 5; 6; 7; 8])).
Proof.
  apply (checkBytesToWord_asserts_little_endian
           (from 578437695752307201) (map from [1; 2; 3; 4; 5; 6; 7; 8])
           empty).
  - reflexivity.
  - repeat (apply Forall_cons; [split; vm_compute; discriminate|]).
    apply Forall_nil.
Defined.

(** X13: [keccakStateXor] checks the number of rows and the length of the
    first row of each operand: it rejects the first operand with "Invalid
    input1 dimensions" and, when the first passes, the second with "Invalid
    input2 dimensions"; the circuit is left as it was. *)
Theorem keccakStateXor_rejects_bad_dimensions (a b : State) (c : Circuit) :
  (length a <> 5%nat \/ length (nth 0%nat a []) <> 5%nat ->
   keccakStateXor a b c
   = (Throw (JS.ConfigurationError "Invalid input1 dimensions"), c)) /\
  (length a = 5%nat -> length (nth 0%nat a []) = 5%nat ->
   length b <> 5%nat \/ length (nth 0%nat b []) <> 5%nat ->
   keccakStateXor a b c
   = (Throw (JS.ConfigurationError "Invalid input2 dimensions"), c)).
Proof.
  unfold keccakStateXor. change KECCAK_DIM with 5%nat. split.
  - intros Ha.
    replace ((length a =? 5)%nat && (length (nth 0%nat a []) =? 5)%nat)
      with false; [reflexivity|].
    symmetry. apply andb_false_iff.
    destruct Ha as [Ha|Ha]; [left|right]; now apply Nat.eqb_neq.
  - intros Ha Ha0 Hb. rewrite Ha, Ha0.
    replace ((length b =? 5)%nat && (length (nth 0%nat b []) =? 5)%nat)
      with false; [reflexivity|].
    symmetry. apply andb_false_iff.
    destruct Hb as [Hb|Hb]; [left|right]; now apply Nat.eqb_neq.
Qed.

Lemma keccakStateXor_rejects_bad_dimensions_witness :
  keccakStateXor [[from 0]] getKeccakStateZeros empty
  = (Throw (JS.ConfigurationError "Invalid input1 dimensions"), empty) /\
  keccakStateXor getKeccakStateZeros [[from 0]] empty
  = (Throw (JS.ConfigurationError "Invalid input2 dimensions"), empty).
Proof.
  split.
  - apply (proj1 (keccakStateXor_rejects_bad_dimensions
                    [[from 0]] getKeccakStateZeros empty)).
    left. simpl. lia.
  - apply (proj2 (keccakStateXor_rejects_bad_dimensions
                    getKeccakStateZeros [[from 0]] empty)).
    + reflexivity.
    + reflexivity.
    + left. simpl. lia.
Defined.

(** X14: on two states of 5 x 5 lanes of 64 bits [keccakStateXor] returns
    the state whose lane [(x, y)] is the XOR of the two lanes [(x, y)]; it
    has 5 x 5 lanes of 64 bits again, and the gates added to the circuit
    hold. *)
Theorem keccakStateXor_lanes (a b : State) (c : Circuit) :
  well_formed a -> well_formed b -> words a -> words b ->
  exists state' c',
    keccakStateXor a b c = (Ok state', c') /\
    well_formed state' /\ words state' /\
    honest_extension (log c) (log c') /\
    forall x y, (x < 5)%nat -> (y < 5)%nat ->
      toBigInt (lane state' x y)
      = Z.lxor (toBigInt (lane a x y)) (toBigInt (lane b x y)).
Proof.
  intros Ha Hb Hwa Hwb.
  destruct (keccakStateXor_step a b c Ha Hb)
    as (state' & c' & Hrun & Hwf & Hw & _ & Hh & Hlanes).
  exists state', c'. conjuncts; auto.
Qed.

Lemma keccakStateXor_lanes_witness :
  exists state' c',
    keccakStateXor getKeccakStateZeros getKeccakStateZeros empty
    = (Ok state', c') /\
    well_formed state' /\ words state' /\
    honest_extension (log empty) (log c') /\
    forall x y, (x < 5)%nat -> (y < 5)%nat ->
      toBigInt (lane state' x y)
      = Z.lxor (toBigInt (lane getKeccakStateZeros x y))
               (toBigInt (lane getKeccakStateZeros x y)).
Proof.
  apply (keccakStateXor_lanes getKeccakStateZeros getKeccakStateZeros empty).
  - split; [reflexivity|repeat constructor].
  - split; [reflexivity|repeat constructor].
  - repeat (apply Forall_cons || apply Forall_nil);
      (vm_compute; split; [discriminate|reflexivity]).
  - repeat (apply Forall_cons || apply Forall_nil);
      (vm_compute; split; [discriminate|reflexivity]).
Defined.

(** ** The bytes of the padding *)

Lemma set_repeat_last {A} (z v : A) (m : nat) :
  JS.set (repeat z (S m)) m v = repeat z m ++ [v].
Proof.
  induction m as [|m IH]; [reflexivity|].
  change (repeat z (S (S m))) with (z :: repeat z (S m)).
  cbn [JS.set]. rewrite IH. reflexivity.
Qed.

Lemma nth_error_repeat_last {A} (z : A) (m : nat) :
  nth_error (repeat z (S m)) m = Some z.
Proof. induction m as [|m IH]; [reflexivity|exact IH]. Qed.

Lemma padding_bytes_are_bytes (first : Z) (p : nat) :
  0 <= first <= 127 ->
  Forall (fun v => 0 <= v <= 255) (padding_bytes first p).
Proof.
  intros Hf. destruct p as [|[|n]]; cbn [padding_bytes].
  - constructor.
  - constructor; [lia|constructor].
  - constructor; [lia|]. apply Forall_app. split.
    + apply Forall_forall. intros v Hv. apply repeat_spec in Hv. lia.
    + constructor; [lia|constructor].
Qed.

(** What the body shared by [padNist] and [pad101] appends. *)
Lemma pad_body_content (rate first : Z) (message : list Field)
      (c : Circuit) :
  8 <= rate -> rate / 8 <= JS.MAX_ARRAY_LENGTH -> 0 <= first <= 127 ->
  let extraBytes := bytesToPad rate (Z.of_nat (length message)) in
  let p := rate / 8 - Z.of_nat (length message) mod (rate / 8) in
  exists pad,
    (pad0 <- Array_fill extraBytes (from 0) ;;
     let pad1 := JS.set pad0 0 (from first) in
     lastByte <- get_at pad1 (JS.sub extraBytes (JS.Int 1)) ;;
     let pad2 :=
       set_at pad1 (JS.sub extraBytes (JS.Int 1)) (Add lastByte (from (2 ^ 7)))
     in ret (message ++ pad2)) c = (Ok (message ++ pad), c) /\
    map toBigInt pad = padding_bytes first (Z.to_nat p) /\
    Z.of_nat (length pad) = p /\
    extraBytes = JS.Int p.
Proof.
  intros H8 Hmax Hfirst extraBytes p.
  destruct (bytesToPad_value rate H8 (Z.of_nat (length message)) ltac:(lia))
    as [Hp Hrange].
  subst extraBytes. rewrite Hp. fold p in Hrange |- *.
  rewrite (bind_ok _ _ _ _ _ (Array_fill_ok p (from 0) c ltac:(lia))).
  unfold JS.sub, get_at, set_at.
  destruct (Z.ltb_spec (p - 1) 0); [lia|].
  destruct (Z.to_nat p) as [|[|n]] eqn:E; [lia| |].
  - replace (Z.to_nat (p - 1)) with 0%nat by lia.
    eexists. split; [reflexivity|]. split; [|split; [cbn; lia|reflexivity]].
    cbn [map toBigInt from padding_bytes JS.set repeat].
    change (2 ^ 7 mod ORDER) with 128.
    rewrite (Z.mod_small first) by (unfold ORDER; lia).
    rewrite Z.mod_small by (unfold ORDER; lia). reflexivity.
  - replace (Z.to_nat (p - 1)) with (S n) by lia.
    change (repeat (from 0) (S (S n))) with (from 0 :: repeat (from 0) (S n)).
    cbn [JS.set]. unfold get. cbn [nth_error].
    rewrite nth_error_repeat_last.
    unfold bind, ret. rewrite set_repeat_last.
    eexists. split; [reflexivity|].
    split; [|split; [|reflexivity]].
    + cbn [map padding_bytes]. rewrite map_app, map_repeat.
      cbn [map toBigInt from].
      change (2 ^ 7 mod ORDER) with 128. change (0 mod ORDER) with 0.
      rewrite (Z.mod_small first) by (unfold ORDER; lia). reflexivity.
    + cbn [length]. rewrite length_app, repeat_length. cbn [length]. lia.
Qed.

(** X15: for a rate of at least one byte, [padNist] and [pad101] append
    between 1 and [rate / 8] bytes, as many as bring the length to the next
    multiple of [rate / 8], and the bytes are the ones the comments name:
    0x06 (0x01 for [pad101]), zeros, 0x80, or the single byte 0x86 (0x81). *)
Theorem padding_content (message : list Field) (rate : Z) (c : Circuit) :
  8 <= rate -> rate / 8 <= JS.MAX_ARRAY_LENGTH ->
  let p := rate / 8 - Z.of_nat (length message) mod (rate / 8) in
  1 <= p <= rate / 8 /\
  (Z.of_nat (length message) + p) mod (rate / 8) = 0 /\
  (exists pad,
      padNist message rate c = (Ok (message ++ pad), c) /\
      Z.of_nat (length pad) = p /\
      map toBigInt pad = padding_bytes 6 (Z.to_nat p)) /\
  (exists pad,
      pad101 message rate c = (Ok (message ++ pad), c) /\
      Z.of_nat (length pad) = p /\
      map toBigInt pad = padding_bytes 1 (Z.to_nat p)).
Proof.
  intros H8 Hmax p.
  assert (Hk : 1 <= rate / 8) by (apply Z.div_le_lower_bound; lia).
  assert (Hm : 0 <= Z.of_nat (length message) mod (rate / 8) < rate / 8)
    by (apply Z.mod_pos_bound; lia).
  split; [subst p; lia|]. split.
  - subst p.
    replace (Z.of_nat (length message)
             + (rate / 8 - Z.of_nat (length message) mod (rate / 8)))
      with (Z.of_nat (length message)
            - Z.of_nat (length message) mod (rate / 8) + 1 * (rate / 8))
      by lia.
    rewrite Z.mod_add by lia.
    rewrite <- Zminus_mod_idemp_l, Z.sub_diag. apply Z.mod_0_l. lia.
  - split.
    + destruct (pad_body_content rate 6 message c H8 Hmax ltac:(lia))
        as (pad & Hrun & Hvals & Hlen & _).
      exists pad. split; [exact Hrun|]. split; assumption.
    + destruct (pad_body_content rate 1 message c H8 Hmax ltac:(lia))
        as (pad & Hrun & Hvals & Hlen & _).
      exists pad. split; [exact Hrun|]. split; assumption.
Qed.

Lemma padding_content_witness :
  let p := 1088 / 8 - Z.of_nat (length [from 97; from 98]) mod (1088 / 8) in
  1 <= p <= 1088 / 8 /\
  (Z.of_nat (length [from 97; from 98]) + p) mod (1088 / 8) = 0 /\
  (exists pad,
      padNist [from 97; from 98] 1088 empty
      = (Ok ([from 97; from 98] ++ pad), empty) /\
      Z.of_nat (length pad) = p /\
      map toBigInt pad = padding_bytes 6 (Z.to_nat p)) /\
  (exists pad,
      pad101 [from 97; from 98] 1088 empty
      = (Ok ([from 97; from 98] ++ pad), empty) /\
      Z.of_nat (length pad) = p /\
      map toBigInt pad = padding_bytes 1 (Z.to_nat p)).
Proof.
  apply (padding_content [from 97; from 98] 1088 empty).
  - lia.
  - vm_compute. discriminate.
Defined.

(** X16: a message that already fills whole blocks of [rate / 8] bytes is
    padded with a whole further block. *)
Theorem aligned_message_gets_full_block
        (message : list Field) (rate : Z) (c : Circuit) :
  8 <= rate -> rate / 8 <= JS.MAX_ARRAY_LENGTH ->
  Z.of_nat (length message) mod (rate / 8) = 0 ->
  bytesToPad rate (Z.of_nat (length message)) = JS.Int (rate / 8) /\
  (exists pad,
      padNist message rate c = (Ok (message ++ pad), c) /\
      Z.of_nat (length pad) = rate / 8) /\
  (exists pad,
      pad101 message rate c = (Ok (message ++ pad), c) /\
      Z.of_nat (length pad) = rate / 8).
Proof.
  intros H8 Hmax Hal. split; [|split].
  - destruct (bytesToPad_value rate H8 (Z.of_nat (length message))
                               ltac:(lia)) as [Hp _].
    rewrite Hp, Hal. f_equal. lia.
  - destruct (pad_body_content rate 6 message c H8 Hmax ltac:(lia))
      as (pad & Hrun & _ & Hlen & _).
    exists pad. split; [exact Hrun|]. rewrite Hlen, Hal. lia.
  - destruct (pad_body_content rate 1 message c H8 Hmax ltac:(lia))
      as (pad & Hrun & _ & Hlen & _).
    exists pad. split; [exact Hrun|]. rewrite Hlen, Hal. lia.
Qed.

Lemma aligned_message_gets_full_block_witness :
  bytesToPad 16 (Z.of_nat (length [from 97; from 98])) = JS.Int (16 / 8) /\
  (exists pad,
      padNist [from 97; from 98] 16 empty
      = (Ok ([from 97; from 98] ++ pad), empty) /\
      Z.of_nat (length pad) = 16 / 8) /\
  (exists pad,
      pad101 [from 97; from 98] 16 empty
      = (Ok ([from 97; from 98] ++ pad), empty) /\
      Z.of_nat (length pad) = 16 / 8).
Proof.
  apply (aligned_message_gets_full_block [from 97; from 98] 16 empty).
  - lia.
  - vm_compute. discriminate.
  - reflexivity.
Defined.

(** ** Witnesses and range checks *)

Lemma mapM_fresh (o : Origin) (values : list Z) :
  forall c, exists rc c',
    mapM (fresh o) values c = (Ok rc, c') /\
    map toBigInt rc = values /\
    honest_extension (log c) (log c').
Proof.
  induction values as [|v values IH]; intros c; cbn [mapM].
  - exists [], c. split; [reflexivity|]. split; [reflexivity|].
    apply extension_done.
  - unfold bind at 1, fresh at 1.
    destruct (IH (mkCircuit (S (next_var c))
                            (Witness o (next_var c) :: log c)))
      as (rc & c' & H & Hv & He).
    rewrite (bind_ok _ _ _ _ _ H).
    eexists. eexists. split; [reflexivity|].
    split; [cbn [map toBigInt]; now rewrite Hv|].
    eapply extension_trans; [|exact He].
    cbn [log]. apply extension_step; [reflexivity|apply extension_done].
Qed.

Lemma checkBytes_run (inputs : list Field) :
  forall c,
    checkBytes inputs c
    = (Ok tt, mkCircuit (next_var c)
                        (rev (map RangeCheck8 inputs) ++ log c)).
Proof.
  unfold checkBytes.
  assert (H : forall c,
             mapM Gadgets.rangeCheck8 inputs c
             = (Ok (map (fun _ => tt) inputs),
                mkCircuit (next_var c)
                          (rev (map RangeCheck8 inputs) ++ log c))).
  { induction inputs as [|x inputs IH]; intros c; cbn [mapM].
    - destruct c. reflexivity.
    - unfold bind at 1, Gadgets.rangeCheck8 at 1, emit at 1.
      rewrite (bind_ok _ _ _ _ _ (IH _)).
      unfold ret. cbn [map rev next_var log].
      rewrite <- app_assoc. reflexivity. }
  intros c. rewrite (bind_ok _ _ _ _ _ (H c)). reflexivity.
Qed.

Lemma rangeChecks_hold (inputs : list Field) :
  Forall is_byte inputs ->
  forallb holds (rev (map RangeCheck8 inputs)) = true.
Proof.
  intros H. apply forallb_forall. intros e He. apply in_rev in He.
  apply in_map_iff in He. destruct He as (x & <- & Hx).
  rewrite Forall_forall in H. specialize (H x Hx). unfold is_byte in H.
  cbn [holds]. unfold fits. apply andb_true_iff.
  split; [apply Z.leb_le|apply Z.ltb_lt]; change (2 ^ 8) with 256; lia.
Qed.

(** ** Absorbing blocks of bytes *)

Lemma slice_bytes (a : list Field) (start stop : Z) :
  Forall is_byte a -> Forall is_byte (JS.slice a start stop).
Proof.
  intros H. unfold JS.slice.
  set (n := Z.to_nat (JS.clamp _ stop - JS.clamp _ start)).
  set (k := Z.to_nat (JS.clamp _ start)).
  rewrite <- (firstn_skipn k a) in H.
  apply Forall_app in H. destruct H as [_ H].
  rewrite <- (firstn_skipn n (skipn k a)) in H.
  apply Forall_app in H. exact (proj1 H).
Qed.

Lemma absorb_loop_keeps (paddedMessage zeros rc : list Field) (step : Z) :
  1 <= step ->
  (Z.to_nat step + length zeros = 200)%nat ->
  forall (blocks fuel : nat) (i : Z) (state : State) (c : Circuit),
    well_formed state ->
    0 <= i ->
    Z.of_nat (length paddedMessage) = i + Z.of_nat blocks * step ->
    (blocks <= fuel)%nat ->
    exists state' c',
      absorb_loop fuel paddedMessage zeros step rc i state c
      = (Ok state', c') /\
      well_formed state' /\
      incl (log c) (log c') /\
      (Forall is_byte paddedMessage -> Forall is_byte zeros ->
       Forall (fun r => word (toBigInt r)) rc -> words state ->
       words state' /\ honest_extension (log c) (log c')).
Proof.
  intros Hstep Hzeros.
  induction blocks as [|blocks IH]; intros fuel i state c Hwf Hi Hlen Hfuel.
  - exists state, c. split.
    + destruct fuel; cbn [absorb_loop];
        (destruct (Z.ltb_spec i (Z.of_nat (length paddedMessage))); [lia|]);
        reflexivity.
    + split; [exact Hwf|]. split; [apply incl_refl|].
      intros _ _ _ Hw. split; [exact Hw|apply extension_done].
  - destruct fuel as [|fuel]; [lia|]. cbn [absorb_loop].
    destruct (Z.ltb_spec i (Z.of_nat (length paddedMessage))); [|nia].
    assert (Hblock : length (JS.slice paddedMessage i (i + step) ++ zeros)
                     = 200%nat).
    { rewrite length_app, slice_length by nia.
      replace (i + step - i) with step by lia. exact Hzeros. }
    rewrite Hblock. change (Z.of_nat 200 * 8 =? KECCAK_STATE_LENGTH) with true.
    unfold assert at 1. unfold bind at 1. unfold ret at 1.
    destruct (getKeccakStateOfBytes_ok _ c Hblock) as (blockState & Hb & Hwfb).
    rewrite (bind_ok _ _ _ _ _ Hb).
    destruct (keccakStateXor_step state blockState c Hwf Hwfb)
      as (stateXor & c1 & Hx & Hwfx & Hwx & Hlx & Hhx & _).
    rewrite (bind_ok _ _ _ _ _ Hx).
    destruct (permutation_keeps rc stateXor c1 Hwfx)
      as (statePerm & c2 & Hp & Hwfp & Hlp & Hhp).
    rewrite (bind_ok _ _ _ _ _ Hp).
    destruct (IH fuel (i + step) statePerm c2 Hwfp ltac:(lia) ltac:(lia)
                 ltac:(lia))
      as (state' & c' & H' & Hwf' & Hl' & Hh').
    exists state', c'. split; [exact H'|]. split; [exact Hwf'|].
    split.
    { eapply incl_tran; [exact Hlx|]. eapply incl_tran; eassumption. }
    intros Hpm Hz Hrc Hw.
    assert (Hwb : words blockState).
    { destruct (getKeccakStateOfBytes_lanes
                  (JS.slice paddedMessage i (i + step) ++ zeros) c Hblock)
        as (blockState' & Hb' & _ & Hwb & _).
      - apply Forall_app. split; [now apply slice_bytes|exact Hz].
      - rewrite Hb in Hb'. injection Hb' as <-. exact Hwb. }
    destruct (Hhp (Hwx Hw Hwb) Hrc) as [Hwp Hep].
    destruct (Hh' Hpm Hz Hrc Hwp) as [Hw' He'].
    split; [exact Hw'|].
    eapply extension_trans; [apply Hhx; assumption|].
    eapply extension_trans; eassumption.
Qed.

Lemma getKeccakStateZeros_words : words getKeccakStateZeros.
Proof.
  unfold words. repeat (apply Forall_cons || apply Forall_nil);
    (vm_compute; split; [discriminate|reflexivity]).
Qed.

Lemma absorb_keeps (paddedMessage rc : list Field) (capacity rate : Z)
      (c : Circuit) :
  0 < capacity -> (8 | capacity) -> rate = KECCAK_STATE_LENGTH - capacity ->
  0 < rate ->
  (Z.of_nat (length paddedMessage) * 8) mod rate = 0 ->
  exists state c',
    absorb paddedMessage capacity rate rc c = (Ok state, c') /\
    well_formed state /\
    incl (log c) (log c') /\
    (Forall is_byte paddedMessage ->
     Forall (fun r => word (toBigInt r)) rc ->
     words state /\ honest_extension (log c) (log c')).
Proof.
  intros Hcap [q Hq] Hrate Hpos Hmod. unfold absorb.
  change KECCAK_STATE_LENGTH with 1600 in Hrate.
  assert (Hcm : capacity mod 8 = 0) by (rewrite Hq; apply Z_mod_mult).
  assert (Hcd : capacity / 8 = q) by (rewrite Hq; apply Z.div_mul; lia).
  assert (Hr : rate = (200 - q) * 8) by lia.
  assert (Hrm : rate mod 8 = 0) by (rewrite Hr; apply Z_mod_mult).
  assert (Hrd : rate / 8 = 200 - q) by (rewrite Hr; apply Z.div_mul; lia).
  rewrite Hcm, Hrm, Hcd, Hrd. change (0 =? 0) with true. cbv iota.
  erewrite bind_ok
    by (apply Array_fill_ok; unfold JS.MAX_ARRAY_LENGTH; lia).
  destruct (Z.ltb_spec 0 rate); [|lia]. cbn [andb].
  apply Z.mod_divide in Hmod; [|lia]. destruct Hmod as [m Hm].
  assert (Hlen : Z.of_nat (length paddedMessage) = m * (200 - q)) by lia.
  assert (Hm0 : 0 <= m) by nia.
  destruct (absorb_loop_keeps paddedMessage
              (repeat (from 0) (Z.to_nat q)) rc (200 - q)
              ltac:(lia) ltac:(rewrite repeat_length; lia)
              (Z.to_nat m) (length paddedMessage) 0 getKeccakStateZeros c
              getKeccakStateZeros_well_formed ltac:(lia) ltac:(lia))
    as (state & c' & Hrun & Hwf & Hl & Hh).
  { apply Nat2Z.inj_le. rewrite Z2Nat.id, Hlen by lia.
    assert (1 <= 200 - q) by lia. nia. }
  exists state, c'. split; [exact Hrun|]. split; [exact Hwf|].
  split; [exact Hl|]. intros Hpm Hrc.
  apply Hh; [exact Hpm| |exact Hrc|exact getKeccakStateZeros_words].
  apply Forall_forall. intros x Hx. apply repeat_spec in Hx. subst x.
  vm_compute. split; discriminate.
Qed.

(** ** The run of the hash *)

Lemma keccakStateToBytes_keeps (state : State) (c : Circuit) :
  well_formed state ->
  exists bytes c',
    keccakStateToBytes state c = (Ok bytes, c') /\
    length bytes = 200%nat /\
    Forall is_byte bytes /\
    incl (log c) (log c') /\
    (words state -> honest_extension (log c) (log c')).
Proof.
  intros Hwf.
  pose proof (keccakStateToBytes_run state c Hwf) as Hrun. cbv zeta in Hrun.
  eexists. eexists. split; [exact Hrun|].
  split; [unfold declared_bytes; now rewrite length_map, length_seq|].
  split; [apply declared_bytes_are_bytes|].
  split; [cbn [log]; apply incl_appr, incl_appr, incl_refl|].
  intros Hw.
  destruct (keccakStateToBytes_honest state c Hwf Hw)
    as (bytes & added & c' & Hrun' & Hlog & _ & _ & Hholds & _).
  rewrite Hrun in Hrun'. apply (f_equal snd) in Hrun'. cbn [snd] in Hrun'.
  rewrite Hrun', Hlog. now apply extension_app.
Qed.

Lemma round_constants_are_words :
  Forall word (firstn 24 ROUND_CONSTANTS).
Proof.
  cbv [firstn ROUND_CONSTANTS]. unfold word.
  change (2 ^ 64) with 18446744073709551616.
  repeat (apply Forall_cons; [lia|]). apply Forall_nil.
Qed.

Lemma exists_run (n : nat) (compute : list Z) (c : Circuit) :
  exists rc c',
    exists_ n compute c = (Ok rc, c') /\
    map toBigInt rc = firstn n compute /\
    honest_extension (log c) (log c').
Proof. unfold exists_. apply mapM_fresh. Qed.

Lemma sponge_keeps (paddedMessage : list Field) (length capacity rate : Z)
      (c : Circuit) :
  0 < capacity -> (8 | capacity) -> rate = KECCAK_STATE_LENGTH - capacity ->
  0 < length < rate ->
  (Z.of_nat (List.length paddedMessage) * 8) mod rate = 0 ->
  exists bytes c',
    sponge paddedMessage length capacity rate c
    = (Ok (firstn (Z.to_nat (length / 8)) bytes), c') /\
    List.length bytes = 200%nat /\
    Forall is_byte bytes /\
    incl (log c) (log c') /\
    (Forall is_byte paddedMessage -> honest_extension (log c) (log c')).
Proof.
  intros Hcap Hcap8 Hrate Hlen Haligned.
  change KECCAK_STATE_LENGTH with 1600 in Hrate.
  assert (Hrate8 : (8 | rate)).
  { destruct Hcap8 as [q ->]. exists (200 - q). lia. }
  rewrite sponge_single by (try assumption; lia).
  unfold sponge_one_squeeze, JS.rem.
  destruct (Z.eqb_spec rate 0); [lia|].
  rewrite Z.rem_mod_nonneg, Haligned by lia.
  destruct (exists_run 24 ROUND_CONSTANTS c)
    as (rc & c2 & Hrc & Hvals & Hext2).
  rewrite (bind_ok _ _ _ _ _ Hrc).
  destruct (absorb_keeps paddedMessage rc capacity rate c2)
    as (state & c3 & Habs & Hwf & Hl3 & Hh3);
    [lia|exact Hcap8|exact Hrate|lia|exact Haligned|].
  rewrite (bind_ok _ _ _ _ _ Habs).
  destruct (keccakStateToBytes_keeps state c3 Hwf)
    as (bytes & c4 & Hbytes & Hb200 & Hbb & Hl4 & Hh4).
  rewrite (bind_ok _ _ _ _ _ Hbytes).
  exists bytes, c4. split; [reflexivity|].
  split; [exact Hb200|]. split; [exact Hbb|]. split.
  - eapply incl_tran; [apply extension_incl; exact Hext2|].
    eapply incl_tran; eassumption.
  - intros Hpm.
    assert (Hrcw : Forall (fun r => word (toBigInt r)) rc).
    { rewrite <- Forall_map, Hvals. exact round_constants_are_words. }
    destruct (Hh3 Hpm Hrcw) as [Hw He3].
    eapply extension_trans; [exact Hext2|].
    eapply extension_trans; [exact He3|]. now apply Hh4.
Qed.

Lemma firstn_bytes (n : nat) (a : list Field) :
  Forall is_byte a -> Forall is_byte (firstn n a).
Proof.
  intros H. rewrite <- (firstn_skipn n a) in H.
  apply Forall_app in H. exact (proj1 H).
Qed.

(** The run of [hash] on a valid configuration whose output is shorter
    than the rate. *)
Lemma hash_run
      (inpEndian outEndian : Endian) (byteChecks : bool)
      (message : list Field) (length capacity : Z) (nistVersion : bool)
      (c : Circuit) :
  0 < capacity < 1600 -> (8 | capacity) ->
  0 < length < 1600 - capacity -> (8 | length) ->
  exists digest c',
    hash inpEndian outEndian byteChecks message length capacity nistVersion c
    = (Ok digest, c') /\
    Z.of_nat (List.length digest) = length / 8 /\
    Forall is_byte digest /\
    (forall d, In d digest -> In (RangeCheck8 d) (log c')) /\
    incl (log c) (log c') /\
    (byteChecks = true ->
     forall m, In m message -> In (RangeCheck8 m) (log c')) /\
    (Forall is_byte message -> honest_extension (log c) (log c')).
Proof.
  intros Hcap Hcap8 Hlen Hlen8. unfold hash.
  change KECCAK_STATE_LENGTH with 1600.
  set (rate := 1600 - capacity).
  set (messageFormatted :=
         match inpEndian with Big => message | Little => rev message end).
  assert (Hrate8 : (8 | rate)).
  { destruct Hcap8 as [q ->]. exists (200 - q). subst rate. lia. }
  assert (H8 : 8 <= rate) by (destruct Hrate8 as [q Hq]; lia).
  assert (Hmax : rate / 8 <= JS.MAX_ARRAY_LENGTH).
  { unfold JS.MAX_ARRAY_LENGTH.
    apply Z.div_le_upper_bound; [lia|]. subst rate. lia. }
  assert (Hmf : forall m, In m message <-> In m messageFormatted).
  { intros m. subst messageFormatted.
    destruct inpEndian; [reflexivity|apply in_rev]. }
  replace (capacity >? 0) with true by (symmetry; apply Z.gtb_lt; lia).
  replace (capacity <? 1600) with true by (symmetry; apply Z.ltb_lt; lia).
  replace (length >? 0) with true by (symmetry; apply Z.gtb_lt; lia).
  replace (Z.rem length 8 =? 0) with true.
  2:{ symmetry. apply Z.eqb_eq. apply Z.rem_divide; [lia|exact Hlen8]. }
  unfold assert. do 4 (unfold bind at 1; unfold ret at 1).
  assert (Hchecks : exists c1,
             (if byteChecks then checkBytes messageFormatted else ret tt) c
             = (Ok tt, c1) /\
             incl (log c) (log c1) /\
             (byteChecks = true ->
              forall m, In m message -> In (RangeCheck8 m) (log c1)) /\
             (Forall is_byte message -> honest_extension (log c) (log c1))).
  { destruct byteChecks.
    - eexists. split; [apply checkBytes_run|]. cbn [log].
      split; [apply incl_appr, incl_refl|]. split.
      + intros _ m Hm. apply in_or_app. left. apply -> in_rev.
        apply in_map. now apply Hmf.
      + intros Hb. apply extension_app. apply rangeChecks_hold.
        apply Forall_forall. intros m Hm. apply Hmf in Hm.
        rewrite Forall_forall in Hb. now apply Hb.
    - exists c. split; [reflexivity|]. split; [apply incl_refl|].
      split; [discriminate|]. intros _. apply extension_done. }
  destruct Hchecks as (c1 & Hchecks & Hl1 & Hin1 & Hh1).
  rewrite (bind_ok _ _ _ _ _ Hchecks).
  assert (Hpad : exists pad,
             (if nistVersion then padNist messageFormatted rate
              else pad101 messageFormatted rate) c1
             = (Ok (messageFormatted ++ pad), c1) /\
             Forall is_byte pad /\
             Z.of_nat (List.length pad)
             = rate / 8
               - Z.of_nat (List.length messageFormatted) mod (rate / 8)).
  { assert (Hp : forall first, 0 <= first <= 127 ->
               exists pad,
                 (pad0 <- Array_fill
                            (bytesToPad rate
                               (Z.of_nat (List.length messageFormatted)))
                            (from 0) ;;
                  let pad1 := JS.set pad0 0 (from first) in
                  lastByte <-
                    get_at pad1
                      (JS.sub (bytesToPad rate
                                 (Z.of_nat (List.length messageFormatted)))
                              (JS.Int 1)) ;;
                  let pad2 :=
                    set_at pad1
                      (JS.sub (bytesToPad rate
                                 (Z.of_nat (List.length messageFormatted)))
                              (JS.Int 1))
                      (Add lastByte (from (2 ^ 7)))
                  in ret (messageFormatted ++ pad2)) c1
                 = (Ok (messageFormatted ++ pad), c1) /\
                 Forall is_byte pad /\
                 Z.of_nat (List.length pad)
                 = rate / 8
                   - Z.of_nat (List.length messageFormatted) mod (rate / 8)).
    { intros first Hfirst.
      destruct (pad_body_content rate first messageFormatted c1 H8 Hmax
                                 Hfirst) as (pad & Hrun & Hvals & Hl & _).
      exists pad. split; [exact Hrun|]. split; [|exact Hl].
      change (Forall (fun x => (fun v => 0 <= v <= 255) (toBigInt x)) pad).
      rewrite <- Forall_map, Hvals.
      now apply padding_bytes_are_bytes. }
    destruct nistVersion; [exact (Hp 6 ltac:(lia))|exact (Hp 1 ltac:(lia))]. }
  destruct Hpad as (pad & Hpad & Hpadb & Hextra).
  rewrite (bind_ok _ _ _ _ _ Hpad).
  assert (Haligned : (Z.of_nat (List.length (messageFormatted ++ pad)) * 8)
                     mod rate = 0).
  { rewrite length_app, Nat2Z.inj_add, Hextra.
    apply bytesToPad_aligned; [exact H8|lia|exact Hrate8]. }
  destruct (sponge_keeps (messageFormatted ++ pad) length capacity rate c1)
    as (bytes & c4 & Hsponge & Hb200 & Hbb & Hl4 & Hh4);
    [lia|exact Hcap8|reflexivity|subst rate; lia|exact Haligned|].
  rewrite (bind_ok _ _ _ _ _ Hsponge).
  rewrite (bind_ok _ _ _ _ _ (checkBytes_run _ c4)).
  eexists. eexists. split; [reflexivity|].
  assert (Hl : 0 <= length / 8 <= 200).
  { split; [apply Z.div_pos; lia|].
    apply Z.div_le_upper_bound; subst rate; lia. }
  set (digest := firstn (Z.to_nat (length / 8)) bytes).
  assert (Hdb : Forall is_byte digest) by now apply firstn_bytes.
  assert (Hout : forall d,
             In d (match outEndian with
                   | Big => digest | Little => rev digest end)
             <-> In d digest).
  { intros d. destruct outEndian; [reflexivity|symmetry; apply in_rev]. }
  split.
  { subst digest.
    destruct outEndian; rewrite ?length_rev, firstn_length_le; lia. }
  split.
  { apply Forall_forall. intros d Hd. apply Hout in Hd.
    rewrite Forall_forall in Hdb. now apply Hdb. }
  cbn [log]. split.
  { intros d Hd. apply Hout in Hd. apply in_or_app. left.
    apply -> in_rev. now apply in_map. }
  split.
  { apply incl_appr. eapply incl_tran; eassumption. }
  split.
  { intros Hbc m Hm. apply in_or_app. right. apply Hl4.
    now apply Hin1. }
  intros Hb.
  eapply extension_trans; [apply Hh1; exact Hb|].
  eapply extension_trans.
  - apply Hh4. apply Forall_app. split; [|exact Hpadb].
    apply Forall_forall. intros m Hm. apply Hmf in Hm.
    rewrite Forall_forall in Hb. now apply Hb.
  - apply extension_app. now apply rangeChecks_hold.
Qed.

(** ** Sponge: errors and absorption *)

(** X17: [sponge] rejects a padded message whose bit length is not a
    multiple of the rate (a rate of zero included) with the error "Invalid
    padded message length", before it declares the round constants: the
    circuit is left as it was. *)
Theorem sponge_rejects_unaligned_message
        (paddedMessage : list Field) (length capacity rate : Z)
        (c : Circuit) :
  rate = 0 \/ Z.rem (Z.of_nat (List.length paddedMessage) * 8) rate <> 0 ->
  sponge paddedMessage length capacity rate c
  = (Throw (JS.ConfigurationError "Invalid padded message length"), c).
Proof.
  intros H. unfold sponge, JS.rem.
  destruct (Z.eqb_spec rate 0) as [E|E]; [reflexivity|].
  destruct H as [H|H]; [contradiction|].
  destruct (Z.rem (Z.of_nat (List.length paddedMessage) * 8) rate);
    [contradiction|reflexivity|reflexivity].
Qed.

Lemma sponge_rejects_unaligned_message_witness :
  sponge [from 1; from 128] 256 512 1088 empty
  = (Throw (JS.ConfigurationError "Invalid padded message length"), empty).
Proof.
  apply (sponge_rejects_unaligned_message [from 1; from 128] 256 512 1088
                                          empty).
  right. vm_compute. discriminate.
Defined.

(** X18: when rate and capacity do not add up to 1600 bits, [absorb] stops
    at the first block with the error "improper Keccak block length", the
    circuit left as it was. *)
Theorem absorb_rejects_wrong_block_length
        (paddedMessage rc : list Field) (capacity rate : Z) (c : Circuit) :
  0 <= capacity -> (8 | capacity) -> capacity / 8 <= JS.MAX_ARRAY_LENGTH ->
  0 < rate -> (8 | rate) ->
  rate / 8 <= Z.of_nat (length paddedMessage) ->
  rate + capacity <> KECCAK_STATE_LENGTH ->
  absorb paddedMessage capacity rate rc c
  = (Throw (JS.ConfigurationError "improper Keccak block length"), c).
Proof.
  intros Hcap [q Hq] Hmax Hrate [r Hr] Hlen Hsum. unfold absorb.
  change KECCAK_STATE_LENGTH with 1600 in *.
  assert (Hcm : capacity mod 8 = 0) by (rewrite Hq; apply Z_mod_mult).
  assert (Hcd : capacity / 8 = q) by (rewrite Hq; apply Z.div_mul; lia).
  assert (Hrm : rate mod 8 = 0) by (rewrite Hr; apply Z_mod_mult).
  assert (Hrd : rate / 8 = r) by (rewrite Hr; apply Z.div_mul; lia).
  rewrite Hcm, Hrm, Hcd, Hrd in *. change (0 =? 0) with true. cbv iota.
  erewrite bind_ok by (apply Array_fill_ok; lia).
  destruct (Z.ltb_spec 0 rate); [|lia]. cbn [andb].
  destruct (length paddedMessage) as [|n] eqn:E; [simpl in Hlen; lia|].
  cbn [absorb_loop]. rewrite <- E in *.
  destruct (Z.ltb_spec 0 (Z.of_nat (length paddedMessage))); [|lia].
  rewrite length_app, slice_length, repeat_length by lia.
  change KECCAK_STATE_LENGTH with 1600.
  replace (Z.of_nat (Z.to_nat (0 + r - 0) + Z.to_nat q) * 8 =? 1600)
    with false; [reflexivity|].
  symmetry. apply Z.eqb_neq. lia.
Qed.

Lemma absorb_rejects_wrong_block_length_witness :
  absorb (map from (repeat 0 136)) 256 1088 (map from ROUND_CONSTANTS) empty
  = (Throw (JS.ConfigurationError "improper Keccak block length"), empty).
Proof.
  apply (absorb_rejects_wrong_block_length
           (map from (repeat 0 136)) (map from ROUND_CONSTANTS) 256 1088
           empty).
  - lia.
  - exists 32. reflexivity.
  - vm_compute. discriminate.
  - lia.
  - exists 136. reflexivity.
  - vm_compute. discriminate.
  - vm_compute. discriminate.
Defined.

(** X19: for a capacity that is a positive multiple of 8, the rate
    [1600 - capacity] and a padded message of whole blocks of bytes,
    [absorb] with 64-bit round constants returns a state of 5 x 5 lanes of
    64 bits, and every constraint it adds to the circuit holds. *)
Theorem absorb_returns_words
        (paddedMessage rc : list Field) (capacity rate : Z) (c : Circuit) :
  0 < capacity -> (8 | capacity) -> rate = KECCAK_STATE_LENGTH - capacity ->
  0 < rate ->
  (Z.of_nat (length paddedMessage) * 8) mod rate = 0 ->
  Forall is_byte paddedMessage ->
  Forall (fun r => word (toBigInt r)) rc ->
  exists state c',
    absorb paddedMessage capacity rate rc c = (Ok state, c') /\
    well_formed state /\ words state /\
    honest_extension (log c) (log c').
Proof.
  intros Hcap Hcap8 Hrate Hpos Hal Hb Hrc.
  destruct (absorb_keeps paddedMessage rc capacity rate c
                         Hcap Hcap8 Hrate Hpos Hal)
    as (state & c' & Hrun & Hwf & _ & Hh).
  destruct (Hh Hb Hrc) as [Hw He]. exists state, c'. conjuncts; auto.
Qed.

Lemma absorb_returns_words_witness :
  exists state c',
    absorb (map from (repeat 1 136)) 512 1088 (map from ROUND_CONSTANTS)
           empty
    = (Ok state, c') /\
    well_formed state /\ words state /\
    honest_extension (log empty) (log c').
Proof.
  apply (absorb_returns_words (map from (repeat 1 136))
                              (map from ROUND_CONSTANTS) 512 1088 empty).
  - lia.
  - exists 64. reflexivity.
  - reflexivity.
  - lia.
  - reflexivity.
  - repeat (apply Forall_cons; [split; vm_compute; discriminate|]).
    apply Forall_nil.
  - repeat (apply Forall_cons || apply Forall_nil);
      (vm_compute; split; [discriminate|reflexivity]).
Defined.

Lemma hash_rejects_misaligned_capacity_witness :
  exists e c',
    hash Big Big false [] 256 12 false empty = (Throw e, c').
Proof.
  apply (hash_rejects_misaligned_capacity Big Big false [] 256 12 false
                                          empty).
  vm_compute. discriminate.
Defined.

Lemma squeeze_two_chunks_witness :
  let chunk :=
    firstn (Z.to_nat (1088 / 8))
           (map (byte_value getKeccakStateZeros) (seq 0 200)) in
  exists digest c',
    squeeze getKeccakStateZeros 1096 1088 (map from ROUND_CONSTANTS) empty
    = (Ok digest, c') /\
    map toBigInt digest = firstn (Z.to_nat (1096 / 8)) (chunk ++ chunk).
Proof.
  apply (squeeze_two_chunks getKeccakStateZeros 1096 1088
                            (map from ROUND_CONSTANTS) empty).
  - split; [reflexivity|repeat constructor].
  - exists 136. reflexivity.
  - lia.
  - lia.
Defined.

(** ** Hash facade: digest, range checks and endianness *)

(** X22: for a capacity that is a multiple of 8 and an output shorter than
    the rate, [hash] returns [length / 8] witnesses with byte values, and
    the circuit it leaves holds a range check to 8 bits of every one of
    them. *)
Theorem hash_digest_is_range_checked
        (inpEndian outEndian : Endian) (byteChecks : bool)
        (message : list Field) (length capacity : Z) (nistVersion : bool)
        (c : Circuit) :
  0 < capacity < 1600 -> (8 | capacity) ->
  0 < length < 1600 - capacity -> (8 | length) ->
  exists digest c',
    hash inpEndian outEndian byteChecks message length capacity nistVersion c
    = (Ok digest, c') /\
    Z.of_nat (List.length digest) = length / 8 /\
    Forall is_byte digest /\
    forall d, In d digest -> In (RangeCheck8 d) (log c').
Proof.
  intros Hcap Hcap8 Hlen Hlen8.
  destruct (hash_run inpEndian outEndian byteChecks message length capacity
                     nistVersion c Hcap Hcap8 Hlen Hlen8)
    as (digest & c' & Hrun & Hl & Hb & Hrc & _).
  exists digest, c'. conjuncts; auto.
Qed.

Lemma hash_digest_is_range_checked_witness :
  exists digest c',
    hash Big Big false [from 97] 256 512 false empty = (Ok digest, c') /\
    Z.of_nat (List.length digest) = 256 / 8 /\
    Forall is_byte digest /\
    forall d, In d digest -> In (RangeCheck8 d) (log c').
Proof.
  apply (hash_digest_is_range_checked Big Big false [from 97] 256 512 false
                                      empty).
  - lia.
  - exists 64. reflexivity.
  - lia.
  - exists 32. reflexivity.
Defined.

(** X23: with [byteChecks] set, the circuit [hash] leaves holds a range
    check to 8 bits of every byte of the message; and whatever the flag,
    [hash] drops no constraint the circuit held before the call. *)
Theorem hash_range_checks_message
        (inpEndian outEndian : Endian) (byteChecks : bool)
        (message : list Field) (length capacity : Z) (nistVersion : bool)
        (c : Circuit) :
  0 < capacity < 1600 -> (8 | capacity) ->
  0 < length < 1600 - capacity -> (8 | length) ->
  exists digest c',
    hash inpEndian outEndian byteChecks message length capacity nistVersion c
    = (Ok digest, c') /\
    incl (log c) (log c') /\
    (byteChecks = true ->
     forall m, In m message -> In (RangeCheck8 m) (log c')).
Proof.
  intros Hcap Hcap8 Hlen Hlen8.
  destruct (hash_run inpEndian outEndian byteChecks message length capacity
                     nistVersion c Hcap Hcap8 Hlen Hlen8)
    as (digest & c' & Hrun & _ & _ & _ & Hincl & Hin & _).
  exists digest, c'. conjuncts; auto.
Qed.

Lemma hash_range_checks_message_witness :
  exists digest c',
    hash Little Big true [from 97; from 98] 256 512 true empty
    = (Ok digest, c') /\
    incl (log empty) (log c') /\
    (true = true ->
     forall m, In m [from 97; from 98] -> In (RangeCheck8 m) (log c')).
Proof.
  apply (hash_range_checks_message Little Big true [from 97; from 98]
                                   256 512 true empty).
  - lia.
  - exists 64. reflexivity.
  - lia.
  - exists 32. reflexivity.
Defined.

(** X24: on a message of bytes the values that the run of [hash] gives to
    its witnesses satisfy every constraint it adds: the range checks, the
    XOR, AND and rotation gates of the permutation and the recomposition of
    the lanes from the output bytes.  A circuit that was satisfied before
    the call is satisfied after it. *)
Theorem hash_honest_run_is_satisfied
        (inpEndian outEndian : Endian) (byteChecks : bool)
        (message : list Field) (length capacity : Z) (nistVersion : bool)
        (c : Circuit) :
  0 < capacity < 1600 -> (8 | capacity) ->
  0 < length < 1600 - capacity -> (8 | length) ->
  Forall is_byte message ->
  satisfied c = true ->
  exists digest c',
    hash inpEndian outEndian byteChecks message length capacity nistVersion c
    = (Ok digest, c') /\
    honest_extension (log c) (log c') /\
    satisfied c' = true.
Proof.
  intros Hcap Hcap8 Hlen Hlen8 Hb Hsat.
  destruct (hash_run inpEndian outEndian byteChecks message length capacity
                     nistVersion c Hcap Hcap8 Hlen Hlen8)
    as (digest & c' & Hrun & _ & _ & _ & _ & _ & Hh).
  exists digest, c'. split; [exact Hrun|]. split; [auto|].
  apply (extension_satisfied c c'); auto.
Qed.

Lemma hash_honest_run_is_satisfied_witness :
  exists digest c',
    hash Big Little true [from 97; from 98; from 99] 512 1024 true empty
    = (Ok digest, c') /\
    honest_extension (log empty) (log c') /\
    satisfied c' = true.
Proof.
  apply (hash_honest_run_is_satisfied Big Little true
           [from 97; from 98; from 99] 512 1024 true empty).
  - lia.
  - exists 128. reflexivity.
  - lia.
  - exists 64. reflexivity.
  - repeat (apply Forall_cons; [split; vm_compute; discriminate|]).
    apply Forall_nil.
  - reflexivity.
Defined.

Lemma bind_reversed {A} (m : M A) (k k' : A -> M (list Field))
      (c : Circuit) :
  (forall a c', k' a c' = reversed (k a c')) ->
  bind m k' c = reversed (bind m k c).
Proof.
  intros H. unfold bind. destruct (m c) as [[a|e] c']; [apply H|reflexivity].
Qed.

(** X25: the endianness flags of [hash] only reverse byte strings: a
    little-endian input is the big-endian input reversed, and the
    little-endian output is the big-endian output reversed, the circuit and
    the errors being the same. *)
Theorem hash_endianness
        (inpEndian outEndian : Endian) (byteChecks : bool)
        (message : list Field) (length capacity : Z) (nistVersion : bool)
        (c : Circuit) :
  hash Little outEndian byteChecks message length capacity nistVersion c
  = hash Big outEndian byteChecks (rev message) length capacity nistVersion c
  /\
  hash inpEndian Little byteChecks message length capacity nistVersion c
  = reversed
      (hash inpEndian Big byteChecks message length capacity nistVersion c).
Proof.
  split; [reflexivity|]. unfold hash.
  do 8 (apply bind_reversed; intros ? ?; cbv zeta). reflexivity.
Qed.

(** X26: [nistSha3] and [preNist] reject every output length other than
    224, 256, 384 and 512 with the error "Invalid length", the circuit left
    as it was. *)
Theorem variants_reject_other_lengths
        (len : Z) (message : list Field) (inpEndian outEndian : Endian)
        (byteChecks : bool) (c : Circuit) :
  ~ In len [224; 256; 384; 512] ->
  nistSha3 len message inpEndian outEndian byteChecks c
  = (Throw (JS.ConfigurationError "Invalid length"), c) /\
  preNist len message inpEndian outEndian byteChecks c
  = (Throw (JS.ConfigurationError "Invalid length"), c).
Proof.
  intros Hin. unfold nistSha3, preNist.
  destruct len as [|p|p]; [split; reflexivity| |split; reflexivity].
  do 10 (try (destruct p as [p|p|]; try (split; reflexivity))).
  all: exfalso; apply Hin; simpl; tauto.
Qed.

Lemma variants_reject_other_lengths_witness :
  nistSha3 128 [from 97] Big Big false empty
  = (Throw (JS.ConfigurationError "Invalid length"), empty) /\
  preNist 128 [from 97] Big Big false empty
  = (Throw (JS.ConfigurationError "Invalid length"), empty).
Proof.
  apply (variants_reject_other_lengths 128 [from 97] Big Big false empty).
  simpl. intros [H|[H|[H|[H|[]]]]]; discriminate H.
Defined.

Lemma public_variants_return_digest_witness :
  (exists digest c',
      nistSha3 384 [from 97] Big Big false empty = (Ok digest, c')
      /\ Z.of_nat (length digest) = 384 / 8) /\
  (exists digest c',
      preNist 384 [from 97] Big Big false empty = (Ok digest, c')
      /\ Z.of_nat (length digest) = 384 / 8) /\
  (exists digest c',
      ethereum Big Big false [from 97] empty = (Ok digest, c')
      /\ Z.of_nat (length digest) = 32).
Proof.
  apply (public_variants_return_digest 384 [from 97] Big Big false empty).
  simpl. tauto.
Defined.

(** ** The values of a run depend on the values of its input only *)

Ltac same_run Hstep Hrun :=
  let E := fresh "E" in
  pose proof Hstep as E; rewrite Hrun in E;
  injection E as <- <-.

Lemma theta_same (s s' : State) (c c' : Circuit) :
  well_formed s -> well_formed s' -> same_values s s' ->
  forall s1 c1 s1' c1',
    theta s c = (Ok s1, c1) -> theta s' c' = (Ok s1', c1') ->
    same_values s1 s1'.
Proof.
  intros Hwf Hwf' Hsv s1 c1 s1' c1' Hrun Hrun'.
  destruct (theta_step s c Hwf) as (t & d & R & _ & _ & _ & _ & F).
  destruct (theta_step s' c' Hwf') as (t' & d' & R' & _ & _ & _ & _ & F').
  same_run R Hrun. same_run R' Hrun'.
  intros x y Hx Hy. rewrite F, F' by assumption.
  unfold theta_effect, column_parity.
  repeat rewrite Hsv by (try apply Nat.mod_upper_bound; lia).
  reflexivity.
Qed.

Lemma piRho_same (s s' : State) (c c' : Circuit) :
  well_formed s -> well_formed s' -> same_values s s' ->
  forall s1 c1 s1' c1',
    piRho s c = (Ok s1, c1) -> piRho s' c' = (Ok s1', c1') ->
    same_values s1 s1'.
Proof.
  intros Hwf Hwf' Hsv s1 c1 s1' c1' Hrun Hrun'.
  destruct (piRho_step s c Hwf) as (t & d & R & _ & _ & _ & _ & F & Hall).
  destruct (piRho_step s' c' Hwf') as (t' & d' & R' & _ & _ & _ & _ & F' & _).
  same_run R Hrun. same_run R' Hrun'.
  intros x' y' Hx' Hy'.
  destruct (Hall x' y' Hx' Hy') as (x & y & Hx & Hy & -> & ->).
  rewrite F, F', Hsv by assumption. reflexivity.
Qed.

Lemma chi_same (s s' : State) (c c' : Circuit) :
  well_formed s -> well_formed s' -> words s -> words s' ->
  same_values s s' ->
  forall s1 c1 s1' c1',
    chi s c = (Ok s1, c1) -> chi s' c' = (Ok s1', c1') ->
    same_values s1 s1'.
Proof.
  intros Hwf Hwf' Hw Hw' Hsv s1 c1 s1' c1' Hrun Hrun'.
  destruct (chi_step s c Hwf) as (t & d & R & _ & _ & _ & _ & F).
  destruct (chi_step s' c' Hwf') as (t' & d' & R' & _ & _ & _ & _ & F').
  same_run R Hrun. same_run R' Hrun'.
  intros x y Hx Hy. rewrite (F Hw), (F' Hw') by assumption.
  repeat rewrite Hsv by (try apply Nat.mod_upper_bound; lia).
  reflexivity.
Qed.

Lemma iota_same (s s' : State) (rc rc' : Field) (c c' : Circuit) :
  well_formed s -> well_formed s' -> same_values s s' ->
  toBigInt rc = toBigInt rc' ->
  forall s1 c1 s1' c1',
    iota s rc c = (Ok s1, c1) -> iota s' rc' c' = (Ok s1', c1') ->
    same_values s1 s1'.
Proof.
  intros Hwf Hwf' Hsv Hrc s1 c1 s1' c1' Hrun Hrun'.
  destruct (iota_step s rc c Hwf) as (t & o & R & _ & _ & _ & F & G).
  destruct (iota_step s' rc' c' Hwf') as (t' & o' & R' & _ & _ & _ & F' & G').
  rewrite Hrun in R. injection R as <- _.
  rewrite Hrun' in R'. injection R' as <- _.
  intros x y Hx Hy.
  destruct x as [|x]; [destruct y as [|y]|].
  - rewrite F, F', Hrc, Hsv by lia. reflexivity.
  - rewrite G, G' by (try lia; discriminate). now apply Hsv.
  - rewrite G, G' by (try lia; discriminate). now apply Hsv.
Qed.

Lemma keccakStateXor_same (a a' b b' : State) (c c' : Circuit) :
  well_formed a -> well_formed a' -> well_formed b -> well_formed b' ->
  same_values a a' -> same_values b b' ->
  forall s1 c1 s1' c1',
    keccakStateXor a b c = (Ok s1, c1) ->
    keccakStateXor a' b' c' = (Ok s1', c1') ->
    same_values s1 s1'.
Proof.
  intros Ha Ha' Hb Hb' Hsa Hsb s1 c1 s1' c1' Hrun Hrun'.
  destruct (keccakStateXor_step a b c Ha Hb)
    as (t & d & R & _ & _ & _ & _ & F).
  destruct (keccakStateXor_step a' b' c' Ha' Hb')
    as (t' & d' & R' & _ & _ & _ & _ & F').
  same_run R Hrun. same_run R' Hrun'.
  intros x y Hx Hy. rewrite F, F', Hsa, Hsb by assumption. reflexivity.
Qed.

Lemma round_same (s s' : State) (rc rc' : Field) (c c' : Circuit) :
  well_formed s -> well_formed s' -> words s -> words s' ->
  same_values s s' -> toBigInt rc = toBigInt rc' ->
  forall s1 c1 s1' c1',
    round s rc c = (Ok s1, c1) -> round s' rc' c' = (Ok s1', c1') ->
    same_values s1 s1'.
Proof.
  intros Hwf Hwf' Hw Hw' Hsv Hrc s1 c1 s1' c1'. unfold round.
  destruct (theta_step s c Hwf) as (e & d1 & HE & HwfE & HwE & _).
  destruct (theta_step s' c' Hwf') as (e' & d1' & HE' & HwfE' & HwE' & _).
  rewrite (bind_ok _ _ _ _ _ HE), (bind_ok _ _ _ _ _ HE').
  pose proof (theta_same s s' c c' Hwf Hwf' Hsv _ _ _ _ HE HE') as HsE.
  destruct (piRho_step e d1 HwfE) as (b & d2 & HB & HwfB & HwB & _).
  destruct (piRho_step e' d1' HwfE') as (b' & d2' & HB' & HwfB' & HwB' & _).
  rewrite (bind_ok _ _ _ _ _ HB), (bind_ok _ _ _ _ _ HB').
  pose proof (piRho_same e e' d1 d1' HwfE HwfE' HsE _ _ _ _ HB HB') as HsB.
  destruct (chi_step b d2 HwfB) as (f & d3 & HF & HwfF & _).
  destruct (chi_step b' d2' HwfB') as (f' & d3' & HF' & HwfF' & _).
  rewrite (bind_ok _ _ _ _ _ HF), (bind_ok _ _ _ _ _ HF').
  pose proof (chi_same b b' d2 d2' HwfB HwfB' (HwB (HwE Hw))
                       (HwB' (HwE' Hw')) HsB _ _ _ _ HF HF') as HsF.
  destruct (iota_step f rc d3 HwfF) as (g & o & HG & _).
  destruct (iota_step f' rc' d3' HwfF') as (g' & o' & HG' & _).
  rewrite (bind_ok _ _ _ _ _ HG), (bind_ok _ _ _ _ _ HG').
  unfold ret. intros H H'. injection H as <- _. injection H' as <- _.
  exact (iota_same f f' rc rc' d3 d3' HwfF HwfF' HsF Hrc _ _ _ _ HG HG').
Qed.

Lemma permutation_same (rc : list Field) :
  forall (rc' : list Field) (s s' : State) (c c' : Circuit),
    well_formed s -> well_formed s' -> words s -> words s' ->
    same_values s s' ->
    map toBigInt rc = map toBigInt rc' ->
    Forall (fun r => word (toBigInt r)) rc ->
    forall s1 c1 s1' c1',
      permutation s rc c = (Ok s1, c1) ->
      permutation s' rc' c' = (Ok s1', c1') ->
      same_values s1 s1'.
Proof.
  unfold permutation.
  induction rc as [|r rc IH]; intros [|r' rc'] s s' c c' Hwf Hwf' Hw Hw' Hsv
    Hvals Hrc s1 c1 s1' c1'; try discriminate Hvals; cbn [foldM].
  - unfold ret. intros H H'. injection H as <- _. injection H' as <- _.
    exact Hsv.
  - cbn [map] in Hvals. injection Hvals as Hr Hvals.
    apply Forall_cons_iff in Hrc. destruct Hrc as [Hrw Hrc].
    assert (Hrw' : word (toBigInt r')) by now rewrite <- Hr.
    destruct (round_keeps s r c Hwf) as (t & d & R & Hwft & _ & Hk).
    destruct (round_keeps s' r' c' Hwf') as (t' & d' & R' & Hwft' & _ & Hk').
    rewrite (bind_ok _ _ _ _ _ R), (bind_ok _ _ _ _ _ R').
    apply IH; try assumption.
    + now apply Hk.
    + now apply Hk'.
    + exact (round_same s s' r r' c c' Hwf Hwf' Hw Hw' Hsv Hr _ _ _ _ R R').
Qed.

Lemma lane_bytes_map (b : list Field) (k : nat) :
  map toBigInt (lane_bytes b k)
  = firstn 8 (skipn (8 * k) (map toBigInt b)).
Proof. unfold lane_bytes. now rewrite skipn_map, firstn_map. Qed.

Lemma getKeccakStateOfBytes_same (b b' : list Field) (c c' : Circuit) :
  length b = 200%nat -> Forall is_byte b ->
  map toBigInt b = map toBigInt b' ->
  exists s s',
    getKeccakStateOfBytes b c = (Ok s, c) /\
    getKeccakStateOfBytes b' c' = (Ok s', c') /\
    well_formed s /\ well_formed s' /\ words s /\ words s' /\
    same_values s s'.
Proof.
  intros Hlen Hb Hvals.
  assert (Hlen' : length b' = 200%nat).
  { rewrite <- (length_map toBigInt), <- Hvals, length_map. exact Hlen. }
  assert (Hb' : Forall is_byte b').
  { change (Forall (fun x => (fun v => 0 <= v <= 255) (toBigInt x)) b').
    rewrite <- Forall_map, <- Hvals, Forall_map. exact Hb. }
  destruct (getKeccakStateOfBytes_lanes b c Hlen Hb)
    as (s & Hrun & Hwf & Hw & F).
  destruct (getKeccakStateOfBytes_lanes b' c' Hlen' Hb')
    as (s' & Hrun' & Hwf' & Hw' & F').
  exists s, s'. conjuncts; try assumption.
  intros x y Hx Hy. rewrite F, F', !lane_bytes_map, Hvals by assumption.
  reflexivity.
Qed.

Lemma slice_map {A B} (f : A -> B) (a : list A) (start stop : Z) :
  map f (JS.slice a start stop) = JS.slice (map f a) start stop.
Proof.
  unfold JS.slice. now rewrite length_map, skipn_map, firstn_map.
Qed.

Lemma keccakStateToBytes_same (s s' : State) (c c' : Circuit) :
  well_formed s -> well_formed s' -> same_values s s' ->
  exists bytes c1 bytes' c1',
    keccakStateToBytes s c = (Ok bytes, c1) /\
    keccakStateToBytes s' c' = (Ok bytes', c1') /\
    map toBigInt bytes = map toBigInt bytes'.
Proof.
  intros Hwf Hwf' Hsv.
  destruct (keccakStateToBytes_values s c Hwf) as (bytes & c1 & R & V).
  destruct (keccakStateToBytes_values s' c' Hwf') as (bytes' & c1' & R' & V').
  exists bytes, c1, bytes', c1'. split; [exact R|]. split; [exact R'|].
  rewrite V, V'. apply map_ext_in. intros idx Hidx. apply in_seq in Hidx.
  unfold byte_value. rewrite Hsv; [reflexivity| |].
  - apply Nat.mod_upper_bound. discriminate.
  - change BYTES_PER_WORD with 8%nat. change KECCAK_DIM with 5%nat.
    apply Nat.Div0.div_lt_upper_bound.
    apply Nat.Div0.div_lt_upper_bound. lia.
Qed.

Lemma same_values_bytes (a a' : list Field) :
  map toBigInt a = map toBigInt a' ->
  length a = length a' /\ (Forall is_byte a -> Forall is_byte a').
Proof.
  intros H. split.
  - rewrite <- (length_map toBigInt a), H. apply length_map.
  - intros Hb.
    change (Forall (fun x => (fun v => 0 <= v <= 255) (toBigInt x)) a').
    rewrite <- Forall_map, <- H, Forall_map. exact Hb.
Qed.

Lemma bind_assert_true {B} (msg : string) (k : unit -> M B) (c : Circuit) :
  bind (assert true msg) k c = k tt c.
Proof. reflexivity. Qed.

Lemma absorb_loop_same (paddedMessage paddedMessage' zeros rc rc' : list Field)
      (step : Z) :
  1 <= step ->
  (Z.to_nat step + length zeros = 200)%nat ->
  map toBigInt paddedMessage = map toBigInt paddedMessage' ->
  Forall is_byte paddedMessage -> Forall is_byte zeros ->
  map toBigInt rc = map toBigInt rc' ->
  Forall (fun r => word (toBigInt r)) rc ->
  forall (blocks fuel : nat) (i : Z) (s s' : State) (c c' : Circuit),
    well_formed s -> well_formed s' -> words s -> words s' ->
    same_values s s' ->
    0 <= i ->
    Z.of_nat (length paddedMessage) = i + Z.of_nat blocks * step ->
    (blocks <= fuel)%nat ->
    exists s1 c1 s1' c1',
      absorb_loop fuel paddedMessage zeros step rc i s c = (Ok s1, c1) /\
      absorb_loop fuel paddedMessage' zeros step rc' i s' c' = (Ok s1', c1') /\
      well_formed s1 /\ well_formed s1' /\ same_values s1 s1'.
Proof.
  intros Hstep Hzeros Hpm Hb Hz Hrc Hrcw.
  destruct (same_values_bytes _ _ Hpm) as [Hlen' Hb']. specialize (Hb' Hb).
  assert (Hrcw' : Forall (fun r => word (toBigInt r)) rc').
  { rewrite <- Forall_map, <- Hrc, Forall_map. exact Hrcw. }
  induction blocks as [|blocks IH];
    intros fuel i s s' c c' Hwf Hwf' Hw Hw' Hsv Hi Hlen Hfuel.
  - exists s, c, s', c'.
    split.
    { destruct fuel; cbn [absorb_loop];
        (destruct (Z.ltb_spec i (Z.of_nat (length paddedMessage))); [lia|]);
        reflexivity. }
    split.
    { destruct fuel; cbn [absorb_loop]; rewrite <- Hlen';
        (destruct (Z.ltb_spec i (Z.of_nat (length paddedMessage))); [lia|]);
        reflexivity. }
    auto.
  - destruct fuel as [|fuel]; [lia|]. cbn [absorb_loop]. rewrite <- Hlen'.
    destruct (Z.ltb_spec i (Z.of_nat (length paddedMessage))); [|nia].
    assert (Hblock : length (JS.slice paddedMessage i (i + step) ++ zeros)
                     = 200%nat).
    { rewrite length_app, slice_length by nia.
      replace (i + step - i) with step by lia. exact Hzeros. }
    assert (Hblock' : length (JS.slice paddedMessage' i (i + step) ++ zeros)
                      = 200%nat).
    { rewrite length_app, slice_length by (rewrite <- ?Hlen'; nia).
      replace (i + step - i) with step by lia. exact Hzeros. }
    rewrite Hblock, Hblock'.
    change (Z.of_nat 200 * 8 =? KECCAK_STATE_LENGTH) with true.
    rewrite !bind_assert_true.
    destruct (getKeccakStateOfBytes_same
                (JS.slice paddedMessage i (i + step) ++ zeros)
                (JS.slice paddedMessage' i (i + step) ++ zeros) c c' Hblock)
      as (b & b' & Hbs & Hbs' & Hwfb & Hwfb' & Hwb & Hwb' & Hsb).
    { apply Forall_app. split; [now apply slice_bytes|exact Hz]. }
    { rewrite !map_app, !slice_map, Hpm. reflexivity. }
    rewrite (bind_ok _ _ _ _ _ Hbs), (bind_ok _ _ _ _ _ Hbs').
    destruct (keccakStateXor_step s b c Hwf Hwfb)
      as (x & d1 & Hx & Hwfx & Hwx & _).
    destruct (keccakStateXor_step s' b' c' Hwf' Hwfb')
      as (x' & d1' & Hx' & Hwfx' & Hwx' & _).
    rewrite (bind_ok _ _ _ _ _ Hx), (bind_ok _ _ _ _ _ Hx').
    pose proof (keccakStateXor_same s s' b b' c c' Hwf Hwf' Hwfb Hwfb'
                                    Hsv Hsb _ _ _ _ Hx Hx') as Hsx.
    destruct (permutation_keeps rc x d1 Hwfx)
      as (p & d2 & Hp & Hwfp & _ & Hkp).
    destruct (permutation_keeps rc' x' d1' Hwfx')
      as (p' & d2' & Hp' & Hwfp' & _ & Hkp').
    rewrite (bind_ok _ _ _ _ _ Hp), (bind_ok _ _ _ _ _ Hp').
    apply IH; try assumption; try lia.
    + apply (Hkp (Hwx Hw Hwb) Hrcw).
    + apply (Hkp' (Hwx' Hw' Hwb') Hrcw').
    + exact (permutation_same rc rc' x x' d1 d1' Hwfx Hwfx'
               (Hwx Hw Hwb) (Hwx' Hw' Hwb') Hsx Hrc Hrcw _ _ _ _ Hp Hp').
Qed.

Lemma absorb_same (paddedMessage paddedMessage' rc rc' : list Field)
      (capacity rate : Z) (c c' : Circuit) :
  0 < capacity -> (8 | capacity) -> rate = KECCAK_STATE_LENGTH - capacity ->
  0 < rate ->
  (Z.of_nat (length paddedMessage) * 8) mod rate = 0 ->
  map toBigInt paddedMessage = map toBigInt paddedMessage' ->
  Forall is_byte paddedMessage ->
  map toBigInt rc = map toBigInt rc' ->
  Forall (fun r => word (toBigInt r)) rc ->
  exists s1 c1 s1' c1',
    absorb paddedMessage capacity rate rc c = (Ok s1, c1) /\
    absorb paddedMessage' capacity rate rc' c' = (Ok s1', c1') /\
    well_formed s1 /\ well_formed s1' /\ same_values s1 s1'.
Proof.
  intros Hcap [q Hq] Hrate Hpos Hmod Hpm Hb Hrc Hrcw. unfold absorb.
  change KECCAK_STATE_LENGTH with 1600 in Hrate.
  assert (Hcm : capacity mod 8 = 0) by (rewrite Hq; apply Z_mod_mult).
  assert (Hcd : capacity / 8 = q) by (rewrite Hq; apply Z.div_mul; lia).
  assert (Hr : rate = (200 - q) * 8) by lia.
  assert (Hrm : rate mod 8 = 0) by (rewrite Hr; apply Z_mod_mult).
  assert (Hrd : rate / 8 = 200 - q) by (rewrite Hr; apply Z.div_mul; lia).
  rewrite Hcm, Hrm, Hcd, Hrd. change (0 =? 0) with true. cbv iota.
  rewrite !(bind_ok _ _ _ _ _
              (Array_fill_ok q (from 0) _
                 ltac:(unfold JS.MAX_ARRAY_LENGTH; lia))).
  destruct (Z.ltb_spec 0 rate); [|lia]. cbn [andb].
  apply Z.mod_divide in Hmod; [|lia]. destruct Hmod as [m Hm].
  assert (Hlen : Z.of_nat (length paddedMessage) = m * (200 - q)) by lia.
  assert (Hm0 : 0 <= m) by nia.
  destruct (same_values_bytes _ _ Hpm) as [Hlen' _]. rewrite <- Hlen'.
  apply absorb_loop_same with (blocks := Z.to_nat m); try assumption.
  - lia.
  - rewrite repeat_length. lia.
  - apply Forall_forall. intros x Hx. apply repeat_spec in Hx. subst x.
    vm_compute. split; discriminate.
  - exact getKeccakStateZeros_well_formed.
  - exact getKeccakStateZeros_well_formed.
  - exact getKeccakStateZeros_words.
  - exact getKeccakStateZeros_words.
  - intros x y _ _. reflexivity.
  - lia.
  - lia.
  - apply Nat2Z.inj_le. rewrite Z2Nat.id, Hlen by lia.
    assert (1 <= 200 - q) by lia. nia.
Qed.

Lemma sponge_same (paddedMessage paddedMessage' : list Field)
      (length capacity rate : Z) (c c' : Circuit) :
  0 < capacity -> (8 | capacity) -> rate = KECCAK_STATE_LENGTH - capacity ->
  0 < length < rate ->
  (Z.of_nat (List.length paddedMessage) * 8) mod rate = 0 ->
  map toBigInt paddedMessage = map toBigInt paddedMessage' ->
  Forall is_byte paddedMessage ->
  exists bytes c1 bytes' c1',
    sponge paddedMessage length capacity rate c
    = (Ok (firstn (Z.to_nat (length / 8)) bytes), c1) /\
    sponge paddedMessage' length capacity rate c'
    = (Ok (firstn (Z.to_nat (length / 8)) bytes'), c1') /\
    map toBigInt bytes = map toBigInt bytes'.
Proof.
  intros Hcap Hcap8 Hrate Hlen Haligned Hpm Hb.
  assert (Hrate8 : (8 | rate)).
  { change KECCAK_STATE_LENGTH with 1600 in Hrate.
    destruct Hcap8 as [q ->]. exists (200 - q). lia. }
  assert (Hr1600 : rate <= 1600).
  { change KECCAK_STATE_LENGTH with 1600 in Hrate. lia. }
  destruct (same_values_bytes _ _ Hpm) as [Hlen' _].
  rewrite !sponge_single by (try assumption; lia).
  unfold sponge_one_squeeze, JS.rem. rewrite <- Hlen'.
  destruct (Z.eqb_spec rate 0); [lia|].
  rewrite Z.rem_mod_nonneg, Haligned by lia.
  destruct (exists_run 24 ROUND_CONSTANTS c) as (rc & c2 & Hrc & Hv & _).
  destruct (exists_run 24 ROUND_CONSTANTS c') as (rc' & c2' & Hrc' & Hv' & _).
  rewrite (bind_ok _ _ _ _ _ Hrc), (bind_ok _ _ _ _ _ Hrc').
  destruct (absorb_same paddedMessage paddedMessage' rc rc' capacity rate
                        c2 c2')
    as (s & c3 & s' & c3' & Ha & Ha' & Hwf & Hwf' & Hsv);
    try assumption; try lia.
  { now rewrite Hv, Hv'. }
  { rewrite <- Forall_map, Hv. exact round_constants_are_words. }
  rewrite (bind_ok _ _ _ _ _ Ha), (bind_ok _ _ _ _ _ Ha').
  destruct (keccakStateToBytes_same s s' c3 c3' Hwf Hwf' Hsv)
    as (bytes & c4 & bytes' & c4' & Hk & Hk' & Hvals).
  rewrite (bind_ok _ _ _ _ _ Hk), (bind_ok _ _ _ _ _ Hk').
  exists bytes, c4, bytes', c4'. conjuncts; auto.
Qed.

(** [hash] on a valid configuration, up to the call of [sponge]. *)
Lemma hash_unfolds
      (inpEndian outEndian : Endian) (byteChecks : bool)
      (message : list Field) (length capacity : Z) (nistVersion : bool)
      (c : Circuit) :
  0 < capacity < 1600 -> (8 | capacity) -> 0 < length -> (8 | length) ->
  let messageFormatted :=
    match inpEndian with Big => message | Little => rev message end in
  let rate := 1600 - capacity in
  let p := rate / 8 - Z.of_nat (List.length message) mod (rate / 8) in
  exists c1 pad,
    hash inpEndian outEndian byteChecks message length capacity nistVersion c
    = (digest <- sponge (messageFormatted ++ pad) length capacity rate ;;
       checkBytes digest ;;
       ret (match outEndian with Big => digest | Little => rev digest end))
        c1 /\
    map toBigInt pad
    = padding_bytes (if nistVersion then 6 else 1) (Z.to_nat p) /\
    Z.of_nat (List.length pad) = p /\
    log c1
    = (if byteChecks then rev (map RangeCheck8 messageFormatted) else [])
      ++ log c.
Proof.
  intros Hcap Hcap8 Hlen Hlen8 messageFormatted rate p. unfold hash.
  change KECCAK_STATE_LENGTH with 1600. fold rate. fold messageFormatted.
  assert (Hrate8 : (8 | rate)).
  { destruct Hcap8 as [q ->]. exists (200 - q). subst rate. lia. }
  assert (H8 : 8 <= rate) by (destruct Hrate8 as [q Hq]; lia).
  assert (Hmax : rate / 8 <= JS.MAX_ARRAY_LENGTH).
  { unfold JS.MAX_ARRAY_LENGTH.
    apply Z.div_le_upper_bound; [lia|]. subst rate. lia. }
  assert (Hmfl : List.length messageFormatted = List.length message).
  { subst messageFormatted. destruct inpEndian; [reflexivity|].
    apply length_rev. }
  replace (capacity >? 0) with true by (symmetry; apply Z.gtb_lt; lia).
  replace (capacity <? 1600) with true by (symmetry; apply Z.ltb_lt; lia).
  replace (length >? 0) with true by (symmetry; apply Z.gtb_lt; lia).
  replace (Z.rem length 8 =? 0) with true.
  2:{ symmetry. apply Z.eqb_eq. apply Z.rem_divide; [lia|exact Hlen8]. }
  rewrite !bind_assert_true.
  assert (Hchecks : exists c1,
             (if byteChecks then checkBytes messageFormatted else ret tt) c
             = (Ok tt, c1) /\
             log c1
             = (if byteChecks then rev (map RangeCheck8 messageFormatted)
                else [])
               ++ log c).
  { destruct byteChecks.
    - eexists. split; [apply checkBytes_run|reflexivity].
    - exists c. split; reflexivity. }
  destruct Hchecks as (c1 & Hchecks & Hlog).
  rewrite (bind_ok _ _ _ _ _ Hchecks).
  assert (Hpad : exists pad,
             (if nistVersion then padNist messageFormatted rate
              else pad101 messageFormatted rate) c1
             = (Ok (messageFormatted ++ pad), c1) /\
             map toBigInt pad
             = padding_bytes (if nistVersion then 6 else 1) (Z.to_nat p) /\
             Z.of_nat (List.length pad) = p).
  { subst p. rewrite <- Hmfl.
    destruct nistVersion.
    - destruct (pad_body_content rate 6 messageFormatted c1 H8 Hmax
                                 ltac:(lia)) as (pad & Hrun & Hv & Hl & _).
      exists pad. auto.
    - destruct (pad_body_content rate 1 messageFormatted c1 H8 Hmax
                                 ltac:(lia)) as (pad & Hrun & Hv & Hl & _).
      exists pad. auto. }
  destruct Hpad as (pad & Hpad & Hv & Hl).
  rewrite (bind_ok _ _ _ _ _ Hpad).
  exists c1, pad. auto.
Qed.

(** X28: on a valid configuration the values of the digest that [hash]
    returns depend on the values of the message bytes only: two calls on
    messages with the same byte values return digests with the same byte
    values, whatever the circuits the calls start from, whatever field
    elements carry the bytes and whether or not the input bytes are range
    checked. *)
Theorem hash_values_depend_on_message_values
        (inpEndian outEndian : Endian) (byteChecks byteChecks' : bool)
        (message message' : list Field) (length capacity : Z)
        (nistVersion : bool) (c c' : Circuit) :
  0 < capacity < 1600 -> (8 | capacity) ->
  0 < length < 1600 - capacity -> (8 | length) ->
  Forall is_byte message ->
  map toBigInt message = map toBigInt message' ->
  exists digest c1 digest' c1',
    hash inpEndian outEndian byteChecks message length capacity nistVersion c
    = (Ok digest, c1) /\
    hash inpEndian outEndian byteChecks' message' length capacity
         nistVersion c'
    = (Ok digest', c1') /\
    map toBigInt digest = map toBigInt digest'.
Proof.
  intros Hcap Hcap8 Hlen Hlen8 Hb Hvals.
  destruct (same_values_bytes _ _ Hvals) as [Hl _].
  destruct (hash_unfolds inpEndian outEndian byteChecks message length
                         capacity nistVersion c Hcap Hcap8 ltac:(lia) Hlen8)
    as (d1 & pad & Hrun & Hpv & Hpl & _).
  destruct (hash_unfolds inpEndian outEndian byteChecks' message' length
                         capacity nistVersion c' Hcap Hcap8 ltac:(lia) Hlen8)
    as (d1' & pad' & Hrun' & Hpv' & Hpl' & _).
  rewrite <- Hl in Hpv', Hpl'. rewrite Hrun, Hrun'. clear Hrun Hrun'.
  set (rate := 1600 - capacity) in *.
  set (mf := match inpEndian with Big => message | Little => rev message end).
  set (mf' := match inpEndian with
              | Big => message' | Little => rev message' end).
  assert (Hrate8 : (8 | rate)).
  { destruct Hcap8 as [q ->]. exists (200 - q). subst rate. lia. }
  assert (H8 : 8 <= rate) by (destruct Hrate8 as [q Hq]; lia).
  assert (Hmf : map toBigInt mf = map toBigInt mf').
  { subst mf mf'. destruct inpEndian; [exact Hvals|].
    now rewrite !map_rev, Hvals. }
  assert (Hmfb : Forall is_byte mf).
  { subst mf. destruct inpEndian; [exact Hb|]. now apply Forall_rev. }
  assert (Hmfl : List.length mf = List.length message).
  { subst mf. destruct inpEndian; [reflexivity|apply length_rev]. }
  destruct (sponge_same (mf ++ pad) (mf' ++ pad') length capacity rate d1 d1')
    as (bytes & c4 & bytes' & c4' & Hs & Hs' & Hbv);
    try assumption; try reflexivity; try lia.
  { rewrite length_app, Nat2Z.inj_add, Hpl, Hmfl.
    apply bytesToPad_aligned; [exact H8|lia|exact Hrate8]. }
  { rewrite !map_app, Hmf, Hpv, Hpv'. reflexivity. }
  { apply Forall_app. split; [exact Hmfb|].
    change (Forall (fun x => (fun v => 0 <= v <= 255) (toBigInt x)) pad).
    rewrite <- Forall_map, Hpv. apply padding_bytes_are_bytes.
    destruct nistVersion; lia. }
  rewrite (bind_ok _ _ _ _ _ Hs), (bind_ok _ _ _ _ _ Hs').
  rewrite !(bind_ok _ _ _ _ _ (checkBytes_run _ _)).
  eexists. eexists. eexists. eexists.
  split; [reflexivity|]. split; [reflexivity|].
  destruct outEndian; rewrite ?map_rev, <- !firstn_map, Hbv; reflexivity.
Qed.

Lemma hash_values_depend_on_message_values_witness :
  exists digest c1 digest' c1',
    hash Big Big false [from 97; from 98] 256 512 false empty
    = (Ok digest, c1) /\
    hash Big Big true [Var 7 97; Add (from 90) (from 8)] 256 512 false
         (mkCircuit 8 [])
    = (Ok digest', c1') /\
    map toBigInt digest = map toBigInt digest'.
Proof.
  apply (hash_values_depend_on_message_values
           Big Big false true [from 97; from 98]
           [Var 7 97; Add (from 90) (from 8)] 256 512 false
           empty (mkCircuit 8 [])).
  - lia.
  - exists 64. reflexivity.
  - lia.
  - exists 32. reflexivity.
  - repeat (apply Forall_cons; [split; vm_compute; discriminate|]).
    apply Forall_nil.
  - reflexivity.
Defined.

(** ** The range checks of a run *)

Lemma range_checked_app (l l' : list Event) :
  range_checked (l ++ l') = range_checked l ++ range_checked l'.
Proof. apply flat_map_app. Qed.

Ltac no_range_check Hwf :=
  name_lanes Hwf; run_step;
  eexists; eexists; split; [reflexivity|];
  split; [split; [reflexivity|repeat constructor]|];
  cbn [log range_checked flat_map app]; reflexivity.

Lemma theta_checks (state : State) (c : Circuit) :
  well_formed state ->
  exists state' c',
    theta state c = (Ok state', c') /\ well_formed state' /\
    range_checked (log c') = range_checked (log c).
Proof. intros Hwf. no_range_check Hwf. Qed.

Lemma piRho_checks (state : State) (c : Circuit) :
  well_formed state ->
  exists state' c',
    piRho state c = (Ok state', c') /\ well_formed state' /\
    range_checked (log c') = range_checked (log c).
Proof. intros Hwf. no_range_check Hwf. Qed.

Lemma chi_checks (state : State) (c : Circuit) :
  well_formed state ->
  exists state' c',
    chi state c = (Ok state', c') /\ well_formed state' /\
    range_checked (log c') = range_checked (log c).
Proof. intros Hwf. no_range_check Hwf. Qed.

Lemma iota_checks (state : State) (rc : Field) (c : Circuit) :
  well_formed state ->
  exists state' c',
    iota state rc c = (Ok state', c') /\ well_formed state' /\
    range_checked (log c') = range_checked (log c).
Proof. intros Hwf. no_range_check Hwf. Qed.

Lemma keccakStateXor_checks (a b : State) (c : Circuit) :
  well_formed a -> well_formed b ->
  exists state' c',
    keccakStateXor a b c = (Ok state', c') /\ well_formed state' /\
    range_checked (log c') = range_checked (log c).
Proof.
  intros Ha Hb.
  destruct (well_formed_inv b Hb)
    as (p0 & p1 & p2 & p3 & p4 & q0 & q1 & q2 & q3 & q4 &
        r0 & r1 & r2 & r3 & r4 & s0 & s1 & s2 & s3 & s4 &
        t0 & t1 & t2 & t3 & t4 & ->).
  no_range_check Ha.
Qed.

Lemma round_checks (state : State) (rc : Field) (c : Circuit) :
  well_formed state ->
  exists state' c',
    round state rc c = (Ok state', c') /\ well_formed state' /\
    range_checked (log c') = range_checked (log c).
Proof.
  intros Hwf. unfold round.
  destruct (theta_checks state c Hwf) as (e & c1 & HE & HwfE & HcE).
  rewrite (bind_ok _ _ _ _ _ HE).
  destruct (piRho_checks e c1 HwfE) as (b & c2 & HB & HwfB & HcB).
  rewrite (bind_ok _ _ _ _ _ HB).
  destruct (chi_checks b c2 HwfB) as (f & c3 & HF & HwfF & HcF).
  rewrite (bind_ok _ _ _ _ _ HF).
  destruct (iota_checks f rc c3 HwfF) as (g & c4 & HG & HwfG & HcG).
  rewrite (bind_ok _ _ _ _ _ HG).
  exists g, c4. split; [reflexivity|]. split; [exact HwfG|]. congruence.
Qed.

Lemma permutation_checks (rc : list Field) :
  forall (state : State) (c : Circuit),
    well_formed state ->
    exists state' c',
      permutation state rc c = (Ok state', c') /\ well_formed state' /\
      range_checked (log c') = range_checked (log c).
Proof.
  unfold permutation.
  induction rc as [|r rc IH]; intros state c Hwf; cbn [foldM].
  - now exists state, c.
  - destruct (round_checks state r c Hwf) as (s1 & c1 & H1 & Hwf1 & Hc1).
    rewrite (bind_ok _ _ _ _ _ H1).
    destruct (IH s1 c1 Hwf1) as (s2 & c2 & H2 & Hwf2 & Hc2).
    exists s2, c2. split; [exact H2|]. split; [exact Hwf2|]. congruence.
Qed.

Lemma absorb_loop_checks (paddedMessage zeros rc : list Field) (step : Z) :
  1 <= step ->
  (Z.to_nat step + length zeros = 200)%nat ->
  forall (blocks fuel : nat) (i : Z) (state : State) (c : Circuit),
    well_formed state ->
    0 <= i ->
    Z.of_nat (length paddedMessage) = i + Z.of_nat blocks * step ->
    (blocks <= fuel)%nat ->
    exists state' c',
      absorb_loop fuel paddedMessage zeros step rc i state c
      = (Ok state', c') /\
      well_formed state' /\
      range_checked (log c') = range_checked (log c).
Proof.
  intros Hstep Hzeros.
  induction blocks as [|blocks IH]; intros fuel i state c Hwf Hi Hlen Hfuel.
  - exists state, c. split; [|auto].
    destruct fuel; cbn [absorb_loop];
      (destruct (Z.ltb_spec i (Z.of_nat (length paddedMessage))); [lia|]);
      reflexivity.
  - destruct fuel as [|fuel]; [lia|]. cbn [absorb_loop].
    destruct (Z.ltb_spec i (Z.of_nat (length paddedMessage))); [|nia].
    assert (Hblock : length (JS.slice paddedMessage i (i + step) ++ zeros)
                     = 200%nat).
    { rewrite length_app, slice_length by nia.
      replace (i + step - i) with step by lia. exact Hzeros. }
    rewrite Hblock. change (Z.of_nat 200 * 8 =? KECCAK_STATE_LENGTH) with true.
    rewrite bind_assert_true.
    destruct (getKeccakStateOfBytes_ok _ c Hblock) as (b & Hb & Hwfb).
    rewrite (bind_ok _ _ _ _ _ Hb).
    destruct (keccakStateXor_checks state b c Hwf Hwfb)
      as (x & c1 & Hx & Hwfx & Hcx).
    rewrite (bind_ok _ _ _ _ _ Hx).
    destruct (permutation_checks rc x c1 Hwfx) as (p & c2 & Hp & Hwfp & Hcp).
    rewrite (bind_ok _ _ _ _ _ Hp).
    destruct (IH fuel (i + step) p c2 Hwfp ltac:(lia) ltac:(lia) ltac:(lia))
      as (s' & c' & H' & Hwf' & Hc').
    exists s', c'. split; [exact H'|]. split; [exact Hwf'|]. congruence.
Qed.

Lemma exists_checks (n : nat) (compute : list Z) (c : Circuit) :
  exists rc c',
    exists_ n compute c = (Ok rc, c') /\
    range_checked (log c') = range_checked (log c).
Proof.
  unfold exists_. generalize (firstn n compute) as l. intros l. revert c.
  induction l as [|v l IH]; intros c; cbn [mapM].
  - now exists [], c.
  - unfold bind at 1, fresh at 1.
    destruct (IH (mkCircuit (S (next_var c))
                            (Witness ByExists (next_var c) :: log c)))
      as (rc & c' & H & Hc).
    rewrite (bind_ok _ _ _ _ _ H). eexists. eexists.
    split; [reflexivity|]. exact Hc.
Qed.

Lemma keccakStateToBytes_checks (state : State) (c : Circuit) :
  well_formed state ->
  exists bytes c',
    keccakStateToBytes state c = (Ok bytes, c') /\
    length bytes = 200%nat /\
    range_checked (log c') = range_checked (log c).
Proof.
  intros Hwf.
  pose proof (keccakStateToBytes_run state c Hwf) as Hrun. cbv zeta in Hrun.
  eexists. eexists. split; [exact Hrun|].
  split; [unfold declared_bytes; now rewrite length_map, length_seq|].
  cbn [log]. rewrite !range_checked_app.
  assert (H1 : forall l : list nat,
             range_checked
               (rev (map (recomposition state
                            (declared_bytes state (next_var c))) l)) = []).
  { intros l. rewrite <- map_rev. induction (rev l) as [|k t IH];
      [reflexivity|exact IH]. }
  assert (H2 : forall l : list nat,
             range_checked
               (rev (map (fun idx => Witness ByExistsOne (idx + next_var c))
                         l)) = []).
  { intros l. rewrite <- map_rev. induction (rev l) as [|k t IH];
      [reflexivity|exact IH]. }
  rewrite H1, H2. reflexivity.
Qed.

Lemma range_checked_checks (inputs : list Field) :
  range_checked (rev (map RangeCheck8 inputs)) = rev inputs.
Proof.
  rewrite <- map_rev. induction (rev inputs) as [|x t IH]; [reflexivity|].
  cbn [map]. change (range_checked (RangeCheck8 x :: map RangeCheck8 t))
    with (x :: range_checked (map RangeCheck8 t)).
  now rewrite IH.
Qed.

Lemma absorb_checks (paddedMessage rc : list Field) (capacity rate : Z)
      (c : Circuit) :
  0 < capacity -> (8 | capacity) -> rate = KECCAK_STATE_LENGTH - capacity ->
  0 < rate ->
  (Z.of_nat (length paddedMessage) * 8) mod rate = 0 ->
  exists state c',
    absorb paddedMessage capacity rate rc c = (Ok state, c') /\
    well_formed state /\
    range_checked (log c') = range_checked (log c).
Proof.
  intros Hcap [q Hq] Hrate Hpos Hmod. unfold absorb.
  change KECCAK_STATE_LENGTH with 1600 in Hrate.
  assert (Hcm : capacity mod 8 = 0) by (rewrite Hq; apply Z_mod_mult).
  assert (Hcd : capacity / 8 = q) by (rewrite Hq; apply Z.div_mul; lia).
  assert (Hr : rate = (200 - q) * 8) by lia.
  assert (Hrm : rate mod 8 = 0) by (rewrite Hr; apply Z_mod_mult).
  assert (Hrd : rate / 8 = 200 - q) by (rewrite Hr; apply Z.div_mul; lia).
  rewrite Hcm, Hrm, Hcd, Hrd. change (0 =? 0) with true. cbv iota.
  erewrite bind_ok
    by (apply Array_fill_ok; unfold JS.MAX_ARRAY_LENGTH; lia).
  destruct (Z.ltb_spec 0 rate); [|lia]. cbn [andb].
  apply Z.mod_divide in Hmod; [|lia]. destruct Hmod as [m Hm].
  assert (Hlen : Z.of_nat (length paddedMessage) = m * (200 - q)) by lia.
  assert (Hm0 : 0 <= m) by nia.
  apply absorb_loop_checks with (blocks := Z.to_nat m).
  - lia.
  - rewrite repeat_length. lia.
  - exact getKeccakStateZeros_well_formed.
  - lia.
  - lia.
  - apply Nat2Z.inj_le. rewrite Z2Nat.id, Hlen by lia.
    assert (1 <= 200 - q) by lia. nia.
Qed.

Lemma sponge_checks (paddedMessage : list Field) (length capacity rate : Z)
      (c : Circuit) :
  0 < capacity -> (8 | capacity) -> rate = KECCAK_STATE_LENGTH - capacity ->
  0 < length < rate ->
  (Z.of_nat (List.length paddedMessage) * 8) mod rate = 0 ->
  exists digest c',
    sponge paddedMessage length capacity rate c = (Ok digest, c') /\
    range_checked (log c') = range_checked (log c).
Proof.
  intros Hcap Hcap8 Hrate Hlen Haligned.
  assert (Hrate8 : (8 | rate)).
  { change KECCAK_STATE_LENGTH with 1600 in Hrate.
    destruct Hcap8 as [q ->]. exists (200 - q). lia. }
  assert (Hr1600 : rate <= 1600).
  { change KECCAK_STATE_LENGTH with 1600 in Hrate. lia. }
  rewrite sponge_single by (try assumption; lia).
  unfold sponge_one_squeeze, JS.rem.
  destruct (Z.eqb_spec rate 0); [lia|].
  rewrite Z.rem_mod_nonneg, Haligned by lia.
  destruct (exists_checks 24 ROUND_CONSTANTS c) as (rc & c2 & Hrc & Hc2).
  rewrite (bind_ok _ _ _ _ _ Hrc).
  destruct (absorb_checks paddedMessage rc capacity rate c2)
    as (s & c3 & Ha & Hwf & Hc3); try assumption; try lia.
  rewrite (bind_ok _ _ _ _ _ Ha).
  destruct (keccakStateToBytes_checks s c3 Hwf)
    as (bytes & c4 & Hk & _ & Hc4).
  rewrite (bind_ok _ _ _ _ _ Hk).
  eexists. eexists. split; [reflexivity|]. congruence.
Qed.

(** X29: the range checks to 8 bits that [hash] adds to the circuit are
    exactly these: one for every byte of the digest and, only when
    [byteChecks] is set, one for every byte of the message.  With
    [byteChecks] unset no byte of the message is range-checked by the
    call. *)
Theorem hash_range_checks_exactly
        (inpEndian outEndian : Endian) (byteChecks : bool)
        (message : list Field) (length capacity : Z) (nistVersion : bool)
        (c : Circuit) :
  0 < capacity < 1600 -> (8 | capacity) ->
  0 < length < 1600 - capacity -> (8 | length) ->
  exists digest c',
    hash inpEndian outEndian byteChecks message length capacity nistVersion c
    = (Ok digest, c') /\
    range_checked (log c')
    = match outEndian with Big => rev digest | Little => digest end
      ++ (if byteChecks
          then match inpEndian with
               | Big => rev message | Little => message end
          else [])
      ++ range_checked (log c).
Proof.
  intros Hcap Hcap8 Hlen Hlen8.
  destruct (hash_unfolds inpEndian outEndian byteChecks message length
                         capacity nistVersion c Hcap Hcap8 ltac:(lia) Hlen8)
    as (c1 & pad & Hrun & _ & Hpl & Hlog).
  rewrite Hrun. clear Hrun.
  set (rate := 1600 - capacity) in *.
  set (mf := match inpEndian with Big => message | Little => rev message end)
    in *.
  assert (Hrate8 : (8 | rate)).
  { destruct Hcap8 as [q ->]. exists (200 - q). subst rate. lia. }
  assert (H8 : 8 <= rate) by (destruct Hrate8 as [q Hq]; lia).
  assert (Hmfl : List.length mf = List.length message).
  { subst mf. destruct inpEndian; [reflexivity|apply length_rev]. }
  destruct (sponge_checks (mf ++ pad) length capacity rate c1)
    as (digest & c4 & Hs & Hc4); try assumption; try reflexivity; try lia.
  { rewrite length_app, Nat2Z.inj_add, Hpl, Hmfl.
    apply bytesToPad_aligned; [exact H8|lia|exact Hrate8]. }
  rewrite (bind_ok _ _ _ _ _ Hs).
  rewrite (bind_ok _ _ _ _ _ (checkBytes_run _ _)).
  eexists. eexists. split; [reflexivity|].
  cbn [log]. rewrite range_checked_app, range_checked_checks, Hc4, Hlog.
  rewrite range_checked_app. f_equal.
  - destruct outEndian; reflexivity.
  - f_equal. destruct byteChecks; [|reflexivity].
    rewrite range_checked_checks. subst mf.
    destruct inpEndian; [reflexivity|apply rev_involutive].
Qed.

Lemma hash_range_checks_exactly_witness :
  exists digest c',
    hash Little Big false [from 97; from 98] 256 512 false empty
    = (Ok digest, c') /\
    range_checked (log c')
    = rev digest ++ [] ++ range_checked (log empty).
Proof.
  apply (hash_range_checks_exactly Little Big false [from 97; from 98]
                                   256 512 false empty).
  - lia.
  - exists 64. reflexivity.
  - lia.
  - exists 32. reflexivity.
Defined.

(** ** Every declared witness is constrained later *)

Lemma quiet_extension_added (l l' : list Event) :
  quiet_extension l l' ->
  exists added, l' = added ++ l /\ forallb quiet added = true.
Proof.
  intros H. induction H as [|e m He Hm (added & -> & Hq)].
  - now exists [].
  - exists (e :: added). split; [reflexivity|].
    cbn [forallb]. now rewrite He, Hq.
Qed.

Lemma existsb_later (f : Event -> bool) (e : Event) (newer : list Event) :
  existsb f newer = true -> existsb f (e :: newer) = true.
Proof. intros H. cbn [existsb]. rewrite H. apply orb_true_r. Qed.

Lemma constrained_app (l l' : list Event) :
  forall newer,
    constrained_when_declared newer (l ++ l')
    = constrained_when_declared newer l
      && constrained_when_declared (rev l ++ newer) l'.
Proof.
  induction l as [|e l IH]; intros newer; [reflexivity|].
  cbn [app constrained_when_declared rev]. rewrite IH, <- app_assoc.
  cbn [app]. now rewrite andb_assoc.
Qed.

Lemma constrained_quiet (l : list Event) :
  forallb quiet l = true ->
  forall newer, constrained_when_declared newer l = true.
Proof.
  induction l as [|e l IH]; intros Hq newer; [reflexivity|].
  cbn [forallb] in Hq. apply andb_true_iff in Hq. destruct Hq as [He Hq].
  cbn [constrained_when_declared]. rewrite (IH Hq).
  destruct e as [[| |] id| | | | |]; try reflexivity; discriminate He.
Qed.

(** What the scan establishes, in terms of the events that come later
    than a declaration. *)
Lemma constrained_spec (l : list Event) :
  forall newer,
    constrained_when_declared newer l = true ->
    forall later o id earlier,
      l = later ++ Witness o id :: earlier ->
      match o with
      | ByExists => existsb (gate_operand id) (rev later ++ newer) = true
      | ByExistsOne =>
          existsb (asserts_or_range_checks id) (rev later ++ newer) = true
      | ByGadget => True
      end.
Proof.
  induction l as [|e l IH]; intros newer H later o id earlier Hl.
  - destruct later; discriminate Hl.
  - cbn [constrained_when_declared] in H. apply andb_true_iff in H.
    destruct H as [He H]. destruct later as [|e' later].
    + cbn [app] in Hl. injection Hl as -> ->. cbn [rev app].
      destruct o; [exact He|exact He|exact I].
    + cbn [app] in Hl. injection Hl as <- ->.
      specialize (IH (e :: newer) H later o id earlier eq_refl).
      cbn [rev]. rewrite <- app_assoc. exact IH.
Qed.

Lemma existsb_rev_In (f : Event -> bool) (l : list Event) :
  existsb f (rev l ++ []) = true -> exists e, In e l /\ f e = true.
Proof.
  rewrite app_nil_r. intros H. apply existsb_exists in H.
  destruct H as (e & He & Hf). exists e. split; [now apply in_rev|exact Hf].
Qed.

(** Declarations in a row are constrained when every one of their
    variables is mentioned among the later events. *)
Lemma constrained_declarations (o : Origin) (ids : list nat) :
  forall newer,
    (forall id, In id ids ->
       match o with
       | ByExists => existsb (gate_operand id) newer = true
       | ByExistsOne => existsb (asserts_or_range_checks id) newer = true
       | ByGadget => True
       end) ->
    constrained_when_declared newer (map (Witness o) ids) = true.
Proof.
  induction ids as [|id ids IH]; intros newer H; [reflexivity|].
  cbn [map constrained_when_declared]. apply andb_true_iff. split.
  - specialize (H id (or_introl eq_refl)). destruct o; auto.
  - apply IH. intros id' Hin. specialize (H id' (or_intror Hin)).
    destruct o; auto using existsb_later.
Qed.

(** *** The steps of a round declare nothing with exists or existsOne *)

Ltac quiet_run Hwf :=
  name_lanes Hwf; run_step;
  eexists; eexists; split; [reflexivity|];
  split; [split; [reflexivity|repeat constructor]|];
  cbn [log]; repeat (apply quiet_step; [reflexivity|]); apply quiet_done.

Lemma theta_quiet (state : State) (c : Circuit) :
  well_formed state ->
  exists state' c',
    theta state c = (Ok state', c') /\ well_formed state' /\
    quiet_extension (log c) (log c').
Proof. intros Hwf. quiet_run Hwf. Qed.

Lemma piRho_quiet (state : State) (c : Circuit) :
  well_formed state ->
  exists state' c',
    piRho state c = (Ok state', c') /\ well_formed state' /\
    quiet_extension (log c) (log c').
Proof. intros Hwf. quiet_run Hwf. Qed.

Lemma chi_quiet (state : State) (c : Circuit) :
  well_formed state ->
  exists state' c',
    chi state c = (Ok state', c') /\ well_formed state' /\
    quiet_extension (log c) (log c').
Proof. intros Hwf. quiet_run Hwf. Qed.

Lemma keccakStateXor_quiet (a b : State) (c : Circuit) :
  well_formed a -> well_formed b ->
  exists state' c',
    keccakStateXor a b c = (Ok state', c') /\ well_formed state' /\
    quiet_extension (log c) (log c').
Proof.
  intros Ha Hb.
  destruct (well_formed_inv b Hb)
    as (p0 & p1 & p2 & p3 & p4 & q0 & q1 & q2 & q3 & q4 &
        r0 & r1 & r2 & r3 & r4 & s0 & s1 & s2 & s3 & s4 &
        t0 & t1 & t2 & t3 & t4 & ->).
  quiet_run Ha.
Qed.

(** One round adds gadget events only, among them the XOR gate of [iota]
    with the round constant as its second operand. *)
Lemma round_gates (state : State) (rc : Field) (c : Circuit) :
  well_formed state ->
  exists state' c' added,
    round state rc c = (Ok state', c') /\ well_formed state' /\
    log c' = added ++ log c /\
    forallb quiet added = true /\
    exists a out, In (XorGate a rc out KECCAK_WORD) added.
Proof.
  intros Hwf. unfold round.
  destruct (theta_quiet state c Hwf) as (e & c1 & HE & HwfE & HqE).
  rewrite (bind_ok _ _ _ _ _ HE).
  destruct (piRho_quiet e c1 HwfE) as (b & c2 & HB & HwfB & HqB).
  rewrite (bind_ok _ _ _ _ _ HB).
  destruct (chi_quiet b c2 HwfB) as (f & c3 & HF & HwfF & HqF).
  rewrite (bind_ok _ _ _ _ _ HF).
  destruct (iota_step f rc c3 HwfF) as (g & out & HG & HwfG & _).
  rewrite (bind_ok _ _ _ _ _ HG).
  destruct (quiet_extension_added _ _ HqE) as (aE & HaE & HfE).
  destruct (quiet_extension_added _ _ HqB) as (aB & HaB & HfB).
  destruct (quiet_extension_added _ _ HqF) as (aF & HaF & HfF).
  exists g. eexists.
  exists (XorGate (lane f 0 0) rc out KECCAK_WORD
          :: Witness ByGadget (next_var c3) :: aF ++ aB ++ aE).
  split; [reflexivity|]. split; [exact HwfG|]. split.
  - cbn [log app]. rewrite HaF, HaB, HaE, <- !app_assoc. reflexivity.
  - split.
    + cbn [forallb quiet]. rewrite !forallb_app, HfF, HfB, HfE. reflexivity.
    + exists (lane f 0 0), out. now left.
Qed.

Lemma permutation_gates (rc : list Field) :
  forall (state : State) (c : Circuit),
    well_formed state ->
    exists state' c' added,
      permutation state rc c = (Ok state', c') /\ well_formed state' /\
      log c' = added ++ log c /\
      forallb quiet added = true /\
      forall r, In r rc ->
        exists a out, In (XorGate a r out KECCAK_WORD) added.
Proof.
  unfold permutation.
  induction rc as [|r0 rc IH]; intros state c Hwf; cbn [foldM].
  - exists state, c, []. conjuncts; auto. intros r [].
  - destruct (round_gates state r0 c Hwf)
      as (s1 & c1 & a1 & H1 & Hwf1 & Hl1 & Hq1 & g & out & Hg).
    rewrite (bind_ok _ _ _ _ _ H1).
    destruct (IH s1 c1 Hwf1) as (s2 & c2 & a2 & H2 & Hwf2 & Hl2 & Hq2 & Hg2).
    exists s2, c2, (a2 ++ a1). split; [exact H2|]. split; [exact Hwf2|].
    split; [rewrite Hl2, Hl1; apply app_assoc|].
    split; [rewrite forallb_app, Hq2, Hq1; reflexivity|].
    intros r [<-|Hin].
    + exists g, out. apply in_or_app. now right.
    + destruct (Hg2 r Hin) as (a & o & Ho). exists a, o.
      apply in_or_app. now left.
Qed.

Lemma absorb_loop_quiet (paddedMessage zeros rc : list Field) (step : Z) :
  1 <= step ->
  (Z.to_nat step + length zeros = 200)%nat ->
  forall (blocks fuel : nat) (i : Z) (state : State) (c : Circuit),
    well_formed state ->
    0 <= i ->
    Z.of_nat (length paddedMessage) = i + Z.of_nat blocks * step ->
    (blocks <= fuel)%nat ->
    exists state' c' added,
      absorb_loop fuel paddedMessage zeros step rc i state c
      = (Ok state', c') /\
      well_formed state' /\
      log c' = added ++ log c /\
      forallb quiet added = true /\
      ((1 <= blocks)%nat ->
       forall r, In r rc ->
         exists a out, In (XorGate a r out KECCAK_WORD) added).
Proof.
  intros Hstep Hzeros.
  induction blocks as [|blocks IH]; intros fuel i state c Hwf Hi Hlen Hfuel.
  - exists state, c, []. split.
    + destruct fuel; cbn [absorb_loop];
        (destruct (Z.ltb_spec i (Z.of_nat (length paddedMessage))); [lia|]);
        reflexivity.
    + conjuncts; auto. lia.
  - destruct fuel as [|fuel]; [lia|]. cbn [absorb_loop].
    destruct (Z.ltb_spec i (Z.of_nat (length paddedMessage))); [|nia].
    assert (Hblock : length (JS.slice paddedMessage i (i + step) ++ zeros)
                     = 200%nat).
    { rewrite length_app, slice_length by nia.
      replace (i + step - i) with step by lia. exact Hzeros. }
    rewrite Hblock. change (Z.of_nat 200 * 8 =? KECCAK_STATE_LENGTH) with true.
    rewrite bind_assert_true.
    destruct (getKeccakStateOfBytes_ok _ c Hblock) as (b & Hb & Hwfb).
    rewrite (bind_ok _ _ _ _ _ Hb).
    destruct (keccakStateXor_quiet state b c Hwf Hwfb)
      as (x & c1 & Hx & Hwfx & Hqx).
    rewrite (bind_ok _ _ _ _ _ Hx).
    destruct (quiet_extension_added _ _ Hqx) as (ax & Hax & Hfx).
    destruct (permutation_gates rc x c1 Hwfx)
      as (p & c2 & ap & Hp & Hwfp & Hlp & Hqp & Hgp).
    rewrite (bind_ok _ _ _ _ _ Hp).
    destruct (IH fuel (i + step) p c2 Hwfp ltac:(lia) ltac:(lia) ltac:(lia))
      as (s' & c' & a' & H' & Hwf' & Hl' & Hq' & _).
    exists s', c', (a' ++ ap ++ ax). split; [exact H'|].
    split; [exact Hwf'|]. split.
    { rewrite Hl', Hlp, Hax, <- !app_assoc. reflexivity. }
    split; [rewrite !forallb_app, Hq', Hqp, Hfx; reflexivity|].
    intros _ r Hin. destruct (Hgp r Hin) as (a & o & Ho). exists a, o.
    apply in_or_app. right. apply in_or_app. now left.
Qed.

Lemma absorb_gates (paddedMessage rc : list Field) (capacity rate : Z)
      (c : Circuit) :
  0 < capacity -> (8 | capacity) -> rate = KECCAK_STATE_LENGTH - capacity ->
  0 < rate ->
  (Z.of_nat (length paddedMessage) * 8) mod rate = 0 ->
  (0 < length paddedMessage)%nat ->
  exists state c' added,
    absorb paddedMessage capacity rate rc c = (Ok state, c') /\
    well_formed state /\
    log c' = added ++ log c /\
    forallb quiet added = true /\
    forall r, In r rc -> exists a out, In (XorGate a r out KECCAK_WORD) added.
Proof.
  intros Hcap [q Hq] Hrate Hpos Hmod Hne. unfold absorb.
  change KECCAK_STATE_LENGTH with 1600 in Hrate.
  assert (Hcm : capacity mod 8 = 0) by (rewrite Hq; apply Z_mod_mult).
  assert (Hcd : capacity / 8 = q) by (rewrite Hq; apply Z.div_mul; lia).
  assert (Hr : rate = (200 - q) * 8) by lia.
  assert (Hrm : rate mod 8 = 0) by (rewrite Hr; apply Z_mod_mult).
  assert (Hrd : rate / 8 = 200 - q) by (rewrite Hr; apply Z.div_mul; lia).
  rewrite Hcm, Hrm, Hcd, Hrd. change (0 =? 0) with true. cbv iota.
  erewrite bind_ok
    by (apply Array_fill_ok; unfold JS.MAX_ARRAY_LENGTH; lia).
  destruct (Z.ltb_spec 0 rate); [|lia]. cbn [andb].
  apply Z.mod_divide in Hmod; [|lia]. destruct Hmod as [m Hm].
  assert (Hlen : Z.of_nat (length paddedMessage) = m * (200 - q)) by lia.
  assert (Hm0 : 1 <= m) by nia.
  destruct (absorb_loop_quiet paddedMessage (repeat (from 0) (Z.to_nat q))
              rc (200 - q) ltac:(lia) ltac:(rewrite repeat_length; lia)
              (Z.to_nat m) (length paddedMessage) 0 getKeccakStateZeros c
              getKeccakStateZeros_well_formed ltac:(lia) ltac:(lia))
    as (state & c' & added & Hrun & Hwf & Hl & Hqa & Hg).
  { apply Nat2Z.inj_le. rewrite Z2Nat.id, Hlen by lia.
    assert (1 <= 200 - q) by lia. nia. }
  exists state, c', added. conjuncts; auto. apply Hg. lia.
Qed.

(** *** The declarations of exists and existsOne *)

Lemma mapM_fresh_vars (o : Origin) (values : list Z) :
  forall c,
    mapM (fresh o) values c
    = (Ok (fresh_vars (next_var c) values),
       mkCircuit (length values + next_var c)
                 (rev (map (Witness o) (seq (next_var c) (length values)))
                  ++ log c)).
Proof.
  induction values as [|v values IH]; intros c; cbn [mapM].
  - destruct c. reflexivity.
  - unfold bind at 1, fresh at 1. rewrite (bind_ok _ _ _ _ _ (IH _)).
    unfold ret. cbn [next_var log fresh_vars length seq map rev].
    rewrite <- app_assoc, Nat.add_succ_r. reflexivity.
Qed.

Lemma fresh_vars_In (values : list Z) :
  forall n id, In id (seq n (length values)) ->
    exists v, In (Var id v) (fresh_vars n values).
Proof.
  induction values as [|v values IH]; intros n id Hin; [contradiction|].
  cbn [length seq fresh_vars] in *. destruct Hin as [<-|Hin].
  - exists v. now left.
  - destruct (IH (S n) id Hin) as (v' & Hv'). exists v'. now right.
Qed.

Lemma recomposition_mentions_byte (state : State) (n idx : nat) :
  (idx < 200)%nat ->
  existsb (asserts_or_range_checks (idx + n))
          (map (recomposition state (declared_bytes state n)) (seq 0 25))
  = true.
Proof.
  intros Hidx. apply existsb_exists.
  exists (recomposition state (declared_bytes state n) (idx / 8)). split.
  - apply in_map, in_seq. split; [lia|]. cbn [Nat.add].
    apply Nat.Div0.div_lt_upper_bound. lia.
  - unfold recomposition. cbn [asserts_or_range_checks].
    apply orb_true_iff. right. unfold mentions. apply existsb_exists.
    exists (idx + n)%nat. split; [|apply Nat.eqb_refl].
    assert (Hk : (idx / 8 < 25)%nat)
      by (apply Nat.Div0.div_lt_upper_bound; lia).
    rewrite (lane_bytes_declared state n (idx / 8) Hk).
    apply vars_compose_from with (x := Var (idx + n)%nat (byte_value state idx)).
    + apply in_map_iff. exists idx. split; [reflexivity|].
      apply in_seq. pose proof (Nat.div_mod_eq idx 8).
      pose proof (Nat.mod_upper_bound idx 8 ltac:(discriminate)). lia.
    + now left.
Qed.

(** ** The run of the hash, step by step *)

Lemma exists_round_constants (c : Circuit) :
  exists_ 24 ROUND_CONSTANTS c
  = (Ok (fresh_vars (next_var c) (firstn 24 ROUND_CONSTANTS)),
     mkCircuit (24 + next_var c)
               (rev (map (Witness ByExists) (seq (next_var c) 24))
                ++ log c)).
Proof.
  unfold exists_.
  exact (mapM_fresh_vars ByExists (firstn 24 ROUND_CONSTANTS) c).
Qed.

(** The run of [hash] on a valid configuration whose output is shorter than
    the rate: the optional range checks of the message, the padding, the
    24 round constants declared by [exists], the absorption, the one
    decomposition of the state that [squeeze] makes, the range checks of
    the digest. *)
Lemma hash_steps
      (inpEndian outEndian : Endian) (byteChecks : bool)
      (message : list Field) (length capacity : Z) (nistVersion : bool)
      (c : Circuit) :
  0 < capacity < 1600 -> (8 | capacity) ->
  0 < length < 1600 - capacity -> (8 | length) ->
  let messageFormatted :=
    match inpEndian with Big => message | Little => rev message end in
  let rate := 1600 - capacity in
  exists pad rc state c3 bytes,
    let c1 :=
      mkCircuit (next_var c)
                ((if byteChecks
                  then rev (map RangeCheck8 messageFormatted) else [])
                 ++ log c) in
    let c2 :=
      mkCircuit (24 + next_var c)
                (rev (map (Witness ByExists) (seq (next_var c) 24))
                 ++ log c1) in
    let c4 :=
      mkCircuit (200 + next_var c3)
                (rev (map (recomposition state bytes) (seq 0 25))
                 ++ rev (map (fun idx =>
                                Witness ByExistsOne (idx + next_var c3))
                             (seq 0 200))
                 ++ log c3) in
    let prefix := firstn (Z.to_nat (length / 8)) bytes in
    let c5 :=
      mkCircuit (next_var c4) (rev (map RangeCheck8 prefix) ++ log c4) in
    (if byteChecks then checkBytes messageFormatted else ret tt) c
    = (Ok tt, c1) /\
    (if nistVersion then padNist messageFormatted rate
     else pad101 messageFormatted rate) c1
    = (Ok (messageFormatted ++ pad), c1) /\
    (0 < List.length pad)%nat /\
    (Z.of_nat (List.length (messageFormatted ++ pad)) * 8) mod rate = 0 /\
    exists_ 24 ROUND_CONSTANTS c1 = (Ok rc, c2) /\
    rc = fresh_vars (next_var c) (firstn 24 ROUND_CONSTANTS) /\
    absorb (messageFormatted ++ pad) capacity rate rc c2 = (Ok state, c3) /\
    well_formed state /\
    bytes = declared_bytes state (next_var c3) /\
    keccakStateToBytes state c3 = (Ok bytes, c4) /\
    squeeze state length rate rc c3 = (Ok prefix, c4) /\
    sponge (messageFormatted ++ pad) length capacity rate c1
    = (Ok prefix, c4) /\
    checkBytes prefix c4 = (Ok tt, c5) /\
    hash inpEndian outEndian byteChecks message length capacity nistVersion c
    = (Ok (match outEndian with Big => prefix | Little => rev prefix end),
       c5).
Proof.
  intros Hcap Hcap8 Hlen Hlen8 messageFormatted rate.
  assert (Hrate8 : (8 | rate)).
  { destruct Hcap8 as [q ->]. exists (200 - q). subst rate. lia. }
  assert (H8 : 8 <= rate) by (destruct Hrate8 as [q Hq]; lia).
  assert (Hmax : rate / 8 <= JS.MAX_ARRAY_LENGTH).
  { unfold JS.MAX_ARRAY_LENGTH.
    apply Z.div_le_upper_bound; [lia|]. subst rate. lia. }
  set (c1 := mkCircuit (next_var c)
                       ((if byteChecks
                         then rev (map RangeCheck8 messageFormatted) else [])
                        ++ log c)).
  assert (Hchecks :
            (if byteChecks then checkBytes messageFormatted else ret tt) c
            = (Ok tt, c1)).
  { subst c1. destruct byteChecks; [apply checkBytes_run|].
    destruct c. reflexivity. }
  assert (Hpad : exists pad,
             (if nistVersion then padNist messageFormatted rate
              else pad101 messageFormatted rate) c1
             = (Ok (messageFormatted ++ pad), c1) /\
             Z.of_nat (List.length pad)
             = rate / 8
               - Z.of_nat (List.length messageFormatted) mod (rate / 8)).
  { destruct nistVersion.
    - destruct (pad_body_content rate 6 messageFormatted c1 H8 Hmax
                                 ltac:(lia)) as (pad & Hrun & _ & Hl & _).
      exists pad. auto.
    - destruct (pad_body_content rate 1 messageFormatted c1 H8 Hmax
                                 ltac:(lia)) as (pad & Hrun & _ & Hl & _).
      exists pad. auto. }
  destruct Hpad as (pad & Hpad & Hpl).
  assert (Hk : 1 <= rate / 8) by (apply Z.div_le_lower_bound; lia).
  assert (Hm : 0 <= Z.of_nat (List.length messageFormatted) mod (rate / 8)
               < rate / 8) by (apply Z.mod_pos_bound; lia).
  assert (Haligned : (Z.of_nat (List.length (messageFormatted ++ pad)) * 8)
                     mod rate = 0).
  { rewrite length_app, Nat2Z.inj_add, Hpl.
    apply bytesToPad_aligned; [exact H8|lia|exact Hrate8]. }
  pose proof (exists_round_constants c1) as Hrc.
  change (next_var c1) with (next_var c) in Hrc.
  set (rc := fresh_vars (next_var c) (firstn 24 ROUND_CONSTANTS)) in *.
  set (c2 := mkCircuit (24 + next_var c)
                       (rev (map (Witness ByExists) (seq (next_var c) 24))
                        ++ log c1)) in *.
  destruct (absorb_ok (messageFormatted ++ pad) rc capacity rate c2)
    as (state & c3 & Habs & Hwf);
    [lia|exact Hcap8|reflexivity|subst rate; lia|exact Haligned|].
  pose proof (keccakStateToBytes_run state c3 Hwf) as Hbytes.
  cbv zeta in Hbytes.
  set (bytes := declared_bytes state (next_var c3)) in *.
  set (c4 := mkCircuit (200 + next_var c3)
               (rev (map (recomposition state bytes) (seq 0 25))
                ++ rev (map (fun idx =>
                               Witness ByExistsOne (idx + next_var c3))
                            (seq 0 200))
                ++ log c3)) in *.
  set (prefix := firstn (Z.to_nat (length / 8)) bytes).
  assert (Hsq : squeeze state length rate rc c3 = (Ok prefix, c4)).
  { rewrite squeeze_single by (try assumption; subst rate; lia).
    rewrite (bind_ok _ _ _ _ _ Hbytes). reflexivity. }
  assert (Hsp : sponge (messageFormatted ++ pad) length capacity rate c1
                = (Ok prefix, c4)).
  { unfold sponge, JS.rem.
    destruct (Z.eqb_spec rate 0); [subst rate; lia|].
    rewrite Z.rem_mod_nonneg, Haligned by (subst rate; lia).
    rewrite (bind_ok _ _ _ _ _ Hrc), (bind_ok _ _ _ _ _ Habs).
    rewrite (bind_ok _ _ _ _ _ Hsq). reflexivity. }
  exists pad, rc, state, c3, bytes. cbv zeta.
  fold c1. fold c2. fold c4. fold prefix.
  split; [exact Hchecks|]. split; [exact Hpad|]. split; [lia|].
  split; [exact Haligned|].
  split; [exact Hrc|]. split; [reflexivity|]. split; [exact Habs|].
  split; [exact Hwf|]. split; [reflexivity|]. split; [exact Hbytes|].
  split; [exact Hsq|]. split; [exact Hsp|].
  split; [apply checkBytes_run|].
  unfold hash. change KECCAK_STATE_LENGTH with 1600.
  fold rate. fold messageFormatted.
  replace (capacity >? 0) with true by (symmetry; apply Z.gtb_lt; lia).
  replace (capacity <? 1600) with true by (symmetry; apply Z.ltb_lt; lia).
  replace (length >? 0) with true by (symmetry; apply Z.gtb_lt; lia).
  replace (Z.rem length 8 =? 0) with true.
  2:{ symmetry. apply Z.eqb_eq. apply Z.rem_divide; [lia|exact Hlen8]. }
  rewrite !bind_assert_true.
  rewrite (bind_ok _ _ _ _ _ Hchecks), (bind_ok _ _ _ _ _ Hpad).
  rewrite (bind_ok _ _ _ _ _ Hsp).
  rewrite (bind_ok _ _ _ _ _ (checkBytes_run _ _)). reflexivity.
Qed.

Lemma quiet_range_checks (inputs : list Field) :
  forallb quiet (rev (map RangeCheck8 inputs)) = true.
Proof.
  apply forallb_forall. intros e He. apply in_rev, in_map_iff in He.
  destruct He as (x & <- & _). reflexivity.
Qed.

Lemma quiet_recompositions (state : State) (bytes : list Field)
      (l : list nat) :
  forallb quiet (rev (map (recomposition state bytes) l)) = true.
Proof.
  apply forallb_forall. intros e He. apply in_rev, in_map_iff in He.
  destruct He as (x & <- & _). reflexivity.
Qed.

Lemma declared_by_app (o : Origin) (n : nat) (l l' : list Event) :
  declared_by o (mkCircuit n (l ++ l'))
  = declared_by o (mkCircuit n l') ++ declared_by o (mkCircuit n l).
Proof.
  unfold declared_by. cbn [log]. now rewrite flat_map_app, rev_app_distr.
Qed.

Lemma declared_by_quiet (o : Origin) (n : nat) (l : list Event) :
  o <> ByGadget -> forallb quiet l = true ->
  declared_by o (mkCircuit n l) = [].
Proof.
  intros Ho Hq. unfold declared_by. cbn [log].
  induction l as [|e l IH]; [reflexivity|].
  cbn [forallb] in Hq. apply andb_true_iff in Hq. destruct Hq as [He Hq].
  cbn [flat_map]. rewrite rev_app_distr, (IH Hq). cbn [app].
  destruct e as [[| |] id| | | | |]; try reflexivity;
    try discriminate He.
  destruct o; [reflexivity|reflexivity|contradiction].
Qed.

Lemma declared_by_witnesses (o o' : Origin) (n : nat) (ids : list nat) :
  declared_by o (mkCircuit n (rev (map (Witness o') ids)))
  = match o, o' with
    | ByExists, ByExists | ByExistsOne, ByExistsOne
    | ByGadget, ByGadget => ids
    | _, _ => []
    end.
Proof.
  unfold declared_by. cbn [log]. rewrite <- map_rev.
  assert (H : forall l,
             flat_map
               (fun e =>
                  match e with
                  | Witness ByExists id =>
                      match o with ByExists => [id] | _ => [] end
                  | Witness ByExistsOne id =>
                      match o with ByExistsOne => [id] | _ => [] end
                  | Witness ByGadget id =>
                      match o with ByGadget => [id] | _ => [] end
                  | _ => []
                  end) (map (Witness o') l)
             = match o, o' with
               | ByExists, ByExists | ByExistsOne, ByExistsOne
               | ByGadget, ByGadget => l
               | _, _ => []
               end).
  { induction l as [|id l IH]; [destruct o, o'; reflexivity|].
    cbn [map flat_map]. rewrite IH. destruct o, o'; reflexivity. }
  rewrite H. destruct o, o'; try reflexivity; apply rev_involutive.
Qed.

(** C1: every witness that a run of [hash] declares with [exists] or
    [existsOne] is mentioned by a constraint that the run adds later.  The
    log lists the latest event first: in [added = later ++ Witness o id ::
    earlier] the events of [later] were added after the declaration.  The
    run declares 24 witnesses with [exists], the round constants, and each
    is an operand of an XOR gate added after its declaration (the gate of
    [iota] in the first permutation of [absorb]); it declares 200 witnesses
    with [existsOne], the bytes of [keccakStateToBytes], and each is
    mentioned by an equality assertion added after its declaration (the
    recomposition of its lane). *)
Theorem declared_witnesses_are_constrained
        (inpEndian outEndian : Endian) (byteChecks : bool)
        (message : list Field) (length capacity : Z) (nistVersion : bool)
        (c : Circuit) :
  0 < capacity < 1600 -> (8 | capacity) ->
  0 < length < 1600 - capacity -> (8 | length) ->
  exists digest c' added,
    hash inpEndian outEndian byteChecks message length capacity nistVersion c
    = (Ok digest, c') /\
    log c' = added ++ log c /\
    declared_by ByExists (mkCircuit (next_var c') added)
    = seq (next_var c) 24 /\
    List.length (declared_by ByExistsOne (mkCircuit (next_var c') added))
    = 200%nat /\
    (forall later o id earlier,
        added = later ++ Witness o id :: earlier ->
        o = ByExists \/ o = ByExistsOne ->
        exists e, In e later /\ constrains id e = true) /\
    (forall later id earlier,
        added = later ++ Witness ByExists id :: earlier ->
        exists e, In e later /\ gate_operand id e = true) /\
    (forall later id earlier,
        added = later ++ Witness ByExistsOne id :: earlier ->
        exists e, In e later /\ asserts_or_range_checks id e = true).
Proof.
  intros Hcap Hcap8 Hlen Hlen8.
  destruct (hash_steps inpEndian outEndian byteChecks message length
                       capacity nistVersion c Hcap Hcap8 Hlen Hlen8)
    as (pad & rc & state & c3 & bytes & _ & _ & Hpad & Hal & _ & Hrc & Habs
        & Hwf & Hbytes & _ & _ & _ & _ & Hrun).
  set (mf := match inpEndian with Big => message | Little => rev message end)
    in *.
  set (checks := if byteChecks then rev (map RangeCheck8 mf) else [])
    in *.
  set (declared := rev (map (Witness ByExists) (seq (next_var c) 24))) in *.
  set (c2 := mkCircuit (24 + next_var c)
                       (declared
                        ++ log (mkCircuit (next_var c) (checks ++ log c))))
    in *.
  destruct (absorb_gates (mf ++ pad) rc capacity (1600 - capacity) c2)
    as (state' & c3' & absorbed & Habs' & _ & Hlog3 & Hquiet & Hgates);
    [lia|exact Hcap8|reflexivity|lia|exact Hal|rewrite length_app; lia|].
  rewrite Habs in Habs'. injection Habs' as <- <-.
  set (asserts := rev (map (recomposition state bytes) (seq 0 25))) in *.
  set (decomposed :=
         rev (map (fun idx => Witness ByExistsOne (idx + next_var c3))
                  (seq 0 200))) in *.
  set (prefix := firstn (Z.to_nat (length / 8)) bytes) in *.
  set (checked := rev (map RangeCheck8 prefix)) in *.
  set (added := checked ++ asserts ++ decomposed ++ absorbed ++ declared
                ++ checks).
  assert (Hscan : constrained_when_declared [] added = true).
  { subst added. rewrite !constrained_app.
    apply andb_true_iff. split.
    { apply constrained_quiet, quiet_range_checks. }
    apply andb_true_iff. split.
    { apply constrained_quiet, quiet_recompositions. }
    apply andb_true_iff. split.
    { subst decomposed. rewrite <- map_rev.
      rewrite <- (map_map (fun idx => (idx + next_var c3)%nat)
                          (Witness ByExistsOne)).
      apply constrained_declarations. intros id Hid.
      apply in_map_iff in Hid. destruct Hid as (idx & <- & Hidx).
      apply in_rev, in_seq in Hidx.
      rewrite existsb_app. apply orb_true_iff. left.
      subst asserts. rewrite rev_involutive. rewrite Hbytes.
      apply recomposition_mentions_byte. lia. }
    apply andb_true_iff. split.
    { now apply constrained_quiet. }
    apply andb_true_iff. split.
    { subst declared. rewrite <- map_rev.
      apply constrained_declarations. intros id Hid.
      apply in_rev in Hid.
      destruct (fresh_vars_In (firstn 24 ROUND_CONSTANTS) _ _ Hid)
        as (v & Hv).
      rewrite <- Hrc in Hv.
      destruct (Hgates _ Hv) as (a & out & Hg).
      rewrite existsb_app. apply orb_true_iff. left.
      apply existsb_exists. eexists. split; [apply -> in_rev; exact Hg|].
      cbn [gate_operand]. apply orb_true_iff. right.
      unfold mentions. cbn [vars existsb]. rewrite Nat.eqb_refl. reflexivity. }
    apply constrained_quiet. subst checks.
    destruct byteChecks; [apply quiet_range_checks|reflexivity]. }
  eexists. eexists. exists added. split; [exact Hrun|].
  split.
  { cbn [log]. rewrite Hlog3. subst added c2. cbn [log].
    rewrite <- !app_assoc. reflexivity. }
  assert (Hqc : forallb quiet checks = true).
  { subst checks. destruct byteChecks; [apply quiet_range_checks|reflexivity]. }
  assert (Hqd : forallb quiet checked = true)
    by (subst checked; apply quiet_range_checks).
  split.
  { match goal with
    | |- declared_by _ (mkCircuit ?n _) = _ => generalize n; intros n'
    end.
    subst added. rewrite !declared_by_app.
    rewrite (declared_by_quiet ByExists n' checks) by (try discriminate; exact Hqc).
    rewrite (declared_by_quiet ByExists n' absorbed)
      by (try discriminate; exact Hquiet).
    change (declared_by ByExists (mkCircuit n' asserts)) with (@nil nat).
    rewrite (declared_by_quiet ByExists n' checked)
      by (try discriminate; exact Hqd).
    subst declared decomposed.
    rewrite <- (map_map (fun idx => (idx + next_var c3)%nat)
                        (Witness ByExistsOne)).
    rewrite !declared_by_witnesses. rewrite !app_nil_r. reflexivity. }
  split.
  { match goal with
    | |- List.length (declared_by _ (mkCircuit ?n _)) = _ =>
        generalize n; intros n'
    end.
    subst added. rewrite !declared_by_app.
    rewrite (declared_by_quiet ByExistsOne n' checks)
      by (try discriminate; exact Hqc).
    rewrite (declared_by_quiet ByExistsOne n' absorbed)
      by (try discriminate; exact Hquiet).
    change (declared_by ByExistsOne (mkCircuit n' asserts)) with (@nil nat).
    rewrite (declared_by_quiet ByExistsOne n' checked)
      by (try discriminate; exact Hqd).
    subst declared decomposed.
    rewrite <- (map_map (fun idx => (idx + next_var c3)%nat)
                        (Witness ByExistsOne)).
    rewrite !declared_by_witnesses. rewrite !app_nil_r. cbn [app].
    now rewrite length_map, length_seq. }
  assert (Hgate : forall later id earlier,
             added = later ++ Witness ByExists id :: earlier ->
             exists e, In e later /\ gate_operand id e = true).
  { intros later id earlier Hadded. apply existsb_rev_In.
    exact (constrained_spec added [] Hscan later ByExists id earlier Hadded). }
  assert (Hassert : forall later id earlier,
             added = later ++ Witness ByExistsOne id :: earlier ->
             exists e, In e later /\ asserts_or_range_checks id e = true).
  { intros later id earlier Hadded. apply existsb_rev_In.
    exact (constrained_spec added [] Hscan later ByExistsOne id earlier
                            Hadded). }
  split; [|split; assumption].
  intros later o id earlier Hadded [-> | ->].
  - destruct (Hgate later id earlier Hadded) as (e & He & Hg).
    exists e. split; [exact He|]. unfold constrains. rewrite Hg.
    apply orb_true_r.
  - destruct (Hassert later id earlier Hadded) as (e & He & Hg).
    exists e. split; [exact He|]. unfold constrains. now rewrite Hg.
Qed.

Lemma declared_witnesses_are_constrained_witness :
  exists digest c' added,
    hash Big Big false [] 256 512 false empty = (Ok digest, c') /\
    log c' = added ++ log empty /\
    declared_by ByExists (mkCircuit (next_var c') added)
    = seq (next_var empty) 24 /\
    List.length (declared_by ByExistsOne (mkCircuit (next_var c') added))
    = 200%nat /\
    (forall later o id earlier,
        added = later ++ Witness o id :: earlier ->
        o = ByExists \/ o = ByExistsOne ->
        exists e, In e later /\ constrains id e = true) /\
    (forall later id earlier,
        added = later ++ Witness ByExists id :: earlier ->
        exists e, In e later /\ gate_operand id e = true) /\
    (forall later id earlier,
        added = later ++ Witness ByExistsOne id :: earlier ->
        exists e, In e later /\ asserts_or_range_checks id e = true).
Proof.
  apply (declared_witnesses_are_constrained Big Big false [] 256 512 false
                                            empty).
  - lia.
  - exists 64. reflexivity.
  - lia.
  - exists 32. reflexivity.
Defined.

(** ** The public variants squeeze once *)

(** C10, as amended: for every supported length, on every message and for
    all flags, a public variant runs [hash] with capacity [2 * len] and
    rate [1600 - 2 * len]; the length is below the rate, so the number of
    squeezes is 1 and [squeeze], called on the state that [absorb]
    returned, does what one [keccakStateToBytes] on that state does (200
    declarations and 25 assertions, no gate of a further permutation) and
    returns the first [len / 8] of its bytes.  The variant range-checks
    these bytes and returns them in that order for a big-endian output, in
    reverse order for a little-endian one. *)
Theorem supported_variants_squeeze_once
        (len : Z) (message : list Field) (inpEndian outEndian : Endian)
        (byteChecks nistVersion : bool) (c : Circuit) :
  In len [224; 256; 384; 512] ->
  let capacity := 2 * len in
  let rate := KECCAK_STATE_LENGTH - capacity in
  let messageFormatted :=
    match inpEndian with Big => message | Little => rev message end in
  len < rate /\
  JS.add (JS.floor_div len rate) (JS.Int 1) = JS.Int 1 /\
  exists c1 pad rc c2 state c3 bytes c4 c5,
    let prefix := firstn (Z.to_nat (len / 8)) bytes in
    (if byteChecks then checkBytes messageFormatted else ret tt) c
    = (Ok tt, c1) /\
    (if nistVersion then padNist messageFormatted rate
     else pad101 messageFormatted rate) c1
    = (Ok (messageFormatted ++ pad), c1) /\
    exists_ 24 ROUND_CONSTANTS c1 = (Ok rc, c2) /\
    absorb (messageFormatted ++ pad) capacity rate rc c2 = (Ok state, c3) /\
    keccakStateToBytes state c3 = (Ok bytes, c4) /\
    log c4
    = rev (map (recomposition state bytes) (seq 0 25))
      ++ rev (map (fun idx => Witness ByExistsOne (idx + next_var c3))
                  (seq 0 200))
      ++ log c3 /\
    squeeze state len rate rc c3 = (Ok prefix, c4) /\
    sponge (messageFormatted ++ pad) len capacity rate c1 = (Ok prefix, c4) /\
    checkBytes prefix c4 = (Ok tt, c5) /\
    (if nistVersion
     then nistSha3 len message inpEndian outEndian byteChecks
     else preNist len message inpEndian outEndian byteChecks) c
    = (Ok (match outEndian with Big => prefix | Little => rev prefix end),
       c5) /\
    (len = 256 -> nistVersion = false ->
     ethereum inpEndian outEndian byteChecks message c
     = (Ok (match outEndian with Big => prefix | Little => rev prefix end),
        c5)).
Proof.
  intros Hin capacity rate messageFormatted. subst capacity rate.
  change KECCAK_STATE_LENGTH with 1600.
  assert (Hlen : 224 <= len <= 512).
  { simpl in Hin. destruct Hin as [<-|[<-|[<-|[<-|[]]]]]; lia. }
  assert (Hlen8 : (8 | len)).
  { simpl in Hin. destruct Hin as [<-|[<-|[<-|[<-|[]]]]];
      [exists 28|exists 32|exists 48|exists 64]; reflexivity. }
  assert (Hcap8 : (8 | 2 * len)).
  { destruct Hlen8 as [q ->]. exists (2 * q). lia. }
  assert (Hhash :
            (if nistVersion
             then nistSha3 len message inpEndian outEndian byteChecks
             else preNist len message inpEndian outEndian byteChecks) c
            = hash inpEndian outEndian byteChecks message len (2 * len)
                   nistVersion c).
  { simpl in Hin. destruct Hin as [<-|[<-|[<-|[<-|[]]]]];
      destruct nistVersion; reflexivity. }
  split; [lia|]. split.
  { unfold JS.floor_div. destruct (Z.eqb_spec (1600 - 2 * len) 0); [lia|].
    rewrite Z.div_small by lia. reflexivity. }
  destruct (hash_steps inpEndian outEndian byteChecks message len (2 * len)
                       nistVersion c ltac:(lia) Hcap8 ltac:(lia) Hlen8)
    as (pad & rc & state & c3 & bytes & Hchecks & Hpad & _ & _ & Hrc & _
        & Habs & _ & _ & Hbytes & Hsq & Hsp & Hcheck & Hrun).
  cbv zeta in *. fold messageFormatted in Hchecks, Hpad, Hrc, Habs, Hsp.
  eexists. exists pad, rc. eexists. exists state, c3, bytes.
  eexists. eexists.
  split; [exact Hchecks|]. split; [exact Hpad|]. split; [exact Hrc|].
  split; [exact Habs|]. split; [exact Hbytes|]. split; [reflexivity|].
  split; [exact Hsq|]. split; [exact Hsp|]. split; [exact Hcheck|].
  split; [rewrite Hhash; exact Hrun|].
  intros -> ->. exact Hrun.
Qed.

Lemma supported_variants_squeeze_once_witness :
  let capacity := 2 * 256 in
  let rate := KECCAK_STATE_LENGTH - capacity in
  let messageFormatted := rev [from 97; from 98; from 99] in
  256 < rate /\
  JS.add (JS.floor_div 256 rate) (JS.Int 1) = JS.Int 1 /\
  exists c1 pad rc c2 state c3 bytes c4 c5,
    let prefix := firstn (Z.to_nat (256 / 8)) bytes in
    (if true then checkBytes messageFormatted else ret tt) empty
    = (Ok tt, c1) /\
    (if true then padNist messageFormatted rate
     else pad101 messageFormatted rate) c1
    = (Ok (messageFormatted ++ pad), c1) /\
    exists_ 24 ROUND_CONSTANTS c1 = (Ok rc, c2) /\
    absorb (messageFormatted ++ pad) capacity rate rc c2 = (Ok state, c3) /\
    keccakStateToBytes state c3 = (Ok bytes, c4) /\
    log c4
    = rev (map (recomposition state bytes) (seq 0 25))
      ++ rev (map (fun idx => Witness ByExistsOne (idx + next_var c3))
                  (seq 0 200))
      ++ log c3 /\
    squeeze state 256 rate rc c3 = (Ok prefix, c4) /\
    sponge (messageFormatted ++ pad) 256 capacity rate c1 = (Ok prefix, c4) /\
    checkBytes prefix c4 = (Ok tt, c5) /\
    (if true
     then nistSha3 256 [from 97; from 98; from 99] Little Little true
     else preNist 256 [from 97; from 98; from 99] Little Little true) empty
    = (Ok (rev prefix), c5) /\
    (256 = 256 -> true = false ->
     ethereum Little Little true [from 97; from 98; from 99] empty
     = (Ok (rev prefix), c5)).
Proof.
  apply (supported_variants_squeeze_once
           256 [from 97; from 98; from 99] Little Little true true empty).
  simpl. tauto.
Defined.

(** C10, as stated, fails for a little-endian output: on the empty message
    [nistSha3] with length 256 returns the bytes 4a 43 f8 80 ..., the
    reverse of the first 32 bytes a7 ff c6 f8 ... of the byte decomposition
    of the state that [absorb] returned. *)
Lemma little_endian_digest_is_not_the_prefix :
  exists padded,
    padNist [] 1088 empty = (Ok padded, empty) /\
    digest_hex (sponge_one_squeeze padded 256 512 1088)
    = Some "a7ffc6f8bf1ed76651c14756a061d662f580ff4de43b49fa82d80a4b80f8434a"%string
    /\
    digest_hex (nistSha3 256 [] Big Little false)
    = Some "4a43f8804b0ad882fa493be44dff80f562d661a05647c15166d71ebff8c6ffa7"%string
    /\
    digest_hex (nistSha3 256 [] Big Little false)
    <> digest_hex (sponge_one_squeeze padded 256 512 1088).
Proof.
  eexists. split; [vm_compute; reflexivity|].
  split; [vm_compute; reflexivity|].
  split; [vm_compute; reflexivity|].
  vm_compute. discriminate.
Qed.
